(** * A log-structured merge-tree key-value engine

    Shallow embedding of the JavaScript sources
    - [step3/skiplist.js], [step3/memtable.js]  (ordered buffer, MemTable)
    - [step2/wal.js]                            (write-ahead log)
    - [step4/sstable-writer.js], [step4/sstable-reader.js]
    - [step5/lsm-tree.js]                       (the engine)
    followed by the properties established for them.

    Conventions of the embedding.
    - A JavaScript string is a [string]; one character stands for one code
      unit, and the relational operators on strings are the lexicographic
      comparison of code units ([String.compare]).
    - A JavaScript object that is mutated in place becomes explicit state;
      an exception is an outcome [Thrown] that keeps the state reached when
      it was raised.
    - The data directory is a finite list of named files.  A file holds what
      the readers obtain from its bytes: the parsed lines of a log, or the
      parsed index, blocks and footer of a table.
    - A number that counts is a double; it is kept as the integer it holds,
      and the arithmetic on it rounds as the doubles do. *)

From Stdlib Require Import List String Ascii ZArith NArith Lia Bool.
From Stdlib Require Import DecimalString DecimalN Permutation.
Import ListNotations.
Local Open Scope string_scope.
Local Open Scope list_scope.
Local Open Scope Z_scope.

(* ===================================================================== *)
(** * Numbers                                                              *)
(* ===================================================================== *)

(** A number of the program that holds a sequence number or a level is a
    double whose value is a non-negative integer, or [Infinity]. It is kept
    as the integer itself; [infinity], the first power of two beyond the
    finite doubles, stands for [Infinity]. Every integer up to
    [safe_bound], which is 2^53, is a double; beyond it the result of an
    operation is the nearest double, the one with the even significand at a
    tie. *)
Definition safe_bound : N := 9007199254740992.

Definition infinity : N := 2 ^ 1024.

Definition round_double (n : N) : N :=
  let bits := N.size n in
  if (bits <=? 53)%N then n
  else
    let e := (bits - 53)%N in
    let q := N.shiftr n e in
    let r := (n - N.shiftl q e)%N in
    let half := N.shiftl 1 (e - 1) in
    let q' := if (r <? half)%N then q
              else if (half <? r)%N then (q + 1)%N
              else if N.even q then q else (q + 1)%N in
    N.min infinity (N.shiftl q' e).

(** [c + 1], and the value [c++] leaves in [c]. *)
Definition increment (c : N) : N := round_double (c + 1).

(** The integer that a run of decimal digits writes. *)
Definition digits_value (digits : string) : N :=
  match NilEmpty.uint_of_string digits with
  | Some u => N.of_uint u
  | None => 0%N
  end.

(** [parseInt] of a run of decimal digits: the double nearest to the
    integer the digits write, [Infinity] past the largest double. *)
Definition parseInt (digits : string) : N := round_double (digits_value digits).

(** The decimal digits of an integer. *)
Definition decimal (n : N) : string := NilEmpty.string_of_uint (N.to_uint n).

Fixpoint zeros (n : nat) : string :=
  match n with
  | O => EmptyString
  | S n' => String "0" (zeros n')
  end.

(** The fewest digits [s] and the count [z] of zeros after them for which
    [s * 10^z] is a number that rounds to the double [x]; of two such [s]
    the closer one, the even one at a tie. The search goes from the largest
    [z] down. *)
Fixpoint shortest_from (x : N) (z : nat) : N * nat :=
  let scale := (10 ^ N.of_nat z)%N in
  let lo := (x / scale)%N in
  let hi := (lo + 1)%N in
  let ok_lo := (0 <? lo)%N && (round_double (lo * scale) =? x)%N in
  let ok_hi := (round_double (hi * scale) =? x)%N in
  if ok_lo || ok_hi then
    let below := (x - lo * scale)%N in
    let above := (hi * scale - x)%N in
    let s := if ok_lo && ok_hi
             then if (below <? above)%N then lo
                  else if (above <? below)%N then hi
                  else if N.even lo then lo else hi
             else if ok_lo then lo else hi in
    (s, z)
  else
    match z with
    | O => (x, O)
    | S z' => shortest_from x z'
    end.

(** The text of a number inside a template literal,
    [Number.prototype.toString]: the digits of the integer below 2^53; from
    there on the shortest digits that read back as the same double, followed
    by zeros up to 21 digits in all and in exponent form beyond. *)
Definition Number_toString (x : N) : string :=
  if (x <? safe_bound)%N then decimal x
  else if (infinity <=? x)%N then "Infinity"
  else
    let (s, z) := shortest_from x (String.length (decimal x)) in
    let ds := decimal s in
    let n := (String.length ds + z)%nat in
    if (n <=? 21)%nat then (ds ++ zeros z)%string
    else
      match ds with
      | EmptyString => EmptyString
      | String c EmptyString =>
          (String c "e+" ++ decimal (N.of_nat (n - 1)))%string
      | String c rest =>
          (String c ("." ++ rest) ++ "e+" ++ decimal (N.of_nat (n - 1)))%string
      end.

(* ===================================================================== *)
(** * Host values                                                          *)
(* ===================================================================== *)

(** What [JSON.parse] can return. The numbers are the doubles that hold an
    integer. *)
#[local] Unset Elimination Schemes.
Inductive json : Type :=
  | JNull
  | JBool (b : bool)
  | JNum (z : Z)
  | JStr (s : string)
  | JArr (l : list json)
  | JObj (l : list (string * json)).
#[local] Set Elimination Schemes.

(** The two symbols of the program: [MemTable.TOMBSTONE = Symbol('TOMBSTONE')]
    of memtable.js, which is a fresh symbol, and
    [TOMBSTONE = Symbol.for('TOMBSTONE')] of sstable-reader.js and
    sstable-writer.js, which is the entry of the global registry. *)
Inductive symbol : Type :=
  | MemTable_TOMBSTONE
  | TOMBSTONE.

(** The values that the program tells apart: [undefined], the two symbols,
    and what [JSON.parse] can return. A function or a symbol of the caller's
    own, which [JSON.stringify] leaves out as it does [undefined], and a
    BigInt or an object with a cycle, on which it throws, are not among
    them. *)
Inductive value : Type :=
  | VUndefined
  | VSymbol (s : symbol)
  | VJson (j : json).

Definition symbol_eqb (a b : symbol) : bool :=
  match a, b with
  | MemTable_TOMBSTONE, MemTable_TOMBSTONE => true
  | TOMBSTONE, TOMBSTONE => true
  | _, _ => false
  end.

(** [v === s] for a symbol [s]. *)
Definition is_symbol (s : symbol) (v : value) : bool :=
  match v with
  | VSymbol s' => symbol_eqb s' s
  | _ => false
  end.

(** [v === undefined]. *)
Definition is_undefined (v : value) : bool :=
  match v with
  | VUndefined => true
  | _ => false
  end.

(** [v === '__TOMBSTONE__']. *)
Definition is_tombstone_string (v : value) : bool :=
  match v with
  | VJson (JStr s) => String.eqb s "__TOMBSTONE__"
  | _ => false
  end.

Record entry : Type := mkEntry { key : string; evalue : value }.

(** ** Comparison of strings: [<], [<=], [>=], [>] and [===] *)

Definition js_lt (a b : string) : bool := String.ltb a b.
Definition js_le (a b : string) : bool := String.leb a b.
Definition js_gt (a b : string) : bool := String.ltb b a.
Definition js_ge (a b : string) : bool := String.leb b a.

(** ** [JSON.stringify(x).length] *)

Definition escape_length (c : ascii) : nat :=
  let n := nat_of_ascii c in
  if (n =? 34)%nat || (n =? 92)%nat then 2%nat
  else if (n =? 8)%nat || (n =? 9)%nat || (n =? 10)%nat
          || (n =? 12)%nat || (n =? 13)%nat then 2%nat
  else if (n <? 32)%nat then 6%nat
  else 1%nat.

Fixpoint quote_length (s : string) : nat :=
  match s with
  | EmptyString => 0%nat
  | String c tl => (escape_length c + quote_length tl)%nat
  end.

Definition sum_with_commas (l : list nat) : nat :=
  (list_sum l + (List.length l - 1))%nat.

Fixpoint JSON_stringify_length (j : json) : nat :=
  match j with
  | JNull => 4%nat
  | JBool true => 4%nat
  | JBool false => 5%nat
  | JNum z =>
      let n := round_double (Z.abs_N z) in
      if (infinity <=? n)%N then 4%nat
      else ((if (z <? 0)%Z then 1 else 0)
            + String.length (Number_toString n))%nat
  | JStr s => (2 + quote_length s)%nat
  | JArr l => (2 + sum_with_commas (map JSON_stringify_length l))%nat
  | JObj l =>
      (2 + sum_with_commas
             (map (fun kv => (2 + quote_length (fst kv) + 1
                              + JSON_stringify_length (snd kv))%nat) l))%nat
  end.

(** [JSON.stringify] leaves out a property whose value is [undefined] or a
    symbol; parsing the text back gives an object without the property,
    and reading the property then gives [undefined]. *)
Definition JSON_roundtrip (v : value) : value :=
  match v with
  | VJson j => VJson j
  | _ => VUndefined
  end.

(** [JSON.stringify({key, value}).length] *)
Definition entry_stringify_length (e : entry) : nat :=
  match evalue e with
  | VJson j =>
      JSON_stringify_length (JObj [("key", JStr (key e)); ("value", j)])
  | _ => JSON_stringify_length (JObj [("key", JStr (key e))])
  end.

(* ===================================================================== *)
(** * Outcomes of a call                                                   *)
(* ===================================================================== *)

Inductive outcome (A : Type) : Type :=
  | Returned (a : A)
  | Thrown (message : string).
Arguments Returned {A} a.
Arguments Thrown {A} message.

(** A method of an object of state [S]: the outcome and the state left. *)
Definition method (S A : Type) : Type := S -> outcome A * S.

Definition ret {S A} (a : A) : method S A := fun s => (Returned a, s).
Definition throw {S A} (m : string) : method S A := fun s => (Thrown m, s).
Definition bind {S A B} (c : method S A) (k : A -> method S B) : method S B :=
  fun s =>
    match c s with
    | (Returned a, s') => k a s'
    | (Thrown m, s') => (Thrown m, s')
    end.
Definition get_state {S} : method S S := fun s => (Returned s, s).
Definition put_state {S} (s : S) : method S unit := fun _ => (Returned tt, s).

Declare Scope method_scope.
Delimit Scope method_scope with method.
Notation "x <- c ;; k" := (bind c (fun x => k))
  (at level 61, c at next level, right associativity) : method_scope.
Notation "c ;;; k" := (bind c (fun _ => k))
  (at level 61, right associativity) : method_scope.

Fixpoint for_each {S A} (f : A -> method S unit) (l : list A) : method S unit :=
  match l with
  | [] => ret tt
  | a :: tl => bind (f a) (fun _ => for_each f tl)
  end.

(* ===================================================================== *)
(** * [Map]: insertion-ordered association                                 *)
(* ===================================================================== *)

Definition jsmap : Type := list (string * value).

Fixpoint map_has (k : string) (m : jsmap) : bool :=
  match m with
  | [] => false
  | (k', _) :: tl => if String.eqb k' k then true else map_has k tl
  end.

(** [m.set(k, v)]: an existing key keeps its place. *)
Fixpoint map_set (k : string) (v : value) (m : jsmap) : jsmap :=
  match m with
  | [] => [(k, v)]
  | (k', v') :: tl =>
      if String.eqb k' k then (k, v) :: tl else (k', v') :: map_set k v tl
  end.

(** [m.delete(k)] *)
Fixpoint map_delete (k : string) (m : jsmap) : jsmap :=
  match m with
  | [] => []
  | (k', v') :: tl =>
      if String.eqb k' k then tl else (k', v') :: map_delete k tl
  end.

Fixpoint map_get (k : string) (m : jsmap) : value :=
  match m with
  | [] => VUndefined
  | (k', v') :: tl => if String.eqb k' k then v' else map_get k tl
  end.

(* ===================================================================== *)
(** * step3/skiplist.js                                                    *)
(* ===================================================================== *)

(** The skip list is represented by its level-0 chain, the ascending list of
    its nodes; the upper levels are shortcuts into that chain and every
    search ends on the level-0 walk written here. *)
Module SkipList.

Definition t : Type := list entry.

Definition empty : t := [].

(** Move forward while the next key is less than the target; update the
    node found there when its key is the target, insert before it
    otherwise. *)
Fixpoint set (k : string) (v : value) (l : t) : t :=
  match l with
  | [] => [mkEntry k v]
  | e :: tl =>
      if js_lt (key e) k then e :: set k v tl
      else if String.eqb (key e) k then mkEntry k v :: tl
      else mkEntry k v :: e :: tl
  end.

Fixpoint get (k : string) (l : t) : value :=
  match l with
  | [] => VUndefined
  | e :: tl =>
      if js_lt (key e) k then get k tl
      else if String.eqb (key e) k then evalue e
      else VUndefined
  end.

(** The second loop of [range]: collect while [current.key <= endKey]. *)
Fixpoint collect (endKey : string) (l : t) : list entry :=
  match l with
  | [] => []
  | e :: tl => if js_le (key e) endKey then e :: collect endKey tl else []
  end.

Fixpoint range (startKey endKey : string) (l : t) : list entry :=
  match l with
  | [] => []
  | e :: tl =>
      if js_lt (key e) startKey then range startKey endKey tl
      else collect endKey l
  end.

Definition iterate (l : t) : list entry := l.

(** [delete]: the walk of [set], then the node found is unlinked when its
    key is the target; the result says whether a node was removed. *)
Fixpoint delete (k : string) (l : t) : bool * t :=
  match l with
  | [] => (false, [])
  | e :: tl =>
      if js_lt (key e) k
      then let (removed, tl') := delete k tl in (removed, e :: tl')
      else if String.eqb (key e) k then (true, tl)
      else (false, l)
  end.

Definition has (k : string) (l : t) : bool := negb (is_undefined (get k l)).

Definition keys (l : t) : list string := map key (iterate l).

(** [this.size] is raised by every insertion of a node and lowered by
    every removal: it is the number of nodes of the chain. *)
Definition size (l : t) : nat := List.length l.

End SkipList.

(* ===================================================================== *)
(** * step3/memtable.js                                                    *)
(* ===================================================================== *)

Module MemTable.

Record t : Type := mk {
  skipList : SkipList.t;
  maxSizeBytes : Z;
  currentSizeBytes : Z
}.

Definition new (maxSizeBytes : Z) : t := mk SkipList.empty maxSizeBytes 0.

(** [_estimateSize]; [JSON.stringify(value)] is [undefined] for a value
    that is [undefined] or a symbol, and reading [.length] of it throws. *)
Definition _estimateSize (k : string) (v : value) : outcome Z :=
  let size := Z.of_nat (String.length k) * 2 in
  match v with
  | VSymbol MemTable_TOMBSTONE => Returned (size + 8 + 64)
  | VJson (JStr s) => Returned (size + Z.of_nat (String.length s) * 2 + 64)
  | VJson j => Returned (size + Z.of_nat (JSON_stringify_length j) * 2 + 64)
  | _ => Thrown "TypeError: Cannot read properties of undefined (reading 'length')"
  end.

Definition shouldFlush (m : t) : bool :=
  maxSizeBytes m <=? currentSizeBytes m.

Definition set (k : string) (v : value) : method t bool :=
  fun m =>
    match _estimateSize k v with
    | Thrown msg => (Thrown msg, m)
    | Returned entrySize =>
        let existingValue := SkipList.get k (skipList m) in
        let removed :=
          if is_undefined existingValue then Returned m
          else match _estimateSize k existingValue with
               | Thrown msg => Thrown msg
               | Returned old =>
                   Returned (mk (skipList m) (maxSizeBytes m)
                                (currentSizeBytes m - old))
               end in
        match removed with
        | Thrown msg => (Thrown msg, m)
        | Returned m1 =>
            let m2 := mk (SkipList.set k v (skipList m1)) (maxSizeBytes m1)
                         (currentSizeBytes m1 + entrySize) in
            (Returned (shouldFlush m2), m2)
        end
    end.

Definition delete (k : string) : method t bool :=
  set k (VSymbol MemTable_TOMBSTONE).

Definition get (k : string) (m : t) : value := SkipList.get k (skipList m).

Definition range (startKey endKey : string) (m : t) : list entry :=
  SkipList.range startKey endKey (skipList m).

Definition entries (m : t) : list entry := SkipList.iterate (skipList m).

End MemTable.

(* ===================================================================== *)
(** * The data directory                                                   *)
(* ===================================================================== *)

(** A line of the log as [recover] sees it: [JSON.parse] throws, or the
    parsed object is read through [entry.op], [entry.key], [entry.value]
    (a property that is absent reads as [undefined]; an object whose [op] is
    neither ['SET'] nor ['DELETE'] is a record with that other [op]). *)
Inductive wal_line : Type :=
  | Corrupt
  | LogRecord (op : string) (k : string) (v : value).

(** An index entry [{startKey, endKey, offset, size}]. The byte range
    [offset, offset + size) of the file is represented by what [_loadBlock]
    parses from it, the entries of the block. *)
Record BlockInfo : Type := mkBlockInfo {
  startKey : string;
  endKey : string;
  data : list entry
}.

(** The footer; [indexOffset] and [indexSize] locate the index in the bytes
    of the file and are represented by the index itself. *)
Record Footer : Type := mkFooter {
  blockCount : nat;
  entryCount : nat;
  minKey : string;
  maxKey : string;
  magic : string
}.

Record table : Type := mkTable {
  t_index : list BlockInfo;
  t_footer : Footer
}.

(** A file of the directory. A log is its lines, each ended by a newline;
    [TornLogFile] is a log whose bytes go on after the last newline: [tail]
    is what [recover] makes of that last text, which it reads as one more
    line, [Corrupt] when it skips the text or cannot parse it. White space
    that [JSON.parse] accepts at the end of a log counts as no text at
    all. *)
Inductive file : Type :=
  | LogFile (lines : list wal_line)
  | TableFile (t : table)
  | TornLogFile (lines : list wal_line) (tail : wal_line).

(** The directory in the order [fs.readdirSync] lists it. The place that a
    new name takes in the listing is the choice of the file system; here it
    is the end. *)
Definition disk : Type := list (string * file).

Fixpoint disk_lookup (name : string) (d : disk) : option file :=
  match d with
  | [] => None
  | (n, f) :: tl => if String.eqb n name then Some f else disk_lookup name tl
  end.

Fixpoint disk_write (name : string) (f : file) (d : disk) : disk :=
  match d with
  | [] => [(name, f)]
  | (n, f') :: tl =>
      if String.eqb n name then (name, f) :: tl
      else (n, f') :: disk_write name f tl
  end.

Fixpoint disk_remove (name : string) (d : disk) : disk :=
  match d with
  | [] => []
  | (n, f') :: tl =>
      if String.eqb n name then tl else (n, f') :: disk_remove name tl
  end.

(** [fs.unlinkSync] *)
Definition unlinkSync (name : string) : method disk unit :=
  fun d =>
    match disk_lookup name d with
    | Some _ => (Returned tt, disk_remove name d)
    | None => (Thrown "ENOENT: no such file or directory, unlink", d)
    end.

Definition readdirSync (d : disk) : list string := map fst d.

(* ===================================================================== *)
(** * step2/wal.js                                                         *)
(* ===================================================================== *)

Module WriteAheadLog.

Definition logPath : string := "wal.log".

(** The constructor opens the file in append mode, which creates it. *)
Definition new (d : disk) : disk :=
  match disk_lookup logPath d with
  | Some _ => d
  | None => disk_write logPath (LogFile []) d
  end.

(** [_appendEntry] writes the text of the record and a newline at the end
    of the file. After a last line that no newline ends, the text of the
    record goes on that line: the line is then a text followed by an object,
    which [JSON.parse] rejects. *)
Definition _appendEntry (line : wal_line) (d : disk) : disk :=
  match disk_lookup logPath d with
  | Some (LogFile ls) => disk_write logPath (LogFile (ls ++ [line])) d
  | Some (TornLogFile ls _) => disk_write logPath (LogFile (ls ++ [Corrupt])) d
  | Some (TableFile _) => disk_write logPath (LogFile [Corrupt]) d
  | None => disk_write logPath (LogFile [line]) d
  end.

Definition logSet (k : string) (v : value) (d : disk) : disk :=
  _appendEntry (LogRecord "SET" k (JSON_roundtrip v)) d.

Definition logDelete (k : string) (d : disk) : disk :=
  _appendEntry (LogRecord "DELETE" k VUndefined) d.

(** The body of the replay loop; the [catch] clause skips the line. *)
Definition replay_line (store : jsmap) (line : wal_line) : jsmap :=
  match line with
  | Corrupt => store
  | LogRecord op k v =>
      if String.eqb op "SET" then map_set k v store
      else if String.eqb op "DELETE" then map_delete k store
      else store
  end.

Definition replay (lines : list wal_line) : jsmap :=
  fold_left replay_line lines [].

Definition recover (d : disk) : jsmap :=
  match disk_lookup logPath d with
  | Some (LogFile lines) => replay lines
  | Some (TornLogFile lines tail) => replay (lines ++ [tail])
  | _ => []
  end.

End WriteAheadLog.

(* ===================================================================== *)
(** * step2/store.js                                                       *)
(* ===================================================================== *)

Module DurableKVStore.

Record t : Type := mk {
  _data : jsmap;
  dataDir : disk
}.

(** The constructor: open the log, then recover the map from it. *)
Definition new (d : disk) : t :=
  let d' := WriteAheadLog.new d in
  mk (WriteAheadLog.recover d') d'.

Definition set (k : string) (v : value) : method t value :=
  fun s =>
    let d := WriteAheadLog.logSet k v (dataDir s) in
    (Returned v, mk (map_set k v (_data s)) d).

(** [delete] returns what [Map.delete] returns: whether the key was there. *)
Definition delete (k : string) : method t bool :=
  fun s =>
    let d := WriteAheadLog.logDelete k (dataDir s) in
    (Returned (map_has k (_data s)), mk (map_delete k (_data s)) d).

Definition get (k : string) (s : t) : value := map_get k (_data s).

Definition has (k : string) (s : t) : bool := map_has k (_data s).

Definition keys (s : t) : list string := map fst (_data s).

Definition size (s : t) : nat := List.length (_data s).

End DurableKVStore.

(* ===================================================================== *)
(** * step4/sstable-writer.js                                              *)
(* ===================================================================== *)

Definition first_key (l : list entry) : string :=
  match l with
  | [] => ""
  | e :: _ => key e
  end.

Definition last_key (l : list entry) : string :=
  key (last l (mkEntry "" VUndefined)).

Module SSTableWriter.

Definition default_blockSize : nat := 4096.

(** The first loop of [write]. *)
Definition convert (e : entry) : entry :=
  mkEntry (key e)
          (if is_symbol TOMBSTONE (evalue e)
           then VJson (JStr "__TOMBSTONE__") else evalue e).

Definition _estimateEntrySize (e : entry) : nat := entry_stringify_length e.

(** [_finalizeBlock]; it is called on non-empty arrays only. The bytes
    [JSON.stringify(entries)] are kept as the array they parse to. *)
Definition _finalizeBlock (entries : list entry) : BlockInfo :=
  mkBlockInfo (first_key entries) (last_key entries)
              (map (fun e => mkEntry (key e) (JSON_roundtrip (evalue e)))
                   entries).

Fixpoint build_loop (blockSize : nat) (entries : list entry)
         (blocks : list BlockInfo) (currentBlockEntries : list entry)
         (currentBlockSize : nat) : list BlockInfo :=
  match entries with
  | [] =>
      match currentBlockEntries with
      | [] => blocks
      | _ => blocks ++ [_finalizeBlock currentBlockEntries]
      end
  | e :: tl =>
      let entrySize := _estimateEntrySize e in
      if (blockSize <? currentBlockSize + entrySize)%nat
         && (0 <? List.length currentBlockEntries)%nat
      then build_loop blockSize tl
                      (blocks ++ [_finalizeBlock currentBlockEntries])
                      [e] entrySize
      else build_loop blockSize tl blocks
                      (currentBlockEntries ++ [e])
                      (currentBlockSize + entrySize)%nat
  end.

Definition _buildDataBlocks (blockSize : nat) (entries : list entry)
  : list BlockInfo :=
  build_loop blockSize entries [] [] 0%nat.

Definition write (blockSize : nat) (filePath : string)
           (entries : list entry) : method disk Footer :=
  fun d =>
    let allEntries := map convert entries in
    match allEntries with
    | [] => (Thrown "Cannot write empty SSTable", d)
    | _ =>
        let dataBlocks := _buildDataBlocks blockSize allEntries in
        let footer := mkFooter (List.length dataBlocks)
                               (List.length allEntries)
                               (first_key allEntries)
                               (last_key allEntries)
                               "SSTABLE_V1" in
        (Returned footer,
         disk_write filePath (TableFile (mkTable dataBlocks footer)) d)
    end.

End SSTableWriter.

(* ===================================================================== *)
(** * step4/sstable-reader.js                                              *)
(* ===================================================================== *)

Module SSTableReader.

Record t : Type := mk {
  filePath : string;
  footer : Footer;
  index : list BlockInfo
}.

(** The constructor, [_loadMetadata]. *)
Definition new (path : string) (d : disk) : outcome t :=
  match disk_lookup path d with
  | Some (TableFile tb) => Returned (mk path (t_footer tb) (t_index tb))
  | Some (LogFile _) => Thrown "SyntaxError: footer is not valid JSON"
  | Some (TornLogFile _ _) => Thrown "SyntaxError: footer is not valid JSON"
  | None => Thrown "ENOENT: no such file or directory, open"
  end.

(** [_loadBlock] reads the bytes of the block from the file. The reader
    carries them from the time the file was opened: it answers as the code
    does for as long as its file stays in the directory as it was then. *)
Definition _loadBlock (blockInfo : BlockInfo) : list entry := data blockInfo.

(** The loop of [_findBlockIndex]; [fuel] bounds the number of turns. *)
Fixpoint findBlock_loop (fuel : nat) (idx : list BlockInfo) (k : string)
         (left right result : Z) : option Z :=
  match fuel with
  | O => None
  | S fuel' =>
      if left <=? right then
        let mid := (left + right) / 2 in
        match nth_error idx (Z.to_nat mid) with
        | None => None
        | Some block =>
            if js_ge k (startKey block) && js_le k (endKey block)
            then Some mid
            else if js_lt k (startKey block)
                 then findBlock_loop fuel' idx k left (mid - 1) result
                 else findBlock_loop fuel' idx k (mid + 1) right mid
        end
      else Some result
  end.

Definition _findBlockIndex (r : t) (k : string) : option Z :=
  findBlock_loop (S (List.length (index r))) (index r) k
                 0 (Z.of_nat (List.length (index r)) - 1) (-1).

(** The loop of [_binarySearchBlock]; [Some None] is the result [null]. *)
Fixpoint binarySearch_loop (fuel : nat) (entries : list entry) (k : string)
         (left right : Z) : option (option entry) :=
  match fuel with
  | O => None
  | S fuel' =>
      if left <=? right then
        let mid := (left + right) / 2 in
        match nth_error entries (Z.to_nat mid) with
        | None => None
        | Some e =>
            if String.eqb (key e) k then Some (Some e)
            else if js_lt (key e) k
                 then binarySearch_loop fuel' entries k (mid + 1) right
                 else binarySearch_loop fuel' entries k left (mid - 1)
        end
      else Some None
  end.

Definition _binarySearchBlock (entries : list entry) (k : string)
  : option (option entry) :=
  binarySearch_loop (S (List.length entries)) entries k
                    0 (Z.of_nat (List.length entries) - 1).

(** The conversion of the stored marker back to the symbol. *)
Definition decode (v : value) : value :=
  if is_tombstone_string v then VSymbol TOMBSTONE else v.

(** [get]; the result [None] stands for a loop of the model that ran out
    of fuel or read outside an array, which is shown not to happen. *)
Definition get (r : t) (k : string) : option value :=
  if js_lt k (minKey (footer r)) || js_gt k (maxKey (footer r))
  then Some VUndefined
  else
    match _findBlockIndex r k with
    | None => None
    | Some blockIndex =>
        if blockIndex =? -1 then Some VUndefined
        else
          match nth_error (index r) (Z.to_nat blockIndex) with
          | None => None
          | Some blockInfo =>
              match _binarySearchBlock (_loadBlock blockInfo) k with
              | None => None
              | Some None => Some VUndefined
              | Some (Some e) => Some (decode (evalue e))
              end
          end
    end.

(** The filter of [range] applied to one block. *)
Definition range_block (startKey_ endKey_ : string) (b : BlockInfo)
  : list entry :=
  map (fun e => mkEntry (key e) (decode (evalue e)))
      (filter (fun e => js_ge (key e) startKey_ && js_le (key e) endKey_)
              (_loadBlock b)).

(** The [while] loop of [range] over the blocks from [blockIdx] on. *)
Fixpoint range_loop (startKey_ endKey_ : string) (blocks : list BlockInfo)
  : list entry :=
  match blocks with
  | [] => []
  | b :: tl =>
      if js_gt (startKey b) endKey_ then []
      else range_block startKey_ endKey_ b
           ++ range_loop startKey_ endKey_ tl
  end.

Definition range (r : t) (startKey_ endKey_ : string)
  : option (list entry) :=
  match _findBlockIndex r startKey_ with
  | None => None
  | Some blockIdx =>
      let blockIdx := if blockIdx =? -1 then 0 else blockIdx in
      Some (range_loop startKey_ endKey_
                       (skipn (Z.to_nat blockIdx) (index r)))
  end.

(** [Symbol.iterator] *)
Definition iterate (r : t) : list entry :=
  flat_map (fun b => map (fun e => mkEntry (key e) (decode (evalue e)))
                         (_loadBlock b))
           (index r).

Definition stats (r : t) : Footer := footer r.

End SSTableReader.

(* ===================================================================== *)
(** * File names of tables                                                 *)
(* ===================================================================== *)

(** [s.endsWith(suffix)] *)
Definition endsWith (s suffix : string) : bool :=
  let n := String.length s in
  let m := String.length suffix in
  (m <=? n)%nat && String.eqb (substring (n - m) m s) suffix.

Definition is_digit (c : ascii) : bool :=
  let n := nat_of_ascii c in (48 <=? n)%nat && (n <=? 57)%nat.

(** The longest run of digits at the head of [s], and what follows it. *)
Fixpoint take_digits (s : string) : string * string :=
  match s with
  | EmptyString => (EmptyString, EmptyString)
  | String c tl =>
      if is_digit c
      then let (ds, rest) := take_digits tl in (String c ds, rest)
      else (EmptyString, s)
  end.

(** [s] without the prefix [p], when it starts with it. *)
Fixpoint strip_prefix (p s : string) : option string :=
  match p, s with
  | EmptyString, _ => Some s
  | String a p', String b s' =>
      if Ascii.eqb a b then strip_prefix p' s' else None
  | String _ _, EmptyString => None
  end.

(** A match of [/level(\d+)_(\d+)\.sst/] that starts at the head of [s]. A
    group [\d+] is followed in the pattern by a character that is not a
    digit, so the group can only hold the whole run of digits. *)
Definition match_here (s : string) : option (string * string) :=
  match strip_prefix "level" s with
  | None => None
  | Some r0 =>
      let (g1, r1) := take_digits r0 in
      if String.eqb g1 "" then None
      else match strip_prefix "_" r1 with
           | None => None
           | Some r2 =>
               let (g2, r3) := take_digits r2 in
               if String.eqb g2 "" then None
               else match strip_prefix ".sst" r3 with
                    | None => None
                    | Some _ => Some (g1, g2)
                    end
           end
  end.

(** [file.match(/level(\d+)_(\d+)\.sst/)]: the leftmost match. *)
Fixpoint regex_match (s : string) : option (string * string) :=
  match match_here s with
  | Some g => Some g
  | None =>
      match s with
      | EmptyString => None
      | String _ tl => regex_match tl
      end
  end.

(** [`level${level}_${seq}.sst`]; a level is an index of the array of
    levels, and its text is the digits of the index. *)
Definition table_name (level : nat) (seq : N) : string :=
  ("level" ++ decimal (N.of_nat level) ++ "_" ++ Number_toString seq
   ++ ".sst")%string.

(* ===================================================================== *)
(** * [Array.prototype.sort]                                               *)
(* ===================================================================== *)

Section Sort.

Context {A : Type}.
(** The comparison function handed to [sort]. *)
Variable compareFn : A -> A -> Z.

Fixpoint sort_insert (a : A) (l : list A) : list A :=
  match l with
  | [] => [a]
  | b :: tl => if compareFn a b <=? 0 then a :: l else b :: sort_insert a tl
  end.

(** The sort is stable. *)
Definition array_sort (l : list A) : list A := fold_right sort_insert [] l.

End Sort.

(* ===================================================================== *)
(** * step5/lsm-tree.js                                                    *)
(* ===================================================================== *)

Definition set_nth {A} (n : nat) (a : A) (l : list A) : list A :=
  firstn n l ++ match skipn n l with [] => [] | _ :: tl => a :: tl end.

Module LSMTree.

(** The options, as integers; [maxLevels] becomes the length of the array
    of levels. *)
Record options : Type := mkOptions {
  opt_memtableMaxSize : option Z;
  opt_level0MaxFiles : option Z;
  opt_levelSizeMultiplier : option Z;
  opt_maxLevels : option nat
}.

Definition no_options : options := mkOptions None None None None.

(** [o || d] for a numeric option. *)
Definition or_default (o : option Z) (d : Z) : Z :=
  match o with
  | None => d
  | Some 0 => d
  | Some v => v
  end.

Definition or_default_nat (o : option nat) (d : nat) : nat :=
  match o with
  | None => d
  | Some O => d
  | Some v => v
  end.

Record t : Type := mk {
  memtableMaxSize : Z;
  level0MaxFiles : Z;
  levelSizeMultiplier : Z;
  maxLevels : nat;
  memtable : MemTable.t;
  levels : list (list SSTableReader.t);
  sstableCounter : N;
  dataDir : disk
}.

Definition with_memtable (m : MemTable.t) (s : t) : t :=
  mk (memtableMaxSize s) (level0MaxFiles s) (levelSizeMultiplier s)
     (maxLevels s) m (levels s) (sstableCounter s) (dataDir s).
Definition with_levels (l : list (list SSTableReader.t)) (s : t) : t :=
  mk (memtableMaxSize s) (level0MaxFiles s) (levelSizeMultiplier s)
     (maxLevels s) (memtable s) l (sstableCounter s) (dataDir s).
Definition with_counter (c : N) (s : t) : t :=
  mk (memtableMaxSize s) (level0MaxFiles s) (levelSizeMultiplier s)
     (maxLevels s) (memtable s) (levels s) c (dataDir s).
Definition with_dataDir (d : disk) (s : t) : t :=
  mk (memtableMaxSize s) (level0MaxFiles s) (levelSizeMultiplier s)
     (maxLevels s) (memtable s) (levels s) (sstableCounter s) d.

(** A method of a component run on the engine's copy of it. *)
Definition on_dataDir {A} (c : method disk A) : method t A :=
  fun s => let (r, d) := c (dataDir s) in (r, with_dataDir d s).
Definition on_memtable {A} (c : method MemTable.t A) : method t A :=
  fun s => let (r, m) := c (memtable s) in (r, with_memtable m s).
Definition lift {A} (o : outcome A) : method t A := fun s => (o, s).

Local Open Scope method_scope.

(** [this.sstableCounter++] *)
Definition next_counter : method t N :=
  fun s => (Returned (sstableCounter s),
            with_counter (increment (sstableCounter s)) s).

(** [this.levels[level].push(reader)] *)
Definition push_reader (level : nat) (reader : SSTableReader.t)
  : method t unit :=
  fun s =>
    match nth_error (levels s) level with
    | None =>
        (Thrown "TypeError: Cannot read properties of undefined (reading 'push')", s)
    | Some l => (Returned tt, with_levels (set_nth level (l ++ [reader]) (levels s)) s)
    end.

(** [this.levels[level] = l] *)
Definition assign_level (level : nat) (l : list SSTableReader.t)
  : method t unit :=
  fun s => (Returned tt, with_levels (set_nth level l (levels s)) s).

(** [this.levels[level]]; the array has [maxLevels] elements from the
    constructor on. *)
Definition level_tables (s : t) (level : nat) : list SSTableReader.t :=
  nth level (levels s) [].

Section Engine.

(** [String.prototype.localeCompare], the collation of the host. *)
Variable localeCompare : string -> string -> Z.

Definition by_key (a b : entry) : Z := localeCompare (key a) (key b).

(** The merge loops of [_compactLevel] over the iteration of one table. *)
Definition merge_newer (allEntries : jsmap) (r : SSTableReader.t) : jsmap :=
  fold_left (fun m e => map_set (key e) (evalue e) m)
            (SSTableReader.iterate r) allEntries.
Definition merge_older (allEntries : jsmap) (r : SSTableReader.t) : jsmap :=
  fold_left (fun m e => if map_has (key e) m then m
                        else map_set (key e) (evalue e) m)
            (SSTableReader.iterate r) allEntries.

Definition _compactLevel (level : nat) : method t unit :=
  s <- get_state ;;
  if Z.of_nat (maxLevels s) - 1 <=? Z.of_nat level then ret tt
  else
    let oldSstables := level_tables s level in
    let allEntries := fold_left merge_newer oldSstables [] in
    let nextLevelOldSstables := level_tables s (level + 1) in
    let allEntries := fold_left merge_older nextLevelOldSstables allEntries in
    let deepest := Z.of_nat level + 1 =? Z.of_nat (maxLevels s) - 1 in
    let entries :=
      map (fun kv => mkEntry (fst kv) (snd kv))
          (filter (fun kv => negb (deepest && is_symbol TOMBSTONE (snd kv)))
                  allEntries) in
    let entries := array_sort by_key entries in
    seq <- next_counter ;;
    let sstablePath := table_name (level + 1) seq in
    (match entries with
     | [] => assign_level (level + 1) []
     | _ =>
         on_dataDir (SSTableWriter.write SSTableWriter.default_blockSize
                                         sstablePath entries) ;;;
         s' <- get_state ;;
         reader <- lift (SSTableReader.new sstablePath (dataDir s')) ;;
         assign_level (level + 1) [reader]
     end) ;;;
    assign_level level [] ;;;
    for_each (fun r => on_dataDir (unlinkSync (SSTableReader.filePath r)))
             oldSstables ;;;
    for_each (fun r => on_dataDir (unlinkSync (SSTableReader.filePath r)))
             nextLevelOldSstables.

Definition _flushMemtable : method t unit :=
  seq <- next_counter ;;
  let sstablePath := table_name 0 seq in
  s <- get_state ;;
  on_dataDir (SSTableWriter.write SSTableWriter.default_blockSize sstablePath
                                  (MemTable.entries (memtable s))) ;;;
  s <- get_state ;;
  reader <- lift (SSTableReader.new sstablePath (dataDir s)) ;;
  push_reader 0 reader ;;;
  s <- get_state ;;
  put_state (with_memtable (MemTable.new (memtableMaxSize s)) s) ;;;
  on_dataDir (unlinkSync WriteAheadLog.logPath) ;;;
  on_dataDir (fun d => (Returned tt, WriteAheadLog.new d)) ;;;
  s <- get_state ;;
  if level0MaxFiles s <=? Z.of_nat (List.length (level_tables s 0))
  then _compactLevel 0
  else ret tt.

Definition set (k : string) (v : value) : method t value :=
  on_dataDir (fun d => (Returned tt, WriteAheadLog.logSet k v d)) ;;;
  shouldFlush <- on_memtable (MemTable.set k v) ;;
  (if shouldFlush : bool then _flushMemtable else ret tt) ;;;
  ret v.

Definition delete (k : string) : method t bool :=
  on_dataDir (fun d => (Returned tt, WriteAheadLog.logDelete k d)) ;;;
  shouldFlush <- on_memtable (MemTable.delete k) ;;
  (if shouldFlush : bool then _flushMemtable else ret tt) ;;;
  ret true.

(** The probes of [get] in a list of tables: [Some (Some v)] when a table
    answers and [get] returns [v], [Some None] when none does. With
    [guarded] the table is asked only when the key is inside the range of
    its footer. *)
Fixpoint probe (guarded : bool) (k : string) (tables : list SSTableReader.t)
  : option (option value) :=
  match tables with
  | [] => Some None
  | sstable :: tl =>
      let st := SSTableReader.stats sstable in
      if guarded && negb (js_ge k (minKey st) && js_le k (maxKey st))
      then probe guarded k tl
      else
        match SSTableReader.get sstable k with
        | None => None
        | Some v =>
            if negb (is_undefined v)
            then Some (Some (if is_symbol TOMBSTONE v then VUndefined else v))
            else probe guarded k tl
        end
  end.

Definition get (s : t) (k : string) : option value :=
  let memValue := MemTable.get k (memtable s) in
  if negb (is_undefined memValue)
  then Some (if is_symbol MemTable_TOMBSTONE memValue
             then VUndefined else memValue)
  else
    match probe false k (rev (level_tables s 0)) with
    | None => None
    | Some (Some v) => Some v
    | Some None =>
        match probe true k (List.concat (skipn 1 (firstn (maxLevels s) (levels s)))) with
        | None => None
        | Some (Some v) => Some v
        | Some None => Some VUndefined
        end
    end.

(** The collecting loops of [range] over a list of tables. *)
Fixpoint collect_tables (startKey_ endKey_ : string)
         (tables : list SSTableReader.t) (results : jsmap) : option jsmap :=
  match tables with
  | [] => Some results
  | sstable :: tl =>
      match SSTableReader.range sstable startKey_ endKey_ with
      | None => None
      | Some es =>
          collect_tables startKey_ endKey_ tl
            (fold_left (fun m e => map_set (key e) (evalue e) m) es results)
      end
  end.

Definition range (s : t) (startKey_ endKey_ : string) : option (list entry) :=
  match collect_tables startKey_ endKey_
          (List.concat (rev (firstn (maxLevels s) (levels s)))) [] with
  | None => None
  | Some results =>
      let results :=
        fold_left (fun m e => map_set (key e) (evalue e) m)
                  (MemTable.range startKey_ endKey_ (memtable s)) results in
      let output :=
        map (fun kv => mkEntry (fst kv) (snd kv))
            (filter (fun kv => negb (is_symbol TOMBSTONE (snd kv))
                               && negb (is_symbol MemTable_TOMBSTONE (snd kv)))
                    results) in
      Some (array_sort by_key output)
  end.

(** The first loop of [_recover], over the names of the directory. *)
Definition recover_file (file_ : string) : method t unit :=
  if endsWith file_ ".sst" then
    match regex_match file_ with
    | None => ret tt
    | Some (g1, g2) =>
        let level := N.to_nat (parseInt g1) in
        let counter := parseInt g2 in
        s <- get_state ;;
        reader <- lift (SSTableReader.new file_ (dataDir s)) ;;
        push_reader level reader ;;;
        s <- get_state ;;
        if (sstableCounter s <=? counter)%N
        then put_state (with_counter (increment counter) s)
        else ret tt
    end
  else ret tt.

(** The second loop of [_recover], over the recovered map. *)
Definition replay_entry (kv : string * value) : method t unit :=
  match snd kv with
  | VSymbol _ => on_memtable (MemTable.delete (fst kv)) ;;; ret tt
  | _ => on_memtable (MemTable.set (fst kv) (snd kv)) ;;; ret tt
  end.

Definition _recover : method t unit :=
  s <- get_state ;;
  for_each recover_file (readdirSync (dataDir s)) ;;;
  s <- get_state ;;
  for_each replay_entry (WriteAheadLog.recover (dataDir s)).

(** The constructor: the state before [_recover], then [_recover]. *)
Definition initial (d : disk) (o : options) : t :=
  let memtableMaxSize := or_default (opt_memtableMaxSize o) (4 * 1024 * 1024) in
  let maxLevels := or_default_nat (opt_maxLevels o) 7 in
  mk memtableMaxSize
     (or_default (opt_level0MaxFiles o) 4)
     (or_default (opt_levelSizeMultiplier o) 10)
     maxLevels
     (MemTable.new memtableMaxSize)
     (repeat [] maxLevels)
     0%N
     (WriteAheadLog.new d).

Definition new (d : disk) (o : options) : outcome unit * t :=
  _recover (initial d o).

End Engine.

End LSMTree.

(* ===================================================================== *)
(** * Vocabulary of the statements                                         *)
(* ===================================================================== *)

Definition parseable (line : wal_line) : bool :=
  match line with
  | Corrupt => false
  | LogRecord _ _ _ => true
  end.

(** The longest prefix of the log that parses cleanly. *)
Fixpoint clean_prefix (lines : list wal_line) : list wal_line :=
  match lines with
  | [] => []
  | line :: tl => if parseable line then line :: clean_prefix tl else []
  end.

(** Strictly ascending keys. *)
Fixpoint keys_ascending (l : list entry) : bool :=
  match l with
  | [] => true
  | e :: tl =>
      match tl with
      | [] => true
      | e' :: _ => js_lt (key e) (key e') && keys_ascending tl
      end
  end.


Definition stored (e : entry) : entry :=
  mkEntry (key e) (JSON_roundtrip (evalue e)).

Definition read_back (e : entry) : entry :=
  mkEntry (key e) (SSTableReader.decode (evalue e)).

(** The index of a table whose blocks are in order: in every block the
    start key is at most the end key, and the end key of a block is less
    than the start key of the next one. *)
Fixpoint index_ordered (idx : list BlockInfo) : bool :=
  match idx with
  | [] => true
  | b :: tl =>
      js_le (startKey b) (endKey b)
      && match tl with
         | [] => true
         | b' :: _ => js_lt (endKey b) (startKey b')
         end
      && index_ordered tl
  end.

(** The minimum key of the footer is the start key of the first block. *)
Definition footer_agrees (r : SSTableReader.t) : bool :=
  match SSTableReader.index r with
  | [] => false
  | b :: _ => String.eqb (minKey (SSTableReader.footer r)) (startKey b)
  end.

Definition first_start (idx : list BlockInfo) : string :=
  match idx with
  | [] => ""
  | b :: _ => startKey b
  end.

(** The sum of [_estimateSize] over the entries of a chain. *)
Fixpoint estimated_total (l : list entry) : option Z :=
  match l with
  | [] => Some 0
  | e :: tl =>
      match MemTable._estimateSize (key e) (evalue e), estimated_total tl with
      | Returned a, Some b => Some (a + b)
      | _, _ => None
      end
  end.

(** [currentSizeBytes] is the sum of the estimates of the entries held. *)
Definition accounted (m : MemTable.t) : Prop :=
  estimated_total (MemTable.skipList m) = Some (MemTable.currentSizeBytes m).

Inductive memtable_call : Type :=
  | CallSet (k : string) (v : value)
  | CallDelete (k : string).

(** The MemTable left by a call, whether it returned or threw. *)
Definition after_call (m : MemTable.t) (c : memtable_call) : MemTable.t :=
  match c with
  | CallSet k v => snd (MemTable.set k v m)
  | CallDelete k => snd (MemTable.delete k m)
  end.

(** The values of a map after [JSON.stringify] and [JSON.parse]. *)
Definition parsed_back (m : jsmap) : jsmap :=
  map (fun kv => (fst kv, JSON_roundtrip (snd kv))) m.


(** The log of the directory is not there yet, or it is a log whose last
    line a newline ends. *)
Definition log_terminated (d : disk) : bool :=
  match disk_lookup WriteAheadLog.logPath d with
  | Some (LogFile _) => true
  | None => true
  | _ => false
  end.

(** A record that [recover] applies to the key: a SET or a DELETE of it. *)
Definition mentions (k : string) (line : wal_line) : bool :=
  match line with
  | Corrupt => false
  | LogRecord op k' _ =>
      (String.eqb op "SET" || String.eqb op "DELETE") && String.eqb k' k
  end.



(** A block as the writer cuts it: it holds at least one entry, its keys
    are strictly ascending, and its start and end keys are the keys of its
    first and last entries. *)
Definition block_wf (b : BlockInfo) : bool :=
  (0 <? List.length (data b))%nat
  && keys_ascending (data b)
  && String.eqb (startKey b) (first_key (data b))
  && String.eqb (endKey b) (last_key (data b)).

(** The footer carries the start key of the first block and the end key of
    the last one. *)
Definition footer_covers (r : SSTableReader.t) : bool :=
  footer_agrees r
  && String.eqb (maxKey (SSTableReader.footer r))
                (endKey (last (SSTableReader.index r)
                              (mkBlockInfo "" "" []))).

(** A table as the writer lays it out from an ascending stream. *)
Definition table_wf (r : SSTableReader.t) : bool :=
  forallb block_wf (SSTableReader.index r)
  && index_ordered (SSTableReader.index r)
  && footer_covers r.

(** The estimated sizes of the entries of a block stay within the block
    size, unless the block holds a single entry. *)
Definition block_within (blockSize : nat) (b : BlockInfo) : bool :=
  (0 <? List.length (data b))%nat
  && ((List.length (data b) =? 1)%nat
      || (list_sum (map SSTableWriter._estimateEntrySize (data b))
          <=? blockSize)%nat).

(** The reader that opens on the file [write] leaves. *)
Definition written_reader (blockSize : nat) (path : string)
           (entries : list entry) : SSTableReader.t :=
  let allEntries := map SSTableWriter.convert entries in
  let dataBlocks := SSTableWriter._buildDataBlocks blockSize allEntries in
  SSTableReader.mk path
    (mkFooter (List.length dataBlocks) (List.length allEntries)
              (first_key allEntries) (last_key allEntries) "SSTABLE_V1")
    dataBlocks.

(** [entry.key >= startKey && entry.key <= endKey] *)
Definition in_range (lo hi : string) (e : entry) : bool :=
  js_ge (key e) lo && js_le (key e) hi.



(** The entries that [_compactLevel] hands to the writer: the tables of
    the level, later ones over earlier ones, then the keys that only the
    next level has, without the tombstones when the next level is the
    deepest, sorted. *)
Definition merged_entries (localeCompare : string -> string -> Z)
           (level : nat) (s : LSMTree.t) : list entry :=
  let allEntries :=
    fold_left LSMTree.merge_newer (LSMTree.level_tables s level) [] in
  let allEntries :=
    fold_left LSMTree.merge_older (LSMTree.level_tables s (level + 1))
              allEntries in
  let deepest := Z.of_nat level + 1 =? Z.of_nat (LSMTree.maxLevels s) - 1 in
  array_sort (LSMTree.by_key localeCompare)
    (map (fun kv => mkEntry (fst kv) (snd kv))
         (filter (fun kv => negb (deepest && is_symbol TOMBSTONE (snd kv)))
                 allEntries)).

(** The levels after the compaction of [level] that wrote [tables] into
    the next one. *)
Definition compacted_levels (level : nat) (tables : list SSTableReader.t)
           (s : LSMTree.t) : list (list SSTableReader.t) :=
  set_nth level [] (set_nth (level + 1) tables (LSMTree.levels s)).

Definition not_marker (v : value) : Prop := is_tombstone_string v = false.


(** The file of a table, as its reader holds it. *)
Definition table_of (r : SSTableReader.t) : table :=
  mkTable (SSTableReader.index r) (SSTableReader.footer r).

(** The tables the engine has open, level after level. *)
Definition open_tables (s : LSMTree.t) : list SSTableReader.t :=
  List.concat (LSMTree.levels s).

(** The engine and its directory agree: the directory lists no name twice,
    no two open tables share a file, the file of every open table is in the
    directory and holds the index, the blocks and the footer that the reader
    carries, and no open table is the log. *)
Definition consistent (s : LSMTree.t) : Prop :=
  NoDup (readdirSync (LSMTree.dataDir s))
  /\ NoDup (map SSTableReader.filePath (open_tables s))
  /\ forall r, In r (open_tables s) ->
       disk_lookup (SSTableReader.filePath r) (LSMTree.dataDir s)
       = Some (TableFile (table_of r))
       /\ SSTableReader.filePath r <> WriteAheadLog.logPath.

(** What the loop of recovery over the names keeps: the open tables were
    opened from names already seen, each on its own file of the directory,
    a file named [*.sst]. *)
Definition opened_from (seen : list string) (s : LSMTree.t) : Prop :=
  NoDup (map SSTableReader.filePath (open_tables s))
  /\ forall r, In r (open_tables s) ->
       In (SSTableReader.filePath r) seen
       /\ disk_lookup (SSTableReader.filePath r) (LSMTree.dataDir s)
          = Some (TableFile (table_of r))
       /\ endsWith (SSTableReader.filePath r) ".sst" = true.

(** The directory after the tables of a list were written. *)
Definition with_tables (tables : list SSTableReader.t) (d : disk) : disk :=
  fold_right (fun r d => disk_write (SSTableReader.filePath r)
                                    (TableFile (table_of r)) d)
             d tables.

(** The sequence numbers written in the names of the table files of the
    directory are below 2^53. *)
Definition sequence_numbers_safe (d : disk) : bool :=
  forallb (fun name =>
             if endsWith name ".sst"
             then match regex_match name with
                  | Some (_, g2) => (digits_value g2 <? safe_bound)%N
                  | None => true
                  end
             else true)
          (readdirSync d).

(** No name that a flush or a compaction makes from the counter, or from a
    later value of it below 2^53, is in the directory. *)
Definition fresh_from (s : LSMTree.t) : Prop :=
  forall level seq,
    (LSMTree.sstableCounter s <= seq)%N -> (seq < safe_bound)%N ->
    ~ In (table_name level seq) (readdirSync (LSMTree.dataDir s)).

Inductive engine_call : Type :=
  | EngineSet (k : string) (v : value)
  | EngineDelete (k : string)
  | EngineFlush
  | EngineCompact (level : nat).

(** The engine left by a call, whether it returned or threw. *)
Definition after_engine_call (localeCompare : string -> string -> Z)
           (s : LSMTree.t) (c : engine_call) : LSMTree.t :=
  match c with
  | EngineSet k v => snd (LSMTree.set localeCompare k v s)
  | EngineDelete k => snd (LSMTree.delete localeCompare k s)
  | EngineFlush => snd (LSMTree._flushMemtable localeCompare s)
  | EngineCompact level => snd (LSMTree._compactLevel localeCompare level s)
  end.

(** What has become of the counter and of the directory between two
    states, when the counter is still below 2^53 in the second: the counter
    has not gone down, and a name of the directory was there before, or is
    the log, or is the name of a table made from a sequence number between
    [b] and the counter. *)
Definition advanced (b : N) (s s' : LSMTree.t) : Prop :=
  (LSMTree.sstableCounter s' < safe_bound)%N ->
  (LSMTree.sstableCounter s <= LSMTree.sstableCounter s')%N
  /\ forall name,
       In name (readdirSync (LSMTree.dataDir s')) ->
       In name (readdirSync (LSMTree.dataDir s))
       \/ name = WriteAheadLog.logPath
       \/ exists level seq,
            name = table_name level seq
            /\ (b <= seq)%N /\ (seq < LSMTree.sstableCounter s')%N.

(** A method that takes no sequence number: it leaves the counter as it is
    and adds no name to the directory but that of the log. *)
Definition quiet {A} (m : method LSMTree.t A) : Prop :=
  forall s r s',
    m s = (r, s') ->
    LSMTree.sstableCounter s' = LSMTree.sstableCounter s
    /\ forall name,
         In name (readdirSync (LSMTree.dataDir s')) ->
         In name (readdirSync (LSMTree.dataDir s))
         \/ name = WriteAheadLog.logPath.

(** A method run after the sequence number [b] was taken from the counter:
    the tables it writes are named from [b] or from numbers it takes
    itself. *)
Definition tame_at {A} (b : N) (m : method LSMTree.t A) : Prop :=
  forall s r s',
    m s = (r, s') ->
    ((LSMTree.sstableCounter s < safe_bound)%N ->
     (b < LSMTree.sstableCounter s)%N) ->
    advanced b s s'.

(** A method that names the tables it writes from the numbers it takes. *)
Definition tame {A} (m : method LSMTree.t A) : Prop :=
  forall s r s',
    m s = (r, s') -> advanced (LSMTree.sstableCounter s) s s'.

(** One step of each of the two merging loops of a compaction, on one entry
    of a table. *)
Definition set_entry (m : jsmap) (e : entry) : jsmap :=
  map_set (key e) (evalue e) m.

Definition add_entry (m : jsmap) (e : entry) : jsmap :=
  if map_has (key e) m then m else map_set (key e) (evalue e) m.

(** The value of the first, and of the last, entry of a stream that carries
    the key. *)
Fixpoint first_value (k : string) (es : list entry) : option value :=
  match es with
  | [] => None
  | e :: tl => if String.eqb (key e) k then Some (evalue e)
               else first_value k tl
  end.

Fixpoint last_value (k : string) (es : list entry) : option value :=
  match es with
  | [] => None
  | e :: tl =>
      match last_value k tl with
      | Some v => Some v
      | None => if String.eqb (key e) k then Some (evalue e) else None
      end
  end.

(** The value that the tables of a level and of the next one give a key,
    the newest first: the last table of the level that holds the key, in the
    order of the list, and failing that the first table of the next level
    that holds it. *)
Definition newest_value (level : nat) (s : LSMTree.t) (k : string)
  : option value :=
  match last_value k (flat_map SSTableReader.iterate
                               (LSMTree.level_tables s level)) with
  | Some v => Some v
  | None => first_value k (flat_map SSTableReader.iterate
                                    (LSMTree.level_tables s (level + 1)))
  end.

(* ===================================================================== *)
(** * Directories, logs and streams used as examples                       *)
(* ===================================================================== *)

Definition sample_log : list wal_line :=
  [LogRecord "SET" "a" (VJson (JNum 1)); Corrupt;
   LogRecord "SET" "b" (VJson (JNum 2))].

Definition unsorted_stream : list entry :=
  [mkEntry "b" (VJson (JNum 1)); mkEntry "a" (VJson (JNum 2))].


Definition one_entry_table (name k : string) (v : json) (d : disk) : disk :=
  snd (SSTableWriter.write SSTableWriter.default_blockSize name
                           [mkEntry k (VJson v)] d).

Definition gap_table : disk :=
  snd (SSTableWriter.write 16 "level1_0.sst"
         [mkEntry "a" (VJson (JNum 1)); mkEntry "c" (VJson (JNum 2));
          mkEntry "e" (VJson (JNum 3)); mkEntry "g" (VJson (JNum 4))] []).

Definition gap_reader : SSTableReader.t :=
  match SSTableReader.new "level1_0.sst" gap_table with
  | Returned r => r
  | Thrown _ => SSTableReader.mk "" (mkFooter 0 0 "" "" "") []
  end.

(** A directory with a table at level 0, a table at level 1 and a log. *)
Definition sample_directory : disk :=
  one_entry_table "level0_3.sst" "a" (JNum 1)
    (one_entry_table "level1_7.sst" "b" (JNum 2)
       [("wal.log", LogFile [LogRecord "SET" "c" (VJson (JNum 3))])]).

Definition two_levels : LSMTree.options :=
  LSMTree.mkOptions None None None (Some 2%nat).

Definition sample_value : value := VJson (JStr "v").

(** The state after [set(k, v)], a flush and [delete(k)], on an engine
    of two levels opened on an empty directory. *)
Definition deleted_after_flush (localeCompare : string -> string -> Z)
  : LSMTree.t :=
  let s0 := snd (LSMTree.new [] two_levels) in
  let s1 := snd (LSMTree.set localeCompare "k" sample_value s0) in
  let s2 := snd (LSMTree._flushMemtable localeCompare s1) in
  snd (LSMTree.delete localeCompare "k" s2).

(** Two tables of level 0 with the same key; the directory lists the names
    in the order of their characters, [level0_10.sst] before
    [level0_2.sst]. *)
Definition two_flushes : disk :=
  one_entry_table "level0_2.sst" "k" (JStr "old")
    (one_entry_table "level0_10.sst" "k" (JStr "new") []).

(** A table whose name carries the sequence number 2^53 + 1. *)
Definition large_sequence_directory : disk :=
  one_entry_table "level0_9007199254740993.sst" "a" (JNum 1) [].

(** A log whose last record was cut before its end. *)
Definition torn_directory : disk :=
  [("wal.log", TornLogFile [LogRecord "SET" "a" (VJson (JNum 1))] Corrupt)].

Definition sample_chain : SkipList.t :=
  SkipList.set "b" (VJson (JNum 2))
    (SkipList.set "d" (VJson (JNum 4))
       (SkipList.set "a" (VJson (JNum 1)) SkipList.empty)).

Definition sample_stream : list entry :=
  [mkEntry "a" (VJson (JNum 1)); mkEntry "c" (VSymbol TOMBSTONE);
   mkEntry "e" (VJson (JStr "x")); mkEntry "g" (VJson JNull)].

(** An engine opened on the sample directory, after one write. *)
Definition sample_engine : LSMTree.t :=
  snd (LSMTree.set (fun _ _ => 0) "k" (VJson (JNum 7))
         (snd (LSMTree.new sample_directory LSMTree.no_options))).

(** A directory with one table of level 0 that holds a tombstone. *)
Definition tombstone_directory : disk :=
  snd (SSTableWriter.write SSTableWriter.default_blockSize "level0_0.sst"
         [mkEntry "a" (VJson (JNum 1)); mkEntry "b" (VSymbol TOMBSTONE)] []).

(* ===================================================================== *)
(** * Tactics                                                              *)
(* ===================================================================== *)

(** [consistent] of a state that is given in full, by computation. *)
Ltac consistent_by_computation :=
  split; [|split];
  [ vm_compute; repeat (constructor; [simpl; intuition discriminate|]);
    constructor
  | vm_compute; repeat (constructor; [simpl; intuition discriminate|]);
    constructor
  | let r := fresh "r" in
    let Hr := fresh "Hr" in
    intros r Hr; vm_compute in Hr;
    repeat (destruct Hr as [<-|Hr]; [split; [reflexivity|discriminate]|]);
    destruct Hr ].

(* ===================================================================== *)
(** * The order of keys                                                    *)
(* ===================================================================== *)

Section KeyOrder.

Lemma compare_refl (a : string) : String.compare a a = Eq.
Proof.
  induction a as [|c a IH]; simpl; [reflexivity|].
  unfold Ascii.compare. now rewrite N.compare_refl.
Qed.

Lemma compare_lt_trans (a b c : string) :
  String.compare a b = Lt -> String.compare b c = Lt ->
  String.compare a c = Lt.
Proof.
  revert b c.
  induction a as [|x a IH]; intros [|y b] [|z c]; simpl; try congruence.
  unfold Ascii.compare.
  destruct (N.compare_spec (N_of_ascii x) (N_of_ascii y)) as [Hxy|Hxy|Hxy];
    destruct (N.compare_spec (N_of_ascii y) (N_of_ascii z)) as [Hyz|Hyz|Hyz];
    try congruence; intros H1 H2.
  - rewrite Hxy, Hyz, N.compare_refl. eauto.
  - rewrite Hxy. now apply N.compare_lt_iff in Hyz as ->.
  - rewrite <- Hyz. now apply N.compare_lt_iff in Hxy as ->.
  - assert (Hxz : (N_of_ascii x < N_of_ascii z)%N) by lia.
    now apply N.compare_lt_iff in Hxz as ->.
Qed.

Lemma js_lt_irrefl (a : string) : js_lt a a = false.
Proof. unfold js_lt, String.ltb. now rewrite compare_refl. Qed.

Lemma js_le_refl (a : string) : js_le a a = true.
Proof. unfold js_le, String.leb. now rewrite compare_refl. Qed.

Lemma js_lt_trans (a b c : string) :
  js_lt a b = true -> js_lt b c = true -> js_lt a c = true.
Proof.
  unfold js_lt, String.ltb. intros H1 H2.
  destruct (String.compare a b) eqn:E1; try discriminate.
  destruct (String.compare b c) eqn:E2; try discriminate.
  now rewrite (compare_lt_trans a b c E1 E2).
Qed.

Lemma js_le_cases (a b : string) :
  js_le a b = true <-> a = b \/ js_lt a b = true.
Proof.
  unfold js_le, js_lt, String.leb, String.ltb. split.
  - destruct (String.compare a b) eqn:E; try discriminate; intros _.
    + left. now apply String.compare_eq_iff.
    + now right.
  - intros [->|H]; [now rewrite compare_refl|].
    now destruct (String.compare a b).
Qed.

Lemma js_le_lt_trans (a b c : string) :
  js_le a b = true -> js_lt b c = true -> js_lt a c = true.
Proof.
  intros H1 H2. apply js_le_cases in H1 as [->|H1]; [assumption|].
  now apply js_lt_trans with b.
Qed.

Lemma js_lt_le_trans (a b c : string) :
  js_lt a b = true -> js_le b c = true -> js_lt a c = true.
Proof.
  intros H1 H2. apply js_le_cases in H2 as [<-|H2]; [assumption|].
  now apply js_lt_trans with b.
Qed.

Lemma js_lt_le (a b : string) : js_lt a b = true -> js_le a b = true.
Proof. intros H. apply js_le_cases. now right. Qed.

(** [!(a <= b)] is [b < a]. *)
Lemma js_le_false (a b : string) : js_le a b = false -> js_lt b a = true.
Proof.
  unfold js_le, js_lt, String.leb, String.ltb.
  rewrite (String.compare_antisym b a).
  now destruct (String.compare a b).
Qed.

(** [!(a < b)] is [b <= a]. *)
Lemma js_lt_false (a b : string) : js_lt a b = false -> js_le b a = true.
Proof.
  unfold js_le, js_lt, String.leb, String.ltb.
  rewrite (String.compare_antisym b a).
  now destruct (String.compare a b).
Qed.

Lemma js_lt_neq (a b : string) : js_lt a b = true -> a <> b.
Proof. intros H ->. now rewrite js_lt_irrefl in H. Qed.

End KeyOrder.

(* ===================================================================== *)
(** * Properties of the write-ahead log                                    *)
(* ===================================================================== *)

Lemma replay_from (lines : list wal_line) (store : jsmap) :
  fold_left WriteAheadLog.replay_line lines store
  = fold_left WriteAheadLog.replay_line (filter parseable lines) store.
Proof.
  revert store.
  induction lines as [|line tl IH]; intros store; [reflexivity|].
  destruct line as [|op k v]; simpl.
  - apply IH.
  - apply IH.
Qed.

(** C5, as stated, fails: a record that follows a corrupt line is replayed.
    The log [SET a; <corrupt>; SET b] recovers [b] as well, which the
    replay of its clean prefix [SET a] does not. *)
Lemma replay_continues_after_corrupt_line :
  In Corrupt sample_log
  /\ WriteAheadLog.replay sample_log
     = [("a", VJson (JNum 1)); ("b", VJson (JNum 2))]
  /\ WriteAheadLog.replay (clean_prefix sample_log) = [("a", VJson (JNum 1))]
  /\ WriteAheadLog.replay sample_log
     <> WriteAheadLog.replay (clean_prefix sample_log).
Proof.
  repeat split.
  - right. now left.
  - discriminate.
Qed.

(** C5, amended: replay applies exactly the records that parse, in the order
    of the log; every corrupt line is skipped, wherever it stands, and the
    records after it are applied. *)
Theorem replay_skips_corrupt_lines (lines : list wal_line) :
  WriteAheadLog.replay lines = WriteAheadLog.replay (filter parseable lines).
Proof. unfold WriteAheadLog.replay. apply replay_from. Qed.

(* ===================================================================== *)
(** * Properties of the table writer                                       *)
(* ===================================================================== *)

Lemma disk_lookup_write (name : string) (f : file) (d : disk) :
  disk_lookup name (disk_write name f d) = Some f.
Proof.
  induction d as [|[n f'] d IH]; simpl.
  - now rewrite String.eqb_refl.
  - destruct (String.eqb n name) eqn:E; simpl.
    + now rewrite String.eqb_refl.
    + now rewrite E.
Qed.

(** ** Writing a table and reading it back *)


Lemma flat_map_app' {A B} (f : A -> list B) (l1 l2 : list A) :
  flat_map f (l1 ++ l2) = flat_map f l1 ++ flat_map f l2.
Proof.
  induction l1 as [|a l1 IH]; simpl; [reflexivity|].
  now rewrite IH, app_assoc.
Qed.

(** The blocks hold the entries of the stream, in the order of the stream,
    whatever the sizes that cut them. *)
Lemma build_loop_data (blockSize : nat) (entries : list entry) :
  forall blocks cur size,
    flat_map data (SSTableWriter.build_loop blockSize entries blocks cur size)
    = flat_map data blocks ++ map stored cur ++ map stored entries.
Proof.
  induction entries as [|e tl IH]; intros blocks cur size; simpl.
  - destruct cur as [|c cur]; simpl.
    + now rewrite app_nil_r.
    + rewrite flat_map_app'. simpl. now rewrite !app_nil_r.
  - destruct ((blockSize <? size + SSTableWriter._estimateEntrySize e)%nat
              && (0 <? List.length cur)%nat).
    + rewrite IH, flat_map_app'. simpl.
      now rewrite app_nil_r, <- app_assoc.
    + rewrite IH, map_app. simpl. now rewrite <- app_assoc.
Qed.

Lemma iterate_written (blockSize : nat) (entries : list entry) (f : Footer)
      (path : string) :
  SSTableReader.iterate
    (SSTableReader.mk path f
       (SSTableWriter._buildDataBlocks blockSize
          (map SSTableWriter.convert entries)))
  = map (fun e => read_back (stored (SSTableWriter.convert e))) entries.
Proof.
  unfold SSTableReader.iterate, SSTableReader._loadBlock. simpl.
  assert (E : forall idx : list BlockInfo,
             flat_map (fun b => map (fun e => mkEntry (key e)
                                 (SSTableReader.decode (evalue e))) (data b)) idx
             = map read_back (flat_map data idx)).
  { induction idx as [|b idx IH]; simpl; [reflexivity|].
    now rewrite IH, map_app. }
  rewrite E. unfold SSTableWriter._buildDataBlocks.
  rewrite build_loop_data. simpl. now rewrite !map_map.
Qed.

Lemma last_cons {A} (x d : A) (tl : list A) : last (x :: tl) d = last tl x.
Proof.
  revert x d. induction tl as [|y tl IH]; intros x d; [reflexivity|].
  change (last (x :: y :: tl) d) with (last (y :: tl) d).
  now rewrite (IH y d), (IH y x).
Qed.

Lemma last_key_convert (e : entry) (tl : list entry) :
  last_key (map SSTableWriter.convert (e :: tl)) = key (last tl e).
Proof.
  unfold last_key. cbn [map]. rewrite last_cons.
  revert e. induction tl as [|x tl IH]; intros e; [reflexivity|].
  cbn [map]. rewrite !last_cons. apply IH.
Qed.

(** C6, as stated, fails: the writer has no check of the order. The stream
    [b, a] is written and the file is installed, with [b] as its minimum
    key and [a] as its maximum key; the blocks hold [b] before [a], and the
    reader that opens the file iterates [b], then [a]. *)
Lemma write_accepts_unsorted_stream :
  keys_ascending unsorted_stream = false
  /\ exists tb r,
       SSTableWriter.write 4096 "level0_0.sst" unsorted_stream []
       = (Returned (t_footer tb), [("level0_0.sst", TableFile tb)])
       /\ minKey (t_footer tb) = "b" /\ maxKey (t_footer tb) = "a"
       /\ flat_map data (t_index tb) = unsorted_stream
       /\ SSTableReader.new "level0_0.sst" [("level0_0.sst", TableFile tb)]
          = Returned r
       /\ SSTableReader.iterate r = unsorted_stream.
Proof.
  split; [reflexivity|].
  eexists (mkTable _ _), (SSTableReader.mk _ _ _). simpl. repeat split.
Qed.

(** C6, amended: the writer raises an error exactly when the stream is
    empty, and then leaves the directory as it was; a stream that is not
    empty, ascending or not, is written in the order given and installed
    under the path: the footer counts its entries and its blocks and
    carries the keys of its first and last entries, the blocks hold the
    entries in the order of the stream, and the reader that opens the file
    iterates them in that order. *)
Theorem write_throws_only_on_empty_stream
        (blockSize : nat) (path : string) (entries : list entry) (d : disk) :
  ((exists m, SSTableWriter.write blockSize path entries d = (Thrown m, d))
   <-> entries = [])
  /\ (forall e tl, exists tb r,
        SSTableWriter.write blockSize path (e :: tl) d
        = (Returned (t_footer tb), disk_write path (TableFile tb) d)
        /\ disk_lookup path (disk_write path (TableFile tb) d)
           = Some (TableFile tb)
        /\ entryCount (t_footer tb) = S (List.length tl)
        /\ blockCount (t_footer tb) = List.length (t_index tb)
        /\ minKey (t_footer tb) = key e
        /\ maxKey (t_footer tb) = key (last tl e)
        /\ flat_map data (t_index tb)
           = map stored (map SSTableWriter.convert (e :: tl))
        /\ SSTableReader.new path (disk_write path (TableFile tb) d)
           = Returned r
        /\ SSTableReader.iterate r
           = map (fun x => read_back (stored (SSTableWriter.convert x)))
                 (e :: tl)
        /\ map key (SSTableReader.iterate r) = map key (e :: tl)).
Proof.
  split.
  - split.
    + intros [m H]. destruct entries; [reflexivity|discriminate].
    + intros ->. now eexists.
  - intros e tl.
    exists (mkTable
              (SSTableWriter._buildDataBlocks blockSize
                 (map SSTableWriter.convert (e :: tl)))
              (mkFooter
                 (List.length
                    (SSTableWriter._buildDataBlocks blockSize
                       (map SSTableWriter.convert (e :: tl))))
                 (List.length (map SSTableWriter.convert (e :: tl)))
                 (first_key (map SSTableWriter.convert (e :: tl)))
                 (last_key (map SSTableWriter.convert (e :: tl)))
                 "SSTABLE_V1")).
    exists (written_reader blockSize path (e :: tl)).
    cbn [t_footer t_index entryCount blockCount minKey maxKey].
    split; [reflexivity|]. split; [apply disk_lookup_write|].
    split; [simpl; now rewrite length_map|].
    split; [reflexivity|]. split; [reflexivity|].
    split; [apply last_key_convert|].
    split.
    { unfold SSTableWriter._buildDataBlocks. rewrite build_loop_data.
      reflexivity. }
    split; [unfold SSTableReader.new; now rewrite disk_lookup_write|].
    unfold written_reader. rewrite iterate_written. split; [reflexivity|].
    rewrite map_map. reflexivity.
Qed.




(* ===================================================================== *)
(** * Properties of the table reader                                       *)
(* ===================================================================== *)

Section ReaderSearch.

Lemma index_ordered_block (idx : list BlockInfo) (i : nat) (b : BlockInfo) :
  index_ordered idx = true -> nth_error idx i = Some b ->
  js_le (startKey b) (endKey b) = true.
Proof.
  revert i. induction idx as [|b0 tl IH]; intros i Hord Hi.
  - now destruct i.
  - simpl in Hord. apply andb_true_iff in Hord as [Hord Htl].
    apply andb_true_iff in Hord as [Hb0 _].
    destruct i as [|i]; simpl in Hi.
    + now inversion Hi; subst.
    + eauto.
Qed.

Lemma index_ordered_head (b0 : BlockInfo) (tl : list BlockInfo)
      (j : nat) (b : BlockInfo) :
  index_ordered (b0 :: tl) = true -> nth_error tl j = Some b ->
  js_lt (endKey b0) (startKey b) = true.
Proof.
  revert b0 j. induction tl as [|b1 tl IH]; intros b0 j Hord Hj.
  - now destruct j.
  - simpl in Hord.
    apply andb_true_iff in Hord as [Hord Htl].
    apply andb_true_iff in Hord as [_ H01].
    destruct j as [|j]; simpl in Hj.
    + now inversion Hj; subst.
    + assert (H1 : js_le (startKey b1) (endKey b1) = true)
        by (apply (index_ordered_block (b1 :: tl) 0 b1); auto).
      apply js_lt_trans with (startKey b1); [assumption|].
      apply js_le_lt_trans with (endKey b1); [assumption|].
      now apply (IH b1 j).
Qed.

Lemma index_ordered_pairwise (idx : list BlockInfo) (i j : nat)
      (bi bj : BlockInfo) :
  index_ordered idx = true -> (i < j)%nat ->
  nth_error idx i = Some bi -> nth_error idx j = Some bj ->
  js_lt (endKey bi) (startKey bj) = true.
Proof.
  revert i j. induction idx as [|b0 tl IH]; intros i j Hord Hij Hi Hj.
  - now destruct i.
  - destruct j as [|j]; [lia|]. simpl in Hj.
    destruct i as [|i]; simpl in Hi.
    + inversion Hi; subst. now apply (index_ordered_head bi tl j).
    + simpl in Hord. apply andb_true_iff in Hord as [_ Htl].
      apply (IH i j); auto. lia.
Qed.

Lemma midpoint (left right : Z) :
  left <= right -> left <= (left + right) / 2 <= right.
Proof.
  intros H. split.
  - apply Z.div_le_lower_bound; lia.
  - apply Z.lt_succ_r, Z.div_lt_upper_bound; lia.
Qed.

Lemma nth_error_in_bounds {A} (l : list A) (z : Z) :
  0 <= z < Z.of_nat (List.length l) ->
  exists a, nth_error l (Z.to_nat z) = Some a.
Proof.
  intros H. destruct (nth_error l (Z.to_nat z)) eqn:E; [eauto|].
  apply nth_error_None in E. lia.
Qed.

Variable idx : list BlockInfo.
Variable k : string.
Hypothesis Hord : index_ordered idx = true.

(** The search of the index ends, and on the last block whose start key
    is at most [k] when there is such a block. *)
Lemma findBlock_loop_last (fuel : nat) :
  forall left right result,
    0 <= left -> right < Z.of_nat (List.length idx) ->
    left <= right + 1 -> result = left - 1 ->
    (Z.to_nat (right - left + 1) < fuel)%nat ->
    (forall j b, Z.of_nat j < left -> nth_error idx j = Some b ->
                 js_lt (endKey b) k = true) ->
    (forall j b, right < Z.of_nat j -> nth_error idx j = Some b ->
                 js_lt k (startKey b) = true) ->
    exists i,
      SSTableReader.findBlock_loop fuel idx k left right result = Some i
      /\ -1 <= i < Z.of_nat (List.length idx)
      /\ (forall j b, i < Z.of_nat j -> nth_error idx j = Some b ->
                      js_lt k (startKey b) = true)
      /\ (forall b, nth_error idx (Z.to_nat i) = Some b -> 0 <= i ->
                    js_le (startKey b) k = true).
Proof.
  induction fuel as [|fuel IH];
    intros left right result Hl Hr Hlr Hres Hfuel Hbelow Habove; [lia|].
  simpl. destruct (left <=? right) eqn:Ecmp.
  - apply Z.leb_le in Ecmp.
    pose proof (midpoint left right Ecmp) as Hmid.
    set (mid := (left + right) / 2) in *.
    destruct (nth_error_in_bounds idx mid) as [block Hblock]; [lia|].
    rewrite Hblock.
    pose proof (index_ordered_block idx _ block Hord Hblock) as Hse.
    destruct (js_ge k (startKey block) && js_le k (endKey block)) eqn:Ein.
    + apply andb_true_iff in Ein as [Hge Hle]. exists mid.
      split; [reflexivity|]. split; [lia|]. split.
      * intros j b Hj Hb.
        apply js_le_lt_trans with (endKey block); [assumption|].
        apply (index_ordered_pairwise idx (Z.to_nat mid) j); auto. lia.
      * intros b Hb _. rewrite Hblock in Hb. now inversion Hb; subst.
    + destruct (js_lt k (startKey block)) eqn:Elt.
      * apply IH; try lia; [assumption|].
        intros j b Hj Hb.
        destruct (Z.eq_dec (Z.of_nat j) mid) as [Ej|Ej].
        -- rewrite <- Ej, Nat2Z.id in Hblock. congruence.
        -- apply js_lt_trans with (startKey block); [assumption|].
           apply js_le_lt_trans with (endKey block); [assumption|].
           apply (index_ordered_pairwise idx (Z.to_nat mid) j); auto. lia.
      * assert (Hgt : js_lt (endKey block) k = true).
        { apply js_le_false. apply js_lt_false in Elt.
          unfold js_ge in Ein. fold (js_le (startKey block) k) in Ein.
          rewrite Elt in Ein. exact Ein. }
        apply IH; try lia; [|assumption].
        intros j b Hj Hb.
        destruct (Z.eq_dec (Z.of_nat j) mid) as [Ej|Ej].
        -- rewrite <- Ej, Nat2Z.id in Hblock. congruence.
        -- apply js_lt_trans with (startKey block).
           ++ apply (index_ordered_pairwise idx j (Z.to_nat mid)); auto. lia.
           ++ now apply js_le_lt_trans with (endKey block).
  - apply Z.leb_gt in Ecmp. exists result.
    split; [reflexivity|]. split; [lia|]. split.
    + intros j b Hj Hb. apply (Habove j); [lia|assumption].
    + intros b Hb Hpos. apply js_lt_le.
      apply js_le_lt_trans with (endKey b).
      * now apply (index_ordered_block idx (Z.to_nat result)).
      * apply (Hbelow (Z.to_nat result)); [lia|assumption].
Qed.

End ReaderSearch.

(** The search inside a block ends, and an entry it returns carries the key
    that was asked for. *)
Lemma binarySearch_loop_sound (entries : list entry) (k : string) (fuel : nat) :
  forall left right,
    0 <= left -> right < Z.of_nat (List.length entries) ->
    (Z.to_nat (right - left + 1) < fuel)%nat ->
    exists res,
      SSTableReader.binarySearch_loop fuel entries k left right = Some res
      /\ (forall e, res = Some e -> In e entries /\ key e = k).
Proof.
  induction fuel as [|fuel IH]; intros left right Hl Hr Hfuel; [lia|].
  simpl. destruct (left <=? right) eqn:Ecmp.
  - apply Z.leb_le in Ecmp.
    pose proof (midpoint left right Ecmp) as Hmid.
    set (mid := (left + right) / 2) in *.
    destruct (nth_error_in_bounds entries mid) as [e He]; [lia|].
    rewrite He.
    destruct (String.eqb (key e) k) eqn:Eeq.
    + exists (Some e). split; [reflexivity|].
      intros e' He'. inversion He'; subst e'. split.
      * eapply nth_error_In; eassumption.
      * now apply String.eqb_eq.
    + destruct (js_lt (key e) k); apply IH; lia.
  - exists None. split; [reflexivity|]. discriminate.
Qed.

Lemma _binarySearchBlock_absent (entries : list entry) (k : string) :
  (forall e, In e entries -> key e <> k) ->
  SSTableReader._binarySearchBlock entries k = Some None.
Proof.
  intros Habs. unfold SSTableReader._binarySearchBlock.
  destruct (binarySearch_loop_sound entries k (S (List.length entries)) 0
              (Z.of_nat (List.length entries) - 1)) as [res [Hres Hsound]];
    try lia.
  rewrite Hres. destruct res as [e|]; [|reflexivity].
  destruct (Hsound e eq_refl) as [Hin Hkey]. now apply Habs in Hin.
Qed.

(** C10: in a table whose index is in order and whose footer carries the
    start key of the first block as minimum key, a key inside the range of
    the footer that no entry of the table carries is looked up without
    error: the search of the index returns the last block whose start key
    is at most the key, the search inside that block finds nothing, and
    [get] returns [undefined]. *)
Theorem get_absent_key_in_range (r : SSTableReader.t) (k : string) :
  index_ordered (SSTableReader.index r) = true ->
  footer_agrees r = true ->
  js_le (minKey (SSTableReader.footer r)) k = true ->
  js_le k (maxKey (SSTableReader.footer r)) = true ->
  (forall b e, In b (SSTableReader.index r) -> In e (data b) -> key e <> k) ->
  SSTableReader.get r k = Some VUndefined
  /\ exists i b,
       SSTableReader._findBlockIndex r k = Some (Z.of_nat i)
       /\ nth_error (SSTableReader.index r) i = Some b
       /\ js_le (startKey b) k = true
       /\ SSTableReader._binarySearchBlock (data b) k = Some None
       /\ forall j b', (i < j)%nat ->
                       nth_error (SSTableReader.index r) j = Some b' ->
                       js_lt k (startKey b') = true.
Proof.
  intros Hord Hfoot Hmin Hmax Habs.
  unfold footer_agrees in Hfoot.
  destruct (SSTableReader.index r) as [|b0 tl] eqn:Eidx; [discriminate|].
  apply String.eqb_eq in Hfoot.
  assert (Hb0 : js_le (startKey b0) k = true) by now rewrite <- Hfoot.
  destruct (findBlock_loop_last (b0 :: tl) k Hord
              (S (List.length (b0 :: tl))) 0
              (Z.of_nat (List.length (b0 :: tl)) - 1) (-1))
    as [i [Hfind [Hrange [Habove Hstart]]]]; try lia.
  { intros j b Hj Hb.
    assert (Hlen : (j < List.length (b0 :: tl))%nat)
      by (apply nth_error_Some; congruence).
    lia. }
  assert (Hi : 0 <= i).
  { destruct (Z_le_gt_dec 0 i) as [|Hneg]; [assumption|].
    assert (Hk : js_lt k (startKey b0) = true)
      by (apply (Habove 0%nat b0); [lia|reflexivity]).
    pose proof (js_le_lt_trans _ _ _ Hb0 Hk) as Hc.
    now rewrite js_lt_irrefl in Hc. }
  destruct (nth_error_in_bounds (b0 :: tl) i) as [b Hb]; [lia|].
  assert (Hnone : SSTableReader._binarySearchBlock (data b) k = Some None).
  { apply _binarySearchBlock_absent. intros e He.
    apply (Habs b e); [|assumption].
    eapply nth_error_In; eassumption. }
  assert (Hfind' : SSTableReader._findBlockIndex r k = Some i)
    by (unfold SSTableReader._findBlockIndex; now rewrite Eidx).
  split.
  - unfold SSTableReader.get.
    assert (E1 : js_lt k (minKey (SSTableReader.footer r)) = false).
    { destruct (js_lt k (minKey (SSTableReader.footer r))) eqn:E; [|reflexivity].
      pose proof (js_le_lt_trans _ _ _ Hmin E) as Hc.
      now rewrite js_lt_irrefl in Hc. }
    assert (E2 : js_gt k (maxKey (SSTableReader.footer r)) = false).
    { change (js_lt (maxKey (SSTableReader.footer r)) k = false).
      destruct (js_lt (maxKey (SSTableReader.footer r)) k) eqn:E; [|reflexivity].
      pose proof (js_le_lt_trans _ _ _ Hmax E) as Hc.
      now rewrite js_lt_irrefl in Hc. }
    rewrite E1, E2, Hfind'. simpl.
    destruct (i =? -1) eqn:Em; [apply Z.eqb_eq in Em; lia|].
    rewrite Eidx, Hb. unfold SSTableReader._loadBlock. now rewrite Hnone.
  - exists (Z.to_nat i), b. rewrite Z2Nat.id by assumption.
    repeat split; auto.
    intros j b' Hj Hb'. apply (Habove j); [lia|assumption].
Qed.

Lemma get_absent_key_in_range_witness :
  SSTableReader.get gap_reader "d" = Some VUndefined
  /\ exists i b,
       SSTableReader._findBlockIndex gap_reader "d" = Some (Z.of_nat i)
       /\ nth_error (SSTableReader.index gap_reader) i = Some b
       /\ js_le (startKey b) "d" = true
       /\ SSTableReader._binarySearchBlock (data b) "d" = Some None
       /\ forall j b', (i < j)%nat ->
                       nth_error (SSTableReader.index gap_reader) j = Some b' ->
                       js_lt "d" (startKey b') = true.
Proof.
  apply get_absent_key_in_range; try reflexivity.
  intros b e Hb He. vm_compute in Hb.
  repeat (destruct Hb as [<-|Hb]; [vm_compute in He; intuition (subst; discriminate)|]).
  destruct Hb.
Defined.




(* ===================================================================== *)
(** * Tables written from ascending streams                                *)
(* ===================================================================== *)

Section WrittenIndex.

Lemma index_ordered_snoc (blocks : list BlockInfo) (b : BlockInfo) :
  index_ordered blocks = true ->
  js_le (startKey b) (endKey b) = true ->
  (blocks <> [] -> js_lt (endKey (last blocks b)) (startKey b) = true) ->
  index_ordered (blocks ++ [b]) = true.
Proof.
  induction blocks as [|b0 tl IH]; intros Hord Hb Hlast.
  - simpl. now rewrite Hb.
  - simpl in Hord. apply andb_true_iff in Hord as [Hord Htl].
    apply andb_true_iff in Hord as [Hb0 Hnext].
    destruct tl as [|b1 tl].
    + simpl in *. rewrite Hb0, Hb, Hlast by discriminate. reflexivity.
    + change (index_ordered ((b0 :: b1 :: tl) ++ [b]))
        with (js_le (startKey b0) (endKey b0)
              && js_lt (endKey b0) (startKey b1)
              && index_ordered ((b1 :: tl) ++ [b])).
      rewrite Hb0, Hnext. simpl. apply IH; auto.
      intros _. apply Hlast. discriminate.
Qed.

Lemma last_key_cons (e e' : entry) (l : list entry) :
  last_key (e :: e' :: l) = last_key (e' :: l).
Proof. reflexivity. Qed.

Lemma ascending_tail (e : entry) (l : list entry) :
  keys_ascending (e :: l) = true -> keys_ascending l = true.
Proof.
  destruct l as [|e' l]; [reflexivity|]. simpl.
  intros H. now apply andb_true_iff in H as [_ H].
Qed.

Lemma ascending_head (e e' : entry) (l : list entry) :
  keys_ascending (e :: e' :: l) = true -> js_lt (key e) (key e') = true.
Proof. simpl. intros H. now apply andb_true_iff in H as [H _]. Qed.

Lemma ascending_first_le_last (l : list entry) :
  keys_ascending l = true -> js_le (first_key l) (last_key l) = true.
Proof.
  induction l as [|e l IH]; intros H; [reflexivity|].
  destruct l as [|e' l]; [apply js_le_refl|].
  rewrite last_key_cons. apply js_lt_le.
  apply js_lt_le_trans with (key e').
  - now apply ascending_head in H.
  - apply IH. now apply ascending_tail in H.
Qed.

Lemma last_key_snoc (l : list entry) (e : entry) : last_key (l ++ [e]) = key e.
Proof. unfold last_key. now rewrite last_last. Qed.

Lemma ascending_snoc (l : list entry) (e : entry) :
  keys_ascending l = true ->
  (l <> [] -> js_lt (last_key l) (key e) = true) ->
  keys_ascending (l ++ [e]) = true.
Proof.
  induction l as [|x l IH]; intros Hl Hlast; [reflexivity|].
  destruct l as [|y l].
  - simpl. rewrite andb_true_r. apply Hlast. discriminate.
  - change (keys_ascending ((x :: y :: l) ++ [e]))
      with (js_lt (key x) (key y) && keys_ascending ((y :: l) ++ [e])).
    rewrite (ascending_head _ _ _ Hl). simpl. apply IH.
    + now apply ascending_tail in Hl.
    + intros _. rewrite <- last_key_cons with (e := x). apply Hlast. discriminate.
Qed.

Lemma finalize_ordered (cur : list entry) :
  keys_ascending cur = true ->
  js_le (startKey (SSTableWriter._finalizeBlock cur))
        (endKey (SSTableWriter._finalizeBlock cur)) = true.
Proof. apply ascending_first_le_last. Qed.

Lemma last_snoc_end (blocks : list BlockInfo) (b b' : BlockInfo) :
  endKey (last (blocks ++ [b]) b') = endKey b.
Proof. now rewrite last_last. Qed.

(** The loop that cuts the blocks keeps the index in order. *)
Lemma build_loop_ordered (blockSize : nat) (entries : list entry) :
  forall blocks cur size,
    index_ordered blocks = true ->
    keys_ascending cur = true ->
    keys_ascending entries = true ->
    (cur <> [] -> entries <> [] ->
     js_lt (last_key cur) (first_key entries) = true) ->
    (forall b, blocks <> [] -> cur <> [] ->
               js_lt (endKey (last blocks b)) (first_key cur) = true) ->
    (forall b, blocks <> [] -> cur = [] -> entries <> [] ->
               js_lt (endKey (last blocks b)) (first_key entries) = true) ->
    index_ordered
      (SSTableWriter.build_loop blockSize entries blocks cur size) = true.
Proof.
  induction entries as [|e tl IH];
    intros blocks cur size Hblocks Hcur Hrest Hcr Hbc Hbr; simpl.
  - destruct cur as [|c cur]; [assumption|].
    apply index_ordered_snoc.
    + assumption.
    + now apply finalize_ordered.
    + intros Hne. apply Hbc; [assumption|discriminate].
  - assert (Htl : keys_ascending tl = true) by now apply ascending_tail in Hrest.
    assert (Hetl : tl <> [] -> js_lt (key e) (first_key tl) = true).
    { destruct tl as [|e' tl]; [congruence|]. intros _.
      now apply ascending_head in Hrest. }
    destruct ((blockSize <? size + SSTableWriter._estimateEntrySize e)%nat
              && (0 <? List.length cur)%nat) eqn:Ecut.
    + apply andb_true_iff in Ecut as [_ Hlen]. apply Nat.ltb_lt in Hlen.
      assert (Hne : cur <> []) by (destruct cur; [simpl in Hlen; lia|discriminate]).
      apply IH.
      * apply index_ordered_snoc.
        -- assumption.
        -- now apply finalize_ordered.
        -- intros Hb. now apply Hbc.
      * reflexivity.
      * assumption.
      * intros _. exact Hetl.
      * intros b _ _. rewrite last_snoc_end. simpl.
        apply Hcr; [assumption|discriminate].
      * intros b _ Habs. discriminate.
    + apply IH.
      * assumption.
      * apply ascending_snoc; [assumption|].
        intros Hne. apply Hcr; [assumption|discriminate].
      * assumption.
      * intros _ Hne. rewrite last_key_snoc. now apply Hetl.
      * intros b Hb _. destruct cur as [|c cur].
        -- simpl. apply Hbr; [assumption|reflexivity|discriminate].
        -- simpl. apply (Hbc b); [assumption|discriminate].
      * intros b _ Habs. now destruct cur.
Qed.

Lemma build_loop_first (blockSize : nat) (entries : list entry) :
  forall blocks cur size,
    first_start (SSTableWriter.build_loop blockSize entries blocks cur size)
    = match blocks with
      | [] => first_key (cur ++ entries)
      | b :: _ => startKey b
      end
    /\ (cur ++ entries <> [] ->
        SSTableWriter.build_loop blockSize entries blocks cur size <> []).
Proof.
  induction entries as [|e tl IH]; intros blocks cur size; simpl.
  - rewrite app_nil_r. destruct cur as [|c cur].
    + split; [now destruct blocks|congruence].
    + split; [now destruct blocks|]. intros _. now destruct blocks.
  - destruct ((blockSize <? size + SSTableWriter._estimateEntrySize e)%nat
              && (0 <? List.length cur)%nat) eqn:Ecut.
    + apply andb_true_iff in Ecut as [_ Hlen]. apply Nat.ltb_lt in Hlen.
      destruct cur as [|c cur]; [simpl in Hlen; lia|].
      destruct (IH (blocks ++ [SSTableWriter._finalizeBlock (c :: cur)]) [e]
                   (SSTableWriter._estimateEntrySize e)) as [IH1 IH2].
      split.
      * rewrite IH1. now destruct blocks.
      * intros _. apply IH2. discriminate.
    + destruct (IH blocks (cur ++ [e])
                   (size + SSTableWriter._estimateEntrySize e)%nat) as [IH1 IH2].
      split.
      * rewrite IH1. now rewrite <- app_assoc.
      * intros _. apply IH2. now destruct cur.
Qed.

Lemma ascending_convert (entries : list entry) :
  keys_ascending (map SSTableWriter.convert entries) = keys_ascending entries.
Proof.
  induction entries as [|e l IH]; [reflexivity|].
  destruct l as [|e' l]; [reflexivity|].
  change (js_lt (key e) (key e')
          && keys_ascending (map SSTableWriter.convert (e' :: l))
          = js_lt (key e) (key e') && keys_ascending (e' :: l)).
  now rewrite IH.
Qed.

(** A table written from a non-empty, strictly ascending stream has its
    index in order and a footer that agrees with it: the reader opened on
    the file meets the conditions of [get_absent_key_in_range]. *)
Theorem written_table_is_ordered
        (blockSize : nat) (path : string) (entries : list entry) (d : disk) :
  entries <> [] ->
  keys_ascending entries = true ->
  exists f d' r,
    SSTableWriter.write blockSize path entries d = (Returned f, d')
    /\ SSTableReader.new path d' = Returned r
    /\ index_ordered (SSTableReader.index r) = true
    /\ footer_agrees r = true.
Proof.
  intros Hne Hasc.
  destruct entries as [|e tl]; [congruence|].
  eexists _, _, (SSTableReader.mk path _
                   (SSTableWriter._buildDataBlocks blockSize
                      (map SSTableWriter.convert (e :: tl)))).
  split; [reflexivity|].
  split; [unfold SSTableReader.new; now rewrite disk_lookup_write|].
  unfold SSTableWriter._buildDataBlocks. split.
  - apply build_loop_ordered; try reflexivity; try congruence.
    now rewrite ascending_convert.
  - unfold footer_agrees. cbn [SSTableReader.index SSTableReader.footer].
    destruct (build_loop_first blockSize (map SSTableWriter.convert (e :: tl))
                               [] [] 0%nat) as [Hfirst Hnonempty].
    destruct (SSTableWriter.build_loop blockSize
                (map SSTableWriter.convert (e :: tl)) [] [] 0) as [|b idx] eqn:E.
    + exfalso. apply Hnonempty; [discriminate|reflexivity].
    + cbn [first_start] in Hfirst. rewrite Hfirst. simpl. apply String.eqb_refl.
Qed.

Lemma written_table_is_ordered_witness :
  exists f d' r,
    SSTableWriter.write 16 "level1_0.sst"
      [mkEntry "a" (VJson (JNum 1)); mkEntry "c" (VSymbol TOMBSTONE)] []
    = (Returned f, d')
    /\ SSTableReader.new "level1_0.sst" d' = Returned r
    /\ index_ordered (SSTableReader.index r) = true
    /\ footer_agrees r = true.
Proof.
  apply written_table_is_ordered; [discriminate|reflexivity].
Defined.

End WrittenIndex.

(* ===================================================================== *)
(** * Arithmetic of the counter                                            *)
(* ===================================================================== *)

Section Numbers.

Local Open Scope N_scope.

Lemma safe_bound_pow : safe_bound = 2 ^ 53.
Proof. reflexivity. Qed.

Lemma size_small (n : N) : n < safe_bound -> N.size n <= 53.
Proof.
  intros H. rewrite safe_bound_pow in H.
  destruct (N.le_gt_cases (N.size n) 53) as [Hle|Hgt]; [exact Hle|].
  exfalso.
  assert (H54 : 2 ^ 54 <= 2 ^ N.size n)
    by (apply N.pow_le_mono_r; lia).
  pose proof (N.size_le n) as Hs.
  rewrite N.succ_double_spec in Hs.
  change (2 ^ 54) with (2 * 2 ^ 53) in H54. lia.
Qed.

Lemma size_large (n : N) : safe_bound <= n -> 53 < N.size n.
Proof.
  intros H. rewrite safe_bound_pow in H.
  destruct (N.le_gt_cases (N.size n) 53) as [Hle|Hgt]; [|exact Hgt].
  exfalso. pose proof (N.size_gt n) as Hs.
  assert (H53 : 2 ^ N.size n <= 2 ^ 53) by (apply N.pow_le_mono_r; lia).
  lia.
Qed.

(** Below 2^53 nothing is rounded. *)
Lemma round_double_small (n : N) : n < safe_bound -> round_double n = n.
Proof.
  intros H. unfold round_double.
  apply size_small in H. apply N.leb_le in H. now rewrite H.
Qed.

Lemma infinity_large : safe_bound <= infinity.
Proof.
  unfold infinity. rewrite safe_bound_pow. apply N.pow_le_mono_r; lia.
Qed.

(** From 2^53 on the rounded value stays at 2^53 or above. *)
Lemma round_double_large (n : N) :
  safe_bound <= n -> safe_bound <= round_double n.
Proof.
  intros H. unfold round_double.
  pose proof (size_large n H) as Hsize.
  destruct (N.size n <=? 53) eqn:E; [apply N.leb_le in E; lia|].
  set (e := N.size n - 53).
  set (q := N.shiftr n e).
  assert (Hq : 2 ^ 52 <= q).
  { unfold q. rewrite N.shiftr_div_pow2.
    pose proof (N.size_le n) as Hs. rewrite N.succ_double_spec in Hs.
    assert (Hsplit : N.size n = N.succ (e + 52)) by (unfold e; lia).
    rewrite Hsplit, N.pow_succ_r' in Hs.
    assert (Hn : 2 ^ (e + 52) <= n) by lia.
    rewrite N.pow_add_r in Hn.
    apply N.div_le_lower_bound; [apply N.pow_nonzero; lia|exact Hn]. }
  match goal with
  | |- _ <= N.min _ (N.shiftl ?q' e) =>
      assert (Hq' : q <= q') by
        (destruct (_ <? _); [lia|destruct (_ <? _); [lia|destruct (N.even q); lia]]);
      generalize dependent q'
  end.
  intros q' Hq'. apply N.min_glb; [apply infinity_large|].
  rewrite N.shiftl_mul_pow2, safe_bound_pow.
  assert (He : 2 ^ 1 <= 2 ^ e) by (apply N.pow_le_mono_r; unfold e; lia).
  change (2 ^ 53) with (2 ^ 52 * 2 ^ 1).
  apply N.mul_le_mono; lia.
Qed.

(** A counter that is below 2^53 after [c++] was raised by one. *)
Lemma increment_safe (c : N) :
  increment c < safe_bound -> increment c = c + 1.
Proof.
  unfold increment. intros H.
  destruct (N.lt_ge_cases (c + 1) safe_bound) as [Hlt|Hge].
  - now apply round_double_small.
  - apply round_double_large in Hge. lia.
Qed.

(** [c++] raises a counter below 2^53 by one. *)
Lemma increment_exact (c : N) : c < safe_bound -> increment c = c + 1.
Proof.
  intros H. unfold increment.
  destruct (N.lt_ge_cases (c + 1) safe_bound) as [Hlt|Hge].
  - now apply round_double_small.
  - assert (Hc : c + 1 = safe_bound) by lia. rewrite Hc. reflexivity.
Qed.

Lemma digits_value_decimal (n : N) : digits_value (decimal n) = n.
Proof.
  unfold digits_value, decimal.
  rewrite NilEmpty.usu. apply DecimalN.Unsigned.of_to.
Qed.

Lemma parseInt_safe (digits : string) :
  digits_value digits < safe_bound -> parseInt digits = digits_value digits.
Proof. apply round_double_small. Qed.

Lemma parseInt_decimal (n : N) : n < safe_bound -> parseInt (decimal n) = n.
Proof.
  intros H. unfold parseInt. rewrite digits_value_decimal.
  now apply round_double_small.
Qed.

Lemma Number_toString_safe (n : N) :
  n < safe_bound -> Number_toString n = decimal n.
Proof.
  intros H. unfold Number_toString. apply N.ltb_lt in H. now rewrite H.
Qed.

End Numbers.

(* ===================================================================== *)
(** * Names of table files                                                 *)
(* ===================================================================== *)

Section FileNames.

Lemma digits_of_uint (u : Decimal.uint) (rest : string) :
  take_digits (NilEmpty.string_of_uint u ++ rest)%string
  = ((NilEmpty.string_of_uint u ++ fst (take_digits rest))%string,
     snd (take_digits rest)).
Proof.
  induction u; simpl; try rewrite IHu; try reflexivity.
  now destruct (take_digits rest).
Qed.

Lemma decimal_not_empty (n : N) : decimal n <> "".
Proof.
  unfold decimal. destruct n as [|p]; [discriminate|].
  simpl. pose proof (DecimalPos.Unsigned.to_uint_nonnil p) as H.
  destruct (Pos.to_uint p); try discriminate. congruence.
Qed.

Lemma append_assoc (a b c : string) :
  ((a ++ b) ++ c)%string = (a ++ (b ++ c))%string.
Proof. induction a as [|x a IH]; simpl; [reflexivity|now rewrite IH]. Qed.

Lemma length_append (a b : string) :
  String.length (a ++ b)%string = (String.length a + String.length b)%nat.
Proof. induction a as [|x a IH]; simpl; [reflexivity|now rewrite IH]. Qed.

Lemma substring_all (b : string) : substring 0 (String.length b) b = b.
Proof. induction b as [|x b IH]; simpl; [reflexivity|now rewrite IH]. Qed.

Lemma substring_suffix (a b : string) :
  substring (String.length a) (String.length b) (a ++ b)%string = b.
Proof. induction a as [|x a IH]; simpl; [apply substring_all|exact IH]. Qed.

Lemma endsWith_append (a b : string) : endsWith (a ++ b)%string b = true.
Proof.
  unfold endsWith. rewrite length_append.
  replace (String.length a + String.length b - String.length b)%nat
    with (String.length a) by lia.
  rewrite substring_suffix, String.eqb_refl.
  apply andb_true_iff. split; [apply Nat.leb_le; lia|reflexivity].
Qed.

Lemma eqb_empty_false (s : string) : s <> "" -> String.eqb s "" = false.
Proof. intros H. now apply String.eqb_neq. Qed.

(** The name the engine gives a table is recognised on recovery, with
    the level and the sequence number it was made from, when the sequence
    number is below 2^53. *)
Lemma regex_match_table_name (level : nat) (seq : N) :
  (seq < safe_bound)%N ->
  endsWith (table_name level seq) ".sst" = true
  /\ regex_match (table_name level seq)
     = Some (decimal (N.of_nat level), decimal seq).
Proof.
  intros Hsafe. split.
  - unfold table_name.
    rewrite <- !append_assoc. apply endsWith_append.
  - unfold table_name. rewrite (Number_toString_safe seq Hsafe). simpl.
    unfold regex_match, match_here. simpl.
    unfold decimal at 1. rewrite digits_of_uint. simpl.
    fold (decimal (N.of_nat level)).
    assert (E : forall s : string, (s ++ "")%string = s)
      by (induction s as [|x s IH]; simpl; [reflexivity|now rewrite IH]).
    rewrite E, (eqb_empty_false _ (decimal_not_empty _)).
    unfold decimal at 1. rewrite digits_of_uint. simpl.
    fold (decimal seq).
    now rewrite E, (eqb_empty_false _ (decimal_not_empty _)).
Qed.

End FileNames.

(* ===================================================================== *)
(** * Properties of the engine: recovery                                   *)
(* ===================================================================== *)

Section Recovery.

Import LSMTree.

Lemma replay_entries_counter (l : jsmap) :
  forall s s' r,
    for_each replay_entry l s = (r, s') ->
    sstableCounter s' = sstableCounter s.
Proof.
  induction l as [|kv l IH]; intros s s' r H; simpl in H.
  - now inversion H.
  - unfold bind in H.
    destruct (replay_entry kv s) as [[[]|m] s1] eqn:E1.
    + apply IH in H. rewrite H. clear H.
      unfold replay_entry, bind, on_memtable, ret in E1.
      destruct (snd kv);
        match type of E1 with
        | context [?c (memtable s)] => destruct (c (memtable s)) as [[?|?] ?]
        end; now inversion E1.
    + inversion H; subst. clear H.
      unfold replay_entry, bind, on_memtable, ret in E1.
      destruct (snd kv);
        match type of E1 with
        | context [?c (memtable s)] => destruct (c (memtable s)) as [[?|?] ?]
        end; now inversion E1.
Qed.

Lemma readdirSync_write (name n : string) (f : file) (d : disk) :
  In name (readdirSync d) -> In name (readdirSync (disk_write n f d)).
Proof.
  unfold readdirSync.
  induction d as [|[n' f'] d IH]; simpl; [tauto|].
  destruct (String.eqb n' n) eqn:E; simpl.
  - apply String.eqb_eq in E. subst. tauto.
  - intros [H|H]; [now left|right; auto].
Qed.

Lemma readdirSync_new_log (name : string) (d : disk) :
  In name (readdirSync d) -> In name (readdirSync (WriteAheadLog.new d)).
Proof.
  unfold WriteAheadLog.new.
  destruct (disk_lookup WriteAheadLog.logPath d); [tauto|].
  apply readdirSync_write.
Qed.

End Recovery.

(* ===================================================================== *)
(** * Properties of the engine: compaction                                 *)
(* ===================================================================== *)

(** C9: compaction of a level that is the deepest one, or beyond it,
    returns at once; the levels, the MemTable, the counter and the
    directory are those of before. *)
Theorem compact_deepest_level_is_noop
        (localeCompare : string -> string -> Z) (s : LSMTree.t) (level : nat) :
  Z.of_nat level >= Z.of_nat (LSMTree.maxLevels s) - 1 ->
  LSMTree._compactLevel localeCompare level s = (Returned tt, s).
Proof.
  intros H. unfold LSMTree._compactLevel, bind, get_state.
  destruct (Z.of_nat (LSMTree.maxLevels s) - 1 <=? Z.of_nat level) eqn:E.
  - reflexivity.
  - apply Z.leb_gt in E. lia.
Qed.

Lemma compact_deepest_level_is_noop_witness :
  LSMTree._compactLevel (fun _ _ => 0) 1
    (snd (LSMTree.new sample_directory two_levels))
  = (Returned tt, snd (LSMTree.new sample_directory two_levels)).
Proof.
  apply compact_deepest_level_is_noop. vm_compute. discriminate.
Defined.

(* ===================================================================== *)
(** * Properties of the engine: tombstones                                 *)
(* ===================================================================== *)

Section Tombstones.

Import LSMTree.

Variable localeCompare : string -> string -> Z.

(** C1 on the code: the MemTable holds the tombstone of memtable.js, which
    the writer does not recognise as its own tombstone; the flushed table
    holds the key without a value, the read of it is [undefined], and
    [get] goes on to the older table and returns the deleted value.
    After the compaction into the deepest level the table still holds
    the key. *)
Theorem flushed_tombstone_does_not_shadow :
  let s3 := deleted_after_flush localeCompare in
  let s4 := snd (_flushMemtable localeCompare s3) in
  let s5 := snd (_compactLevel localeCompare 0 s4) in
  MemTable.get "k" (memtable s3) = VSymbol MemTable_TOMBSTONE
  /\ get s3 "k" = Some VUndefined
  /\ fst (_flushMemtable localeCompare s3) = Returned tt
  /\ map SSTableReader.iterate (level_tables s4 0)
     = [[mkEntry "k" sample_value]; [mkEntry "k" VUndefined]]
  /\ get s4 "k" = Some sample_value
  /\ fst (_compactLevel localeCompare 0 s4) = Returned tt
  /\ map SSTableReader.iterate (level_tables s5 1)
     = [[mkEntry "k" VUndefined]]
  /\ get s5 "k" = Some VUndefined.
Proof. vm_compute. repeat split. Qed.

(** C2 on the code: the replay of [SET k; DELETE k] removes the key from
    the recovered map, and the MemTable built from the map has no entry
    for it. With an older table holding the key, the engine that
    answered [undefined] before the restart answers the old value after
    it. *)
Theorem replayed_delete_leaves_no_tombstone :
  let log := [LogRecord "SET" "k" sample_value;
              LogRecord "DELETE" "k" VUndefined] in
  let opened := LSMTree.new [("wal.log", LogFile log)] no_options in
  let reopened :=
    LSMTree.new (dataDir (deleted_after_flush localeCompare)) two_levels in
  fst opened = Returned tt
  /\ WriteAheadLog.replay log = []
  /\ MemTable.get "k" (memtable (snd opened)) = VUndefined
  /\ MemTable.entries (memtable (snd opened)) = []
  /\ disk_lookup "wal.log" (dataDir (deleted_after_flush localeCompare))
     = Some (LogFile [LogRecord "DELETE" "k" VUndefined])
  /\ get (deleted_after_flush localeCompare) "k" = Some VUndefined
  /\ fst reopened = Returned tt
  /\ MemTable.get "k" (memtable (snd reopened)) = VUndefined
  /\ get (snd reopened) "k" = Some sample_value.
Proof. vm_compute. repeat split. Qed.

(** C3 on the code: on an engine whose MemTable is flushed by every
    write, [delete(k)] leaves a table of level 0 that holds the key without
    a value; the key is deleted and has never had a value, and [range]
    returns an entry for it, with the value [undefined]. *)
Theorem range_returns_deleted_key :
  let every_write_flushes := mkOptions (Some 1) None None None in
  let s0 := snd (LSMTree.new [] every_write_flushes) in
  let s1 := snd (delete localeCompare "k" s0) in
  fst (delete localeCompare "k" s0) = Returned true
  /\ MemTable.entries (memtable s1) = []
  /\ map SSTableReader.iterate (level_tables s1 0)
     = [[mkEntry "k" VUndefined]]
  /\ get s1 "k" = Some VUndefined
  /\ range localeCompare s1 "a" "z" = Some [mkEntry "k" VUndefined].
Proof. vm_compute. repeat split. Qed.

End Tombstones.

(* ===================================================================== *)
(** * Properties of the engine: the order of level 0                      *)
(* ===================================================================== *)

(** C4 on the code: recovery keeps the order of the listing. The table of
    sequence number 10 comes first in the list of level 0, before the table
    of sequence number 2; [get] asks the tables from the end of the list
    and returns the value of the table of sequence number 2. *)
Theorem recovered_level0_keeps_listing_order :
  let opened := LSMTree.new two_flushes LSMTree.no_options in
  readdirSync two_flushes = ["level0_10.sst"; "level0_2.sst"]
  /\ fst opened = Returned tt
  /\ map SSTableReader.filePath (LSMTree.level_tables (snd opened) 0)
     = ["level0_10.sst"; "level0_2.sst"]
  /\ LSMTree.sstableCounter (snd opened) = 11%N
  /\ LSMTree.get (snd opened) "k" = Some (VJson (JStr "old")).
Proof. vm_compute. repeat split. Qed.

(* ===================================================================== *)
(** * Properties of the skip list                                          *)
(* ===================================================================== *)

Section SkipListFacts.

Lemma ascending_all_greater (e : entry) (l : list entry) :
  keys_ascending (e :: l) = true ->
  Forall (fun x => js_lt (key e) (key x) = true) l.
Proof.
  revert e. induction l as [|y l IH]; intros e H; constructor.
  - now apply ascending_head in H.
  - pose proof (ascending_head _ _ _ H) as Hey.
    apply ascending_tail in H. specialize (IH y H).
    eapply Forall_impl; [|exact IH].
    intros x Hx. now apply js_lt_trans with (key y).
Qed.

Lemma ascending_cons (e : entry) (l : list entry) :
  keys_ascending l = true ->
  (forall x, l = x :: tl l -> js_lt (key e) (key x) = true) ->
  keys_ascending (e :: l) = true.
Proof.
  intros Hl Hhead. destruct l as [|x l]; [reflexivity|].
  change (js_lt (key e) (key x) && keys_ascending (x :: l) = true).
  now rewrite Hl, (Hhead x eq_refl).
Qed.

Lemma js_lt_asym (a b : string) : js_lt a b = true -> js_lt b a = false.
Proof.
  intros H. destruct (js_lt b a) eqn:E; [|reflexivity].
  pose proof (js_lt_trans _ _ _ H E) as Hc. now rewrite js_lt_irrefl in Hc.
Qed.

Lemma js_lt_total (a b : string) :
  js_lt a b = false -> String.eqb a b = false -> js_lt b a = true.
Proof.
  intros Hlt Hne. apply js_lt_false in Hlt.
  apply js_le_cases in Hlt as [Heq|Hlt]; [|assumption].
  subst. now rewrite String.eqb_refl in Hne.
Qed.

(** The head of the chain after [set]: the new key or the old head. *)
Lemma set_head (k : string) (v : value) (l : SkipList.t) :
  forall x, SkipList.set k v l = x :: tl (SkipList.set k v l) ->
            key x = k \/ (exists tl', l = x :: tl' /\ js_lt (key x) k = true).
Proof.
  intros x. destruct l as [|e l]; simpl.
  - intros H. inversion H. now left.
  - destruct (js_lt (key e) k) eqn:E1; simpl.
    + intros H. inversion H; subst. right. eauto.
    + destruct (String.eqb (key e) k); simpl; intros H; inversion H; now left.
Qed.

Lemma set_ascending (k : string) (v : value) (l : SkipList.t) :
  keys_ascending l = true -> keys_ascending (SkipList.set k v l) = true.
Proof.
  induction l as [|e l IH]; intros H; [reflexivity|].
  simpl. destruct (js_lt (key e) k) eqn:E1.
  - apply ascending_cons; [apply IH; now apply ascending_tail in H|].
    intros x Hx. apply set_head in Hx as [Hx|[tl' [Hl Hx]]].
    + now rewrite Hx.
    + subst l. now apply ascending_head in H.
  - destruct (String.eqb (key e) k) eqn:E2.
    + apply String.eqb_eq in E2. destruct l as [|y l]; [reflexivity|].
      change (js_lt k (key y) && keys_ascending (y :: l) = true).
      rewrite <- E2, (ascending_head _ _ _ H).
      now apply ascending_tail in H.
    + change (js_lt k (key e) && keys_ascending (e :: l) = true).
      now rewrite (js_lt_total _ _ E1 E2), H.
Qed.

Lemma delete_head (k : string) (l : SkipList.t) :
  keys_ascending l = true ->
  forall x, snd (SkipList.delete k l) = x :: tl (snd (SkipList.delete k l)) ->
            forall e tl', l = e :: tl' -> js_le (key e) (key x) = true.
Proof.
  intros Hasc x Hx e tl' ->. simpl in Hx.
  destruct (js_lt (key e) k).
  - destruct (SkipList.delete k tl') as [r t']. simpl in Hx.
    inversion Hx. apply js_le_refl.
  - destruct (String.eqb (key e) k); simpl in Hx.
    + apply js_lt_le. destruct tl' as [|y tl']; [discriminate|].
      inversion Hx; subst. now apply ascending_head in Hasc.
    + inversion Hx. apply js_le_refl.
Qed.

Lemma delete_ascending (k : string) (l : SkipList.t) :
  keys_ascending l = true ->
  keys_ascending (snd (SkipList.delete k l)) = true.
Proof.
  induction l as [|e l IH]; intros H; [reflexivity|].
  simpl. destruct (js_lt (key e) k) eqn:E1.
  - destruct l as [|y l]; [reflexivity|].
    pose proof (delete_head k (y :: l) (ascending_tail _ _ H)) as Hhead.
    specialize (IH (ascending_tail _ _ H)).
    destruct (SkipList.delete k (y :: l)) as [r t']. simpl in Hhead, IH.
    cbn [snd]. apply ascending_cons; [assumption|].
    intros x Hx. apply js_lt_le_trans with (key y).
    + now apply ascending_head in H.
    + now apply (Hhead x Hx y l).
  - destruct (String.eqb (key e) k); simpl; [|assumption].
    now apply ascending_tail in H.
Qed.

End SkipListFacts.

(** X1: [set] and [delete] keep the chain of the skip list strictly
    ascending by key. *)
Theorem skiplist_stays_ascending (k : string) (v : value) (l : SkipList.t) :
  keys_ascending (SkipList.iterate l) = true ->
  keys_ascending (SkipList.iterate (SkipList.set k v l)) = true
  /\ keys_ascending (SkipList.iterate (snd (SkipList.delete k l))) = true.
Proof.
  intros H. split; [now apply set_ascending|now apply delete_ascending].
Qed.

Lemma skiplist_stays_ascending_witness :
  keys_ascending (SkipList.iterate (SkipList.set "c" VUndefined sample_chain))
  = true
  /\ keys_ascending
       (SkipList.iterate (snd (SkipList.delete "c" sample_chain))) = true.
Proof. apply skiplist_stays_ascending. reflexivity. Defined.

Section SkipListLookup.

Lemma eqb_sym_false (a b : string) :
  String.eqb a b = false -> String.eqb b a = false.
Proof. now rewrite String.eqb_sym. Qed.

Lemma js_lt_eqb (a b : string) : js_lt a b = true -> String.eqb a b = false.
Proof. intros H. apply String.eqb_neq. now apply js_lt_neq. Qed.

Lemma get_set_any (k k' : string) (v : value) (l : SkipList.t) :
  SkipList.get k' (SkipList.set k v l)
  = if String.eqb k' k then v else SkipList.get k' l.
Proof.
  induction l as [|e l IH]; simpl.
  - destruct (String.eqb k' k) eqn:E.
    + apply String.eqb_eq in E. subst.
      now rewrite js_lt_irrefl, String.eqb_refl.
    + rewrite (eqb_sym_false _ _ E). now destruct (js_lt k k').
  - destruct (js_lt (key e) k) eqn:E1; simpl.
    + destruct (js_lt (key e) k') eqn:E2; [exact IH|].
      destruct (String.eqb k' k) eqn:E; [|reflexivity].
      apply String.eqb_eq in E. subst. congruence.
    + destruct (String.eqb (key e) k) eqn:E2; simpl.
      * apply String.eqb_eq in E2. rewrite E2.
        destruct (String.eqb k' k) eqn:E.
        -- apply String.eqb_eq in E. subst k'.
           now rewrite js_lt_irrefl, String.eqb_refl.
        -- rewrite (eqb_sym_false _ _ E). reflexivity.
      * destruct (String.eqb k' k) eqn:E.
        -- apply String.eqb_eq in E. subst k'.
           now rewrite js_lt_irrefl, String.eqb_refl.
        -- rewrite (eqb_sym_false _ _ E).
           destruct (js_lt k k') eqn:E3; [reflexivity|].
           assert (Hk : js_lt k' k = true)
             by (apply js_lt_total; [assumption|now apply eqb_sym_false]).
           destruct (js_lt (key e) k') eqn:E4.
           ++ pose proof (js_lt_trans _ _ _ E4 Hk). congruence.
           ++ destruct (String.eqb (key e) k') eqn:E5; [|reflexivity].
              apply String.eqb_eq in E5. subst k'. congruence.
Qed.

(** A key below the head of an ascending chain is not in the chain. *)
Lemma get_below_head (k : string) (l : SkipList.t) :
  (forall x tl', l = x :: tl' -> js_lt k (key x) = true) ->
  SkipList.get k l = VUndefined.
Proof.
  destruct l as [|x l]; [reflexivity|]. intros H.
  specialize (H x l eq_refl). simpl.
  rewrite (js_lt_asym _ _ H).
  now rewrite (eqb_sym_false _ _ (js_lt_eqb _ _ H)).
Qed.

Lemma get_delete_ascending (k k' : string) (l : SkipList.t) :
  keys_ascending l = true ->
  SkipList.get k' (snd (SkipList.delete k l))
  = if String.eqb k' k then VUndefined else SkipList.get k' l.
Proof.
  induction l as [|e l IH]; intros Hasc; simpl.
  - now destruct (String.eqb k' k).
  - specialize (IH (ascending_tail _ _ Hasc)).
    destruct (js_lt (key e) k) eqn:E1.
    + destruct (SkipList.delete k l) as [r t']. simpl in *.
      destruct (js_lt (key e) k') eqn:E2; [exact IH|].
      destruct (String.eqb k' k) eqn:E; [|reflexivity].
      apply String.eqb_eq in E. subst. congruence.
    + destruct (String.eqb (key e) k) eqn:E2; simpl.
      * apply String.eqb_eq in E2.
        assert (Hgt : forall k0, js_le k0 k = true -> forall x tl',
                   l = x :: tl' -> js_lt k0 (key x) = true).
        { intros k0 Hk0 x tl' ->. apply js_le_lt_trans with k; [assumption|].
          rewrite <- E2. now apply ascending_head in Hasc. }
        destruct (String.eqb k' k) eqn:E.
        -- apply String.eqb_eq in E. subst k'.
           apply get_below_head, Hgt, js_le_refl.
        -- rewrite E2, (eqb_sym_false _ _ E).
           destruct (js_lt k k') eqn:E3; [reflexivity|].
           apply get_below_head, Hgt. now apply js_lt_false.
      * destruct (String.eqb k' k) eqn:E; [|reflexivity].
        apply String.eqb_eq in E. subst k'. now rewrite E1, E2.
Qed.

Lemma delete_reports_presence (k : string) (l : SkipList.t) :
  keys_ascending l = true ->
  fst (SkipList.delete k l) = existsb (String.eqb k) (SkipList.keys l).
Proof.
  unfold SkipList.keys, SkipList.iterate.
  induction l as [|e l IH]; intros Hasc; [reflexivity|]. simpl.
  specialize (IH (ascending_tail _ _ Hasc)).
  destruct (js_lt (key e) k) eqn:E1.
  - destruct (SkipList.delete k l) as [r t']. simpl in *.
    now rewrite (eqb_sym_false _ _ (js_lt_eqb _ _ E1)).
  - destruct (String.eqb (key e) k) eqn:E2; simpl.
    + now rewrite String.eqb_sym, E2.
    + rewrite String.eqb_sym, E2. simpl. symmetry.
      apply not_true_iff_false. intros Hex.
      apply existsb_exists in Hex as [x [Hin Hx]].
      apply String.eqb_eq in Hx. subst x.
      apply in_map_iff in Hin as [y [Hy Hin]].
      pose proof (ascending_all_greater _ _ Hasc) as Hall.
      rewrite Forall_forall in Hall. specialize (Hall y Hin).
      rewrite Hy in Hall.
      pose proof (js_lt_total _ _ E1 E2) as Hke.
      pose proof (js_lt_trans _ _ _ Hke Hall) as Hc.
      now rewrite js_lt_irrefl in Hc.
Qed.

Lemma delete_size (k : string) (l : SkipList.t) :
  (SkipList.size (snd (SkipList.delete k l))
   + (if fst (SkipList.delete k l) then 1 else 0)
   = SkipList.size l)%nat.
Proof.
  unfold SkipList.size.
  induction l as [|e l IH]; [reflexivity|]. simpl.
  destruct (js_lt (key e) k).
  - destruct (SkipList.delete k l) as [r t']. simpl in *. lia.
  - destruct (String.eqb (key e) k); simpl; lia.
Qed.

Lemma set_size (k : string) (v : value) (l : SkipList.t) :
  keys_ascending l = true ->
  SkipList.size (SkipList.set k v l)
  = if existsb (String.eqb k) (SkipList.keys l)
    then SkipList.size l else S (SkipList.size l).
Proof.
  unfold SkipList.size, SkipList.keys, SkipList.iterate.
  induction l as [|e l IH]; intros Hasc; [reflexivity|]. simpl.
  specialize (IH (ascending_tail _ _ Hasc)).
  destruct (js_lt (key e) k) eqn:E1; simpl.
  - rewrite (eqb_sym_false _ _ (js_lt_eqb _ _ E1)). simpl.
    rewrite IH. now destruct (existsb _ _).
  - destruct (String.eqb (key e) k) eqn:E2; simpl.
    + now rewrite String.eqb_sym, E2.
    + rewrite String.eqb_sym, E2. simpl.
      pose proof (delete_reports_presence k (e :: l) Hasc) as Hd.
      unfold SkipList.keys, SkipList.iterate in Hd. simpl in Hd.
      rewrite E1, E2, String.eqb_sym, E2 in Hd. simpl in Hd.
      now rewrite <- Hd.
Qed.

Lemma collect_filter (hi : string) (l : SkipList.t) :
  keys_ascending l = true ->
  SkipList.collect hi l = filter (fun e => js_le (key e) hi) l.
Proof.
  induction l as [|e l IH]; intros Hasc; [reflexivity|]. simpl.
  destruct (js_le (key e) hi) eqn:E.
  - now rewrite IH by now apply ascending_tail in Hasc.
  - symmetry. apply js_le_false in E.
    pose proof (ascending_all_greater _ _ Hasc) as Hall.
    clear IH Hasc. induction Hall as [|x l Hx Hall IH2]; [reflexivity|].
    simpl. rewrite IH2.
    destruct (js_le (key x) hi) eqn:E2; [|reflexivity].
    pose proof (js_lt_trans _ _ _ E Hx) as H1.
    pose proof (js_lt_le_trans _ _ _ H1 E2) as Hc.
    now rewrite js_lt_irrefl in Hc.
Qed.

Lemma range_filter (lo hi : string) (l : SkipList.t) :
  keys_ascending l = true ->
  SkipList.range lo hi l
  = filter (fun e => js_le lo (key e) && js_le (key e) hi) l.
Proof.
  induction l as [|e l IH]; intros Hasc; [reflexivity|].
  cbn [SkipList.range]. destruct (js_lt (key e) lo) eqn:E.
  - cbn [filter].
    assert (E' : js_le lo (key e) = false).
    { destruct (js_le lo (key e)) eqn:E2; [|reflexivity].
      pose proof (js_le_lt_trans _ _ _ E2 E) as Hc.
      now rewrite js_lt_irrefl in Hc. }
    rewrite E'. simpl. apply IH. now apply ascending_tail in Hasc.
  - rewrite collect_filter by assumption.
    apply filter_ext_in. intros x Hin.
    assert (Hlo : js_le lo (key x) = true); [|now rewrite Hlo].
    apply js_lt_false in E. destruct Hin as [<-|Hin]; [assumption|].
    pose proof (ascending_all_greater _ _ Hasc) as Hall.
    rewrite Forall_forall in Hall.
    apply js_lt_le, js_le_lt_trans with (key e); auto.
Qed.

End SkipListLookup.

(** X2: after [set(k, v)] the skip list answers [v] for [k] and what it
    answered before for every other key. *)
Theorem skiplist_get_after_set (k k' : string) (v : value) (l : SkipList.t) :
  SkipList.get k' (SkipList.set k v l)
  = if String.eqb k' k then v else SkipList.get k' l.
Proof. apply get_set_any. Qed.

(** X3: on an ascending chain [delete(k)] reports whether the key was
    there, lowers the size by one when it was, and leaves a skip list that
    answers [undefined] for [k] and what it answered before for every other
    key. *)
Theorem skiplist_delete_removes_key (k : string) (l : SkipList.t) :
  keys_ascending (SkipList.iterate l) = true ->
  fst (SkipList.delete k l) = existsb (String.eqb k) (SkipList.keys l)
  /\ (SkipList.size (snd (SkipList.delete k l))
      + (if fst (SkipList.delete k l) then 1 else 0) = SkipList.size l)%nat
  /\ forall k',
       SkipList.get k' (snd (SkipList.delete k l))
       = if String.eqb k' k then VUndefined else SkipList.get k' l.
Proof.
  intros H. split; [now apply delete_reports_presence|].
  split; [apply delete_size|]. intros k'. now apply get_delete_ascending.
Qed.

Lemma skiplist_delete_removes_key_witness :
  fst (SkipList.delete "b" sample_chain)
  = existsb (String.eqb "b") (SkipList.keys sample_chain)
  /\ (SkipList.size (snd (SkipList.delete "b" sample_chain))
      + (if fst (SkipList.delete "b" sample_chain) then 1 else 0)
      = SkipList.size sample_chain)%nat
  /\ forall k',
       SkipList.get k' (snd (SkipList.delete "b" sample_chain))
       = if String.eqb k' "b" then VUndefined
         else SkipList.get k' sample_chain.
Proof. apply skiplist_delete_removes_key. reflexivity. Defined.

(** X4: on an ascending chain [set] of a key that is present keeps the
    size, and [set] of a new key raises it by one. *)
Theorem skiplist_size_counts_keys (k : string) (v : value) (l : SkipList.t) :
  keys_ascending (SkipList.iterate l) = true ->
  SkipList.size (SkipList.set k v l)
  = if existsb (String.eqb k) (SkipList.keys l)
    then SkipList.size l else S (SkipList.size l).
Proof. apply set_size. Qed.

Lemma skiplist_size_counts_keys_witness :
  SkipList.size (SkipList.set "c" VUndefined sample_chain)
  = if existsb (String.eqb "c") (SkipList.keys sample_chain)
    then SkipList.size sample_chain else S (SkipList.size sample_chain).
Proof. apply skiplist_size_counts_keys. reflexivity. Defined.

(** X5: on an ascending chain [range(startKey, endKey)] returns, in the
    order of the chain, exactly the entries whose key lies between the two
    bounds, both included. *)
Theorem skiplist_range_is_filter (lo hi : string) (l : SkipList.t) :
  keys_ascending (SkipList.iterate l) = true ->
  SkipList.range lo hi l
  = filter (fun e => js_le lo (key e) && js_le (key e) hi)
           (SkipList.iterate l).
Proof. apply range_filter. Qed.

Lemma skiplist_range_is_filter_witness :
  SkipList.range "b" "c" sample_chain
  = filter (fun e => js_le "b" (key e) && js_le (key e) "c")
           (SkipList.iterate sample_chain).
Proof. apply skiplist_range_is_filter. reflexivity. Defined.

(* ===================================================================== *)
(** * Properties of the MemTable                                           *)
(* ===================================================================== *)

Section MemTableFacts.

Lemma estimate_undefined (k : string) (a : Z) :
  MemTable._estimateSize k VUndefined <> Returned a.
Proof. discriminate. Qed.

Lemma set_estimated_total (k : string) (v : value) (sz : Z) (l : SkipList.t) :
  MemTable._estimateSize k v = Returned sz ->
  forall T, estimated_total l = Some T ->
  exists old,
    (if is_undefined (SkipList.get k l) then old = 0
     else MemTable._estimateSize k (SkipList.get k l) = Returned old)
    /\ estimated_total (SkipList.set k v l) = Some (T - old + sz).
Proof.
  intros Hsz. induction l as [|e l IH]; intros T HT; simpl in *.
  - inversion HT; subst. exists 0. rewrite Hsz. split; [reflexivity|].
    f_equal. lia.
  - destruct (MemTable._estimateSize (key e) (evalue e)) as [a|] eqn:Ea;
      [|discriminate].
    destruct (estimated_total l) as [b|] eqn:Eb; [|discriminate].
    inversion HT; subst T. clear HT.
    destruct (js_lt (key e) k) eqn:E1.
    + destruct (IH b eq_refl) as [old [Hold Htot]]. exists old.
      split; [assumption|]. simpl. rewrite Ea, Htot. f_equal. lia.
    + destruct (String.eqb (key e) k) eqn:E2.
      * apply String.eqb_eq in E2. exists a. split.
        -- rewrite <- E2.
           destruct (evalue e); simpl in *; try discriminate; assumption.
        -- simpl. rewrite Hsz, Eb. f_equal. lia.
      * exists 0. split; [reflexivity|].
        simpl. rewrite Hsz, Ea, Eb. f_equal. lia.
Qed.

Lemma set_accounted (k : string) (v : value) (m : MemTable.t) :
  accounted m -> accounted (snd (MemTable.set k v m)).
Proof.
  unfold accounted, MemTable.set. intros Hm.
  destruct (MemTable._estimateSize k v) as [sz|] eqn:Esz; [|exact Hm].
  destruct (set_estimated_total k v sz _ Esz _ Hm) as [old [Hold Htot]].
  destruct (is_undefined (SkipList.get k (MemTable.skipList m))).
  - subst old. simpl. rewrite Htot. f_equal. lia.
  - rewrite Hold. simpl. rewrite Htot. f_equal.
Qed.

Lemma set_throws_unchanged (k : string) (v : value) (m m' : MemTable.t)
      (msg : string) :
  MemTable.set k v m = (Thrown msg, m') -> m' = m.
Proof.
  unfold MemTable.set.
  destruct (MemTable._estimateSize k v); [|now inversion 1].
  destruct (is_undefined (SkipList.get k (MemTable.skipList m))).
  - inversion 1.
  - destruct (MemTable._estimateSize k
                (SkipList.get k (MemTable.skipList m))); now inversion 1.
Qed.

End MemTableFacts.

(** X6: whatever calls of [set] and [delete] a new MemTable receives,
    those that throw included, its [currentSizeBytes] is the sum of the
    size estimates of the entries it holds: an overwritten entry no longer
    counts. *)
Theorem memtable_size_is_accounted
        (maxSizeBytes : Z) (calls : list memtable_call) :
  accounted (fold_left after_call calls (MemTable.new maxSizeBytes)).
Proof.
  assert (H : accounted (MemTable.new maxSizeBytes)) by reflexivity.
  revert H. generalize (MemTable.new maxSizeBytes).
  induction calls as [|c calls IH]; intros m Hm; [exact Hm|].
  simpl. apply IH. destruct c; simpl; now apply set_accounted.
Qed.

(** X7: [set] throws for a value that is [undefined] or the symbol
    [Symbol.for('TOMBSTONE')], for which [JSON.stringify] has no text, and
    it then leaves the MemTable as it was; so does every call of [set] on
    that MemTable that throws. *)
Theorem memtable_set_throws (k : string) (v : value) (m : MemTable.t) :
  v = VUndefined \/ v = VSymbol TOMBSTONE ->
  (exists msg, MemTable.set k v m = (Thrown msg, m))
  /\ forall k' v' msg m', MemTable.set k' v' m = (Thrown msg, m') -> m' = m.
Proof.
  intros Hv. split.
  - destruct Hv as [-> | ->]; eexists; reflexivity.
  - intros k' v' msg m'. apply set_throws_unchanged.
Qed.

Lemma memtable_set_throws_witness :
  (exists msg, MemTable.set "k" (VSymbol TOMBSTONE) (MemTable.new 10)
               = (Thrown msg, MemTable.new 10))
  /\ forall k' v' msg m',
       MemTable.set k' v' (MemTable.new 10) = (Thrown msg, m') ->
       m' = MemTable.new 10.
Proof. apply memtable_set_throws. now right. Defined.

(* ===================================================================== *)
(** * Properties of the log and of the durable store                       *)
(* ===================================================================== *)

Section LogFacts.

(** A record appended to a log that a newline ends is replayed after the
    records of before. *)
Lemma recover_append (line : wal_line) (d : disk) :
  log_terminated d = true ->
  WriteAheadLog.recover (WriteAheadLog._appendEntry line d)
  = WriteAheadLog.replay_line (WriteAheadLog.recover d) line.
Proof.
  unfold log_terminated, WriteAheadLog.recover, WriteAheadLog._appendEntry.
  destruct (disk_lookup WriteAheadLog.logPath d) as [[ls|tb|ls t]|];
    try discriminate; intros _;
    rewrite disk_lookup_write; unfold WriteAheadLog.replay;
    [now rewrite fold_left_app|reflexivity].
Qed.



Lemma recover_new (d : disk) :
  WriteAheadLog.recover (WriteAheadLog.new d) = WriteAheadLog.recover d.
Proof.
  unfold WriteAheadLog.new, WriteAheadLog.recover.
  destruct (disk_lookup WriteAheadLog.logPath d) as [f|] eqn:E.
  - now rewrite E.
  - now rewrite disk_lookup_write.
Qed.



Lemma parsed_back_idem (m : jsmap) : parsed_back (parsed_back m) = parsed_back m.
Proof.
  unfold parsed_back. rewrite map_map. apply map_ext.
  intros [k v]. simpl. now destruct v.
Qed.





Lemma map_get_set (k k' : string) (v : value) (m : jsmap) :
  map_get k' (map_set k v m)
  = if String.eqb k' k then v else map_get k' m.
Proof.
  induction m as [|[k0 v0] m IH]; simpl.
  - rewrite (String.eqb_sym k k'). reflexivity.
  - destruct (String.eqb k0 k) eqn:E; simpl.
    + apply String.eqb_eq in E. subst k0.
      rewrite (String.eqb_sym k k'). now destruct (String.eqb k' k).
    + destruct (String.eqb k0 k') eqn:E2; [|exact IH].
      apply String.eqb_eq in E2. subst k0. now rewrite E.
Qed.

Lemma map_set_keys (k : string) (v : value) (m : jsmap) :
  forall x, In x (map fst (map_set k v m)) <-> x = k \/ In x (map fst m).
Proof.
  intros x. induction m as [|[k0 v0] m IH]; simpl.
  - intuition.
  - destruct (String.eqb k0 k) eqn:E; simpl.
    + apply String.eqb_eq in E. subst. intuition.
    + rewrite IH. intuition.
Qed.

Lemma map_delete_keys (k : string) (m : jsmap) :
  forall x, In x (map fst (map_delete k m)) -> In x (map fst m).
Proof.
  intros x. induction m as [|[k0 v0] m IH]; simpl; [tauto|].
  destruct (String.eqb k0 k); simpl; tauto.
Qed.

Lemma map_set_nodup (k : string) (v : value) (m : jsmap) :
  NoDup (map fst m) -> NoDup (map fst (map_set k v m)).
Proof.
  induction m as [|[k0 v0] m IH]; simpl; intros H.
  - constructor; [tauto|constructor].
  - inversion H as [|? ? Hnin Hnd]; subst.
    destruct (String.eqb k0 k) eqn:E; simpl.
    + apply String.eqb_eq in E. subst. now constructor.
    + constructor; [|auto]. rewrite map_set_keys. intros [->|Hin]; [|tauto].
      now rewrite String.eqb_refl in E.
Qed.

Lemma map_delete_nodup (k : string) (m : jsmap) :
  NoDup (map fst m) -> NoDup (map fst (map_delete k m)).
Proof.
  induction m as [|[k0 v0] m IH]; simpl; intros H; [constructor|].
  inversion H as [|? ? Hnin Hnd]; subst.
  destruct (String.eqb k0 k); simpl; [assumption|].
  constructor; [|auto]. intros Hin. now apply map_delete_keys in Hin.
Qed.

Lemma map_has_in (k : string) (m : jsmap) :
  map_has k m = true <-> In k (map fst m).
Proof.
  induction m as [|[k0 v0] m IH]; simpl; [intuition discriminate|].
  destruct (String.eqb k0 k) eqn:E.
  - apply String.eqb_eq in E. intuition.
  - rewrite IH. apply String.eqb_neq in E. intuition.
Qed.

Lemma map_has_delete (k k' : string) (m : jsmap) :
  NoDup (map fst m) ->
  map_has k' (map_delete k m)
  = if String.eqb k' k then false else map_has k' m.
Proof.
  induction m as [|[k0 v0] m IH]; simpl; intros H.
  - now destruct (String.eqb k' k).
  - inversion H as [|? ? Hnin Hnd]; subst.
    destruct (String.eqb k0 k) eqn:E; simpl.
    + apply String.eqb_eq in E. subst k0.
      destruct (String.eqb k' k) eqn:E2.
      * apply String.eqb_eq in E2. subst k'.
        apply not_true_iff_false. now rewrite map_has_in.
      * now rewrite (eqb_sym_false _ _ E2).
    + rewrite (IH Hnd). destruct (String.eqb k' k) eqn:E2; [|reflexivity].
      apply String.eqb_eq in E2. subst k'. now rewrite E.
Qed.

Lemma replay_nodup (lines : list wal_line) :
  forall store, NoDup (map fst store) ->
  NoDup (map fst (fold_left WriteAheadLog.replay_line lines store)).
Proof.
  induction lines as [|line lines IH]; intros store H; [exact H|].
  simpl. apply IH. destruct line as [|op k v]; [exact H|]. simpl.
  destruct (String.eqb op "SET"); [now apply map_set_nodup|].
  destruct (String.eqb op "DELETE"); [now apply map_delete_nodup|exact H].
Qed.

Lemma map_has_set (k k' : string) (v : value) (m : jsmap) :
  map_has k' (map_set k v m) = String.eqb k' k || map_has k' m.
Proof.
  induction m as [|[k0 v0] m IH]; simpl.
  - rewrite (String.eqb_sym k k'). now destruct (String.eqb k' k).
  - destruct (String.eqb k0 k) eqn:E; simpl.
    + apply String.eqb_eq in E. subst k0.
      rewrite (String.eqb_sym k k'). now destruct (String.eqb k' k).
    + rewrite IH. destruct (String.eqb k0 k') eqn:E2;
        [now rewrite orb_true_r|reflexivity].
Qed.

Lemma map_get_delete_other (k k' : string) (m : jsmap) :
  k' <> k -> map_get k' (map_delete k m) = map_get k' m.
Proof.
  intros Hne. induction m as [|[k0 v0] m IH]; simpl; [reflexivity|].
  destruct (String.eqb k0 k) eqn:E; simpl.
  - apply String.eqb_eq in E. subst k0.
    destruct (String.eqb k k') eqn:E2; [|reflexivity].
    apply String.eqb_eq in E2. congruence.
  - destruct (String.eqb k0 k'); [reflexivity|exact IH].
Qed.

Lemma map_has_delete_other (k k' : string) (m : jsmap) :
  k' <> k -> map_has k' (map_delete k m) = map_has k' m.
Proof.
  intros Hne. induction m as [|[k0 v0] m IH]; simpl; [reflexivity|].
  destruct (String.eqb k0 k) eqn:E; simpl.
  - apply String.eqb_eq in E. subst k0.
    destruct (String.eqb k k') eqn:E2; [|reflexivity].
    apply String.eqb_eq in E2. congruence.
  - destruct (String.eqb k0 k'); [reflexivity|exact IH].
Qed.

(** Lines that neither set nor delete a key leave what the map holds for
    it. *)
Lemma replay_unmentioned (k : string) (lines : list wal_line) :
  forallb (fun line => negb (mentions k line)) lines = true ->
  forall store,
    map_has k (fold_left WriteAheadLog.replay_line lines store)
    = map_has k store
    /\ map_get k (fold_left WriteAheadLog.replay_line lines store)
       = map_get k store.
Proof.
  induction lines as [|line lines IH]; intros Hall store; [now split|].
  simpl in Hall. apply andb_true_iff in Hall as [Hline Hall].
  simpl. destruct (IH Hall (WriteAheadLog.replay_line store line)) as [H1 H2].
  rewrite H1, H2. clear IH H1 H2.
  destruct line as [|op k' v']; [now split|].
  simpl in *. destruct (String.eqb op "SET") eqn:Eset.
  - simpl in Hline. apply negb_true_iff in Hline.
    rewrite map_has_set, map_get_set, (String.eqb_sym k k'), Hline.
    now split.
  - destruct (String.eqb op "DELETE") eqn:Edel; [|now split].
    simpl in Hline. apply negb_true_iff, String.eqb_neq in Hline.
    rewrite map_has_delete_other, map_get_delete_other by congruence.
    now split.
Qed.

End LogFacts.



(** X9: the last record of a key decides what [recover] returns for it,
    whatever records of other keys and corrupt lines follow that record:
    after a last SET the key is in the map with the value of that record,
    after a last DELETE the key is not in the map, and a key that no record
    of the log sets or deletes is not in the map either. *)
Theorem replay_last_record_wins
        (before after : list wal_line) (k : string) (v : value) :
  forallb (fun line => negb (mentions k line)) after = true ->
  map_has k (WriteAheadLog.replay (before ++ LogRecord "SET" k v :: after))
  = true
  /\ map_get k (WriteAheadLog.replay (before ++ LogRecord "SET" k v :: after))
     = v
  /\ map_has k
       (WriteAheadLog.replay (before ++ LogRecord "DELETE" k v :: after))
     = false
  /\ map_has k (WriteAheadLog.replay after) = false.
Proof.
  intros Hafter.
  unfold WriteAheadLog.replay.
  rewrite !fold_left_app. cbn [fold_left].
  assert (Hnd : NoDup (map fst (fold_left WriteAheadLog.replay_line before [])))
    by (apply replay_nodup; constructor).
  destruct (replay_unmentioned k after Hafter
              (WriteAheadLog.replay_line
                 (fold_left WriteAheadLog.replay_line before [])
                 (LogRecord "SET" k v))) as [Hhas Hget].
  destruct (replay_unmentioned k after Hafter
              (WriteAheadLog.replay_line
                 (fold_left WriteAheadLog.replay_line before [])
                 (LogRecord "DELETE" k v))) as [Hhas' _].
  destruct (replay_unmentioned k after Hafter []) as [Hhas0 _].
  rewrite Hhas, Hget, Hhas', Hhas0. cbn [WriteAheadLog.replay_line String.eqb].
  simpl. rewrite map_has_set, map_get_set, String.eqb_refl.
  rewrite map_has_delete by exact Hnd.
  now rewrite String.eqb_refl.
Qed.

Lemma replay_last_record_wins_witness :
  map_has "k"
    (WriteAheadLog.replay
       ([LogRecord "SET" "k" (VJson (JNum 1))]
        ++ LogRecord "SET" "k" (VJson (JNum 2))
           :: [Corrupt; LogRecord "SET" "j" (VJson (JNum 3))]))
  = true
  /\ map_get "k"
       (WriteAheadLog.replay
          ([LogRecord "SET" "k" (VJson (JNum 1))]
           ++ LogRecord "SET" "k" (VJson (JNum 2))
              :: [Corrupt; LogRecord "SET" "j" (VJson (JNum 3))]))
     = VJson (JNum 2)
  /\ map_has "k"
       (WriteAheadLog.replay
          ([LogRecord "SET" "k" (VJson (JNum 1))]
           ++ LogRecord "DELETE" "k" (VJson (JNum 2))
              :: [Corrupt; LogRecord "SET" "j" (VJson (JNum 3))]))
     = false
  /\ map_has "k"
       (WriteAheadLog.replay [Corrupt; LogRecord "SET" "j" (VJson (JNum 3))])
     = false.
Proof. apply replay_last_record_wins. reflexivity. Defined.



(* ===================================================================== *)
(** * Properties of the blocks of a table                                  *)
(* ===================================================================== *)

Section WriterBlocks.

Lemma estimate_stored (e : entry) :
  SSTableWriter._estimateEntrySize (stored e)
  = SSTableWriter._estimateEntrySize e.
Proof.
  unfold SSTableWriter._estimateEntrySize, entry_stringify_length, stored.
  simpl. now destruct (evalue e).
Qed.

Lemma list_sum_stored (l : list entry) :
  list_sum (map SSTableWriter._estimateEntrySize (map stored l))
  = list_sum (map SSTableWriter._estimateEntrySize l).
Proof.
  induction l as [|e l IH]; simpl; [reflexivity|].
  now rewrite estimate_stored, IH.
Qed.

Lemma finalize_within (blockSize : nat) (cur : list entry) :
  cur <> [] ->
  (List.length cur = 1 \/
   list_sum (map SSTableWriter._estimateEntrySize cur) <= blockSize)%nat ->
  block_within blockSize (SSTableWriter._finalizeBlock cur) = true.
Proof.
  intros Hne Hsz. unfold block_within, SSTableWriter._finalizeBlock.
  cbn [data]. fold stored. change (map (fun e => stored e) cur) with (map stored cur).
  rewrite length_map, list_sum_stored.
  apply andb_true_iff. split.
  - destruct cur; [congruence|reflexivity].
  - apply orb_true_iff. destruct Hsz as [H|H].
    + left. now apply Nat.eqb_eq.
    + right. now apply Nat.leb_le.
Qed.

Lemma forallb_snoc {A} (f : A -> bool) (l : list A) (a : A) :
  forallb f l = true -> f a = true -> forallb f (l ++ [a]) = true.
Proof.
  intros Hl Ha. rewrite forallb_app, Hl. simpl. now rewrite Ha.
Qed.

Lemma build_loop_within (blockSize : nat) (entries : list entry) :
  forall blocks cur size,
    forallb (block_within blockSize) blocks = true ->
    size = list_sum (map SSTableWriter._estimateEntrySize cur) ->
    (cur = [] \/ List.length cur = 1 \/ size <= blockSize)%nat ->
    forallb (block_within blockSize)
            (SSTableWriter.build_loop blockSize entries blocks cur size) = true.
Proof.
  induction entries as [|e tl IH]; intros blocks cur size Hb Hsize Hcur; simpl.
  - destruct cur as [|c cur]; [assumption|].
    apply forallb_snoc; [assumption|].
    apply finalize_within; [discriminate|].
    destruct Hcur as [H|[H|H]]; [discriminate|now left|right; lia].
  - destruct ((blockSize <? size + SSTableWriter._estimateEntrySize e)%nat
              && (0 <? List.length cur)%nat) eqn:Ecut.
    + apply andb_true_iff in Ecut as [_ Hlen]. apply Nat.ltb_lt in Hlen.
      apply IH.
      * apply forallb_snoc; [assumption|].
        apply finalize_within; [now destruct cur; [simpl in Hlen; lia|]|].
        destruct Hcur as [H|[H|H]];
          [subst; simpl in Hlen; lia|now left|right; lia].
      * simpl. lia.
      * right. now left.
    + apply IH.
      * assumption.
      * rewrite map_app, list_sum_app. simpl. lia.
      * apply andb_false_iff in Ecut as [Hfit|Hempty].
        -- apply Nat.ltb_ge in Hfit. right. right. lia.
        -- apply Nat.ltb_ge in Hempty.
           destruct cur; [right; now left|simpl in Hempty; lia].
Qed.

Lemma keys_stored (l : list entry) : map key (map stored l) = map key l.
Proof. rewrite map_map. now apply map_ext. Qed.

Lemma ascending_by_keys (l l' : list entry) :
  map key l = map key l' -> keys_ascending l = keys_ascending l'.
Proof.
  revert l'. induction l as [|e l IH]; intros [|e' l'] H; try discriminate;
    [reflexivity|].
  inversion H as [[Hk Hl]].
  destruct l as [|x l], l' as [|x' l']; try discriminate; [reflexivity|].
  change (js_lt (key e) (key x) && keys_ascending (x :: l)
          = js_lt (key e') (key x') && keys_ascending (x' :: l')).
  inversion Hl as [[Hx Hl']]. rewrite Hk, Hx. f_equal. now apply IH.
Qed.

Lemma first_key_by_keys (l l' : list entry) :
  map key l = map key l' -> first_key l = first_key l'.
Proof. destruct l, l'; simpl; congruence. Qed.

Lemma last_key_by_keys (l l' : list entry) :
  map key l = map key l' -> last_key l = last_key l'.
Proof.
  unfold last_key. revert l'.
  induction l as [|e l IH]; intros [|e' l'] H; try discriminate;
    [reflexivity|].
  inversion H as [[Hk Hl]].
  destruct l as [|x l], l' as [|x' l']; try discriminate; [assumption|].
  now apply (IH (x' :: l')).
Qed.

Lemma finalize_wf (cur : list entry) :
  cur <> [] -> keys_ascending cur = true ->
  block_wf (SSTableWriter._finalizeBlock cur) = true.
Proof.
  intros Hne Hasc. unfold block_wf, SSTableWriter._finalizeBlock. cbn [data startKey endKey].
  change (map (fun e => mkEntry (key e) (JSON_roundtrip (evalue e))) cur)
    with (map stored cur).
  rewrite length_map, (ascending_by_keys _ cur (keys_stored cur)), Hasc.
  rewrite (first_key_by_keys _ cur (keys_stored cur)).
  rewrite (last_key_by_keys _ cur (keys_stored cur)).
  rewrite !String.eqb_refl.
  destruct cur; [congruence|reflexivity].
Qed.

Lemma build_loop_blocks_wf (blockSize : nat) (entries : list entry) :
  forall blocks cur size,
    forallb block_wf blocks = true ->
    keys_ascending cur = true ->
    keys_ascending entries = true ->
    (cur <> [] -> entries <> [] ->
     js_lt (last_key cur) (first_key entries) = true) ->
    forallb block_wf
            (SSTableWriter.build_loop blockSize entries blocks cur size) = true.
Proof.
  induction entries as [|e tl IH]; intros blocks cur size Hb Hcur Hrest Hcr;
    simpl.
  - destruct cur as [|c cur]; [assumption|].
    apply forallb_snoc; [assumption|]. now apply finalize_wf.
  - assert (Htl : keys_ascending tl = true) by now apply ascending_tail in Hrest.
    assert (Hetl : tl <> [] -> js_lt (key e) (first_key tl) = true).
    { destruct tl as [|e' tl]; [congruence|]. intros _.
      now apply ascending_head in Hrest. }
    destruct ((blockSize <? size + SSTableWriter._estimateEntrySize e)%nat
              && (0 <? List.length cur)%nat) eqn:Ecut.
    + apply andb_true_iff in Ecut as [_ Hlen]. apply Nat.ltb_lt in Hlen.
      apply IH.
      * apply forallb_snoc; [assumption|].
        apply finalize_wf; [|assumption].
        destruct cur; [simpl in Hlen; lia|discriminate].
      * reflexivity.
      * assumption.
      * intros _. exact Hetl.
    + apply IH.
      * assumption.
      * apply ascending_snoc; [assumption|].
        intros Hne. apply Hcr; [assumption|discriminate].
      * assumption.
      * intros _ Hne. rewrite last_key_snoc. now apply Hetl.
Qed.

Lemma last_app_cons {A} (l l' : list A) (x d : A) :
  last (l ++ x :: l') d = last (x :: l') d.
Proof.
  induction l as [|a l IH]; [reflexivity|].
  simpl app. rewrite <- IH. simpl.
  destruct (l ++ x :: l') eqn:E; [now destruct l|reflexivity].
Qed.

(** The end key of the last block is the last key of the stream. *)
Lemma build_loop_last (blockSize : nat) (entries : list entry) :
  forall blocks cur size dflt,
    cur ++ entries <> [] ->
    endKey (last (SSTableWriter.build_loop blockSize entries blocks cur size)
                 dflt)
    = last_key (cur ++ entries).
Proof.
  induction entries as [|e tl IH]; intros blocks cur size dflt Hne; simpl.
  - rewrite app_nil_r in *. destruct cur as [|c cur]; [congruence|].
    now rewrite last_last.
  - destruct ((blockSize <? size + SSTableWriter._estimateEntrySize e)%nat
              && (0 <? List.length cur)%nat).
    + rewrite IH by discriminate.
      unfold last_key. simpl app. now rewrite last_app_cons.
    + rewrite IH by (now destruct cur). now rewrite <- app_assoc.
Qed.

End WriterBlocks.

(* ===================================================================== *)
(** * Properties of the table reader: lookups                              *)
(* ===================================================================== *)

Section ReaderLookup.

Lemma ascending_pairwise (l : list entry) (i j : nat) (a b : entry) :
  keys_ascending l = true -> (i < j)%nat ->
  nth_error l i = Some a -> nth_error l j = Some b ->
  js_lt (key a) (key b) = true.
Proof.
  revert i j. induction l as [|x l IH]; intros i j Hasc Hij Hi Hj.
  - now destruct i.
  - destruct j as [|j]; [lia|]. simpl in Hj.
    destruct i as [|i]; simpl in Hi.
    + inversion Hi; subst.
      pose proof (ascending_all_greater _ _ Hasc) as Hall.
      rewrite Forall_forall in Hall. apply Hall.
      eapply nth_error_In; eassumption.
    + apply (IH i j); auto; [now apply ascending_tail in Hasc|lia].
Qed.


Lemma nth_error_last {A} (l : list A) (d : A) :
  l <> [] -> nth_error l (List.length l - 1) = Some (last l d).
Proof.
  induction l as [|a l IH]; [congruence|]. intros _.
  destruct l as [|b l]; [reflexivity|].
  change (last (a :: b :: l) d) with (last (b :: l) d).
  rewrite <- IH by discriminate. simpl. now rewrite Nat.sub_0_r.
Qed.

Lemma ascending_bounds (l : list entry) (e : entry) :
  keys_ascending l = true -> In e l ->
  js_le (first_key l) (key e) = true /\ js_le (key e) (last_key l) = true.
Proof.
  intros Hasc Hin. pose proof Hin as Hin'.
  apply In_nth_error in Hin as [i Hi].
  assert (Hne : l <> []) by (intros ->; destruct Hin').
  split.
  - destruct l as [|x l]; [congruence|]. simpl.
    destruct i as [|i]; simpl in Hi.
    + inversion Hi. apply js_le_refl.
    + apply js_lt_le. apply (ascending_pairwise (x :: l) 0 (S i)); auto. lia.
  - pose proof (nth_error_last l (mkEntry "" VUndefined) Hne) as Hlast.
    fold (last_key l). unfold last_key.
    assert (Hlen : (i < List.length l)%nat)
      by (apply nth_error_Some; congruence).
    destruct (Nat.eq_dec i (List.length l - 1)) as [->|Hneq].
    + rewrite Hlast in Hi. inversion Hi. apply js_le_refl.
    + apply js_lt_le.
      apply (ascending_pairwise l i (List.length l - 1)); auto. lia.
Qed.



Lemma block_wf_parts (b : BlockInfo) :
  block_wf b = true ->
  data b <> [] /\ keys_ascending (data b) = true
  /\ startKey b = first_key (data b) /\ endKey b = last_key (data b).
Proof.
  unfold block_wf. intros H.
  apply andb_true_iff in H as [H Hend]. apply andb_true_iff in H as [H Hstart].
  apply andb_true_iff in H as [Hlen Hasc].
  apply String.eqb_eq in Hend, Hstart. apply Nat.ltb_lt in Hlen.
  repeat split; auto. intros E. rewrite E in Hlen. simpl in Hlen. lia.
Qed.

Lemma block_wf_bounds (b : BlockInfo) (e : entry) :
  block_wf b = true -> In e (data b) ->
  js_le (startKey b) (key e) = true /\ js_le (key e) (endKey b) = true.
Proof.
  intros Hwf Hin. destruct (block_wf_parts b Hwf) as [_ [Hasc [-> ->]]].
  now apply ascending_bounds.
Qed.



(** A value that [get] returns is the value of an entry of the table. *)
Lemma get_sound (r : SSTableReader.t) (k : string) (v : value) :
  SSTableReader.get r k = Some v -> v <> VUndefined ->
  exists b e, In b (SSTableReader.index r) /\ In e (data b)
              /\ key e = k /\ v = SSTableReader.decode (evalue e).
Proof.
  unfold SSTableReader.get. intros H Hv.
  destruct (js_lt k (minKey (SSTableReader.footer r))
            || js_gt k (maxKey (SSTableReader.footer r)));
    [inversion H; congruence|].
  destruct (SSTableReader._findBlockIndex r k) as [i|]; [|discriminate].
  destruct (i =? -1); [inversion H; congruence|].
  destruct (nth_error (SSTableReader.index r) (Z.to_nat i)) as [b|] eqn:Eb;
    [|discriminate].
  unfold SSTableReader._binarySearchBlock in H.
  destruct (binarySearch_loop_sound (SSTableReader._loadBlock b) k
              (S (List.length (SSTableReader._loadBlock b))) 0
              (Z.of_nat (List.length (SSTableReader._loadBlock b)) - 1))
    as [res [Hres Hsound]]; try lia.
  rewrite Hres in H. destruct res as [e|]; [|inversion H; congruence].
  destruct (Hsound e eq_refl) as [Hin Hkey]. inversion H; subst v.
  exists b, e. repeat split; auto. eapply nth_error_In; eassumption.
Qed.

End ReaderLookup.

Section WrittenTables.

Lemma write_returns (blockSize : nat) (path : string) (entries : list entry)
      (d : disk) :
  entries <> [] ->
  let r := written_reader blockSize path entries in
  let d' := disk_write path
              (TableFile (mkTable (SSTableReader.index r)
                                  (SSTableReader.footer r))) d in
  SSTableWriter.write blockSize path entries d
  = (Returned (SSTableReader.footer r), d')
  /\ SSTableReader.new path d' = Returned r.
Proof.
  intros Hne. destruct entries as [|e tl]; [congruence|]. split.
  - reflexivity.
  - unfold SSTableReader.new. now rewrite disk_lookup_write.
Qed.

Lemma written_reader_wf (blockSize : nat) (path : string)
      (entries : list entry) :
  entries <> [] -> keys_ascending entries = true ->
  table_wf (written_reader blockSize path entries) = true.
Proof.
  intros Hne Hasc.
  assert (Hne' : map SSTableWriter.convert entries <> [])
    by (destruct entries; [congruence|discriminate]).
  assert (Hasc' : keys_ascending (map SSTableWriter.convert entries) = true)
    by now rewrite ascending_convert.
  unfold table_wf, footer_covers, footer_agrees, written_reader.
  cbn [SSTableReader.index SSTableReader.footer minKey maxKey].
  unfold SSTableWriter._buildDataBlocks.
  set (es := map SSTableWriter.convert entries) in *.
  rewrite build_loop_blocks_wf; try reflexivity; try congruence.
  rewrite build_loop_ordered; try reflexivity; try congruence.
  rewrite build_loop_last by assumption. simpl app.
  rewrite String.eqb_refl.
  destruct (build_loop_first blockSize es [] [] 0%nat) as [Hfirst Hnonempty].
  destruct (SSTableWriter.build_loop blockSize es [] [] 0) as [|b idx] eqn:E.
  - exfalso. now apply Hnonempty.
  - cbn [first_start] in Hfirst. rewrite Hfirst. simpl app.
    now rewrite String.eqb_refl.
Qed.



Lemma range_block_filter (lo hi : string) (b : BlockInfo) :
  SSTableReader.range_block lo hi b
  = filter (in_range lo hi) (map read_back (SSTableReader._loadBlock b)).
Proof.
  unfold SSTableReader.range_block.
  induction (SSTableReader._loadBlock b) as [|e l IH]; [reflexivity|].
  simpl. unfold in_range at 1. simpl.
  destruct (js_ge (key e) lo && js_le (key e) hi); simpl; now rewrite IH.
Qed.

Lemma filter_flat_map {A B} (p : B -> bool) (f : A -> list B) (l : list A) :
  filter p (flat_map f l) = flat_map (fun a => filter p (f a)) l.
Proof.
  induction l as [|a l IH]; [reflexivity|].
  simpl. now rewrite filter_app, IH.
Qed.

Lemma iterate_filter (r : SSTableReader.t) (lo hi : string) :
  filter (in_range lo hi) (SSTableReader.iterate r)
  = flat_map (SSTableReader.range_block lo hi) (SSTableReader.index r).
Proof.
  unfold SSTableReader.iterate. rewrite filter_flat_map.
  apply flat_map_ext. intros b. now rewrite range_block_filter.
Qed.

Lemma range_block_none (lo hi : string) (b : BlockInfo) :
  block_wf b = true ->
  js_lt hi (startKey b) = true \/ js_lt (endKey b) lo = true ->
  SSTableReader.range_block lo hi b = [].
Proof.
  intros Hwf Hout. unfold SSTableReader.range_block.
  replace (filter _ (SSTableReader._loadBlock b)) with (@nil entry);
    [reflexivity|].
  symmetry. unfold SSTableReader._loadBlock.
  assert (Hall : forall e, In e (data b) ->
                           js_ge (key e) lo && js_le (key e) hi = false).
  { intros e He. destruct (block_wf_bounds b e Hwf He) as [Hs He'].
    apply andb_false_iff. destruct Hout as [H|H].
    - right. destruct (js_le (key e) hi) eqn:E; [|reflexivity].
      pose proof (js_lt_le_trans _ _ _ H Hs) as H1.
      pose proof (js_lt_le_trans _ _ _ H1 E) as Hc.
      now rewrite js_lt_irrefl in Hc.
    - left. unfold js_ge. fold (js_le lo (key e)).
      destruct (js_le lo (key e)) eqn:E; [|reflexivity].
      pose proof (js_le_lt_trans _ _ _ He' H) as H1.
      pose proof (js_lt_le_trans _ _ _ H1 E) as Hc.
      now rewrite js_lt_irrefl in Hc. }
  induction (data b) as [|e l IH]; [reflexivity|].
  simpl. rewrite (Hall e (or_introl eq_refl)). apply IH.
  intros x Hx. apply Hall. now right.
Qed.

(** The loop of [range] stops at a block that starts after the upper bound;
    that block and the blocks after it hold no entry of the range. *)
Lemma range_loop_all (lo hi : string) (blocks : list BlockInfo) :
  forallb block_wf blocks = true -> index_ordered blocks = true ->
  SSTableReader.range_loop lo hi blocks
  = flat_map (SSTableReader.range_block lo hi) blocks.
Proof.
  induction blocks as [|b tl IH]; intros Hwf Hord; [reflexivity|].
  simpl in Hwf. apply andb_true_iff in Hwf as [Hb Htl].
  assert (Hord' : index_ordered tl = true).
  { simpl in Hord. now apply andb_true_iff in Hord as [_ Hord]. }
  cbn [SSTableReader.range_loop flat_map].
  destruct (js_gt (startKey b) hi) eqn:E.
  - unfold js_gt in E. fold (js_lt hi (startKey b)) in E.
    rewrite range_block_none by auto. simpl. symmetry.
    assert (Hall : forall b', In b' tl ->
                     SSTableReader.range_block lo hi b' = []).
    { intros b' Hin. rewrite forallb_forall in Htl.
      apply range_block_none; [auto|]. left.
      apply In_nth_error in Hin as [j Hj].
      apply js_lt_trans with (startKey b); [assumption|].
      apply js_le_lt_trans with (endKey b).
      - now apply (index_ordered_block (b :: tl) 0 b).
      - now apply (index_ordered_head b tl j). }
    clear -Hall. induction tl as [|x tl IH]; [reflexivity|].
    simpl. rewrite (Hall x (or_introl eq_refl)). apply IH.
    intros b' H. apply Hall. now right.
  - now rewrite IH.
Qed.

Lemma flat_map_skipn {A B} (f : A -> list B) (n : nat) (l : list A) :
  (forall j a, (j < n)%nat -> nth_error l j = Some a -> f a = []) ->
  flat_map f l = flat_map f (skipn n l).
Proof.
  revert l. induction n as [|n IH]; intros l H; [reflexivity|].
  destruct l as [|a l]; [reflexivity|].
  simpl. rewrite (H 0%nat a) by (simpl; auto; lia). simpl.
  apply IH. intros j x Hj Hx. apply (H (S j)); [lia|assumption].
Qed.

Lemma forallb_skipn {A} (p : A -> bool) (n : nat) (l : list A) :
  forallb p l = true -> forallb p (skipn n l) = true.
Proof.
  revert l. induction n as [|n IH]; intros l H; [assumption|].
  destruct l as [|a l]; [reflexivity|].
  simpl in *. apply andb_true_iff in H as [_ H]. now apply IH.
Qed.

Lemma index_ordered_skipn (n : nat) (l : list BlockInfo) :
  index_ordered l = true -> index_ordered (skipn n l) = true.
Proof.
  revert l. induction n as [|n IH]; intros l H; [assumption|].
  destruct l as [|a l]; [reflexivity|].
  simpl in H. apply andb_true_iff in H as [_ H]. now apply IH.
Qed.

Lemma range_is_filter (r : SSTableReader.t) (lo hi : string) :
  forallb block_wf (SSTableReader.index r) = true ->
  index_ordered (SSTableReader.index r) = true ->
  SSTableReader.range r lo hi
  = Some (filter (in_range lo hi) (SSTableReader.iterate r)).
Proof.
  intros Hwf Hord. set (idx := SSTableReader.index r) in *.
  destruct (findBlock_loop_last idx lo Hord (S (List.length idx)) 0
              (Z.of_nat (List.length idx) - 1) (-1))
    as [i [Hfind [Hrange [_ Hstart]]]]; try lia.
  { intros j x Hj Hx.
    assert (j < List.length idx)%nat by (apply nth_error_Some; congruence).
    lia. }
  unfold SSTableReader.range, SSTableReader._findBlockIndex.
  fold idx. rewrite Hfind. f_equal.
  rewrite range_loop_all
    by (try apply forallb_skipn; try apply index_ordered_skipn; assumption).
  rewrite iterate_filter. fold idx. symmetry. apply flat_map_skipn.
  intros j b Hj Hb.
  destruct (i =? -1) eqn:Em; [simpl in Hj; lia|].
  apply Z.eqb_neq in Em.
  destruct (nth_error_in_bounds idx i) as [bi Hbi]; [lia|].
  rewrite forallb_forall in Hwf.
  apply range_block_none; [apply Hwf; eapply nth_error_In; eassumption|].
  right. apply js_lt_le_trans with (startKey bi).
  - apply (index_ordered_pairwise idx j (Z.to_nat i)); auto.
  - apply Hstart; [assumption|lia].
Qed.

End WrittenTables.

(** X11: [_buildDataBlocks] cuts the stream into blocks that hold, in
    order, exactly the entries of the stream; no block is empty, and the
    estimated sizes of the entries of a block add up to at most the block
    size unless the block holds a single entry. *)
Theorem blocks_hold_stream_within_size
        (blockSize : nat) (entries : list entry) :
  forallb (block_within blockSize)
          (SSTableWriter._buildDataBlocks blockSize entries) = true
  /\ flat_map data (SSTableWriter._buildDataBlocks blockSize entries)
     = map stored entries.
Proof.
  unfold SSTableWriter._buildDataBlocks. split.
  - apply build_loop_within; [reflexivity|reflexivity|now left].
  - now rewrite build_loop_data.
Qed.

(** X12: the table that [write] lays out for a non-empty, strictly
    ascending stream is in order: every block holds ascending keys between
    its start key and its end key, the end key of a block is below the start
    key of the next, and the footer carries the first and the last key of
    the stream, the number of entries and the number of blocks. *)
Theorem written_table_layout
        (blockSize : nat) (path : string) (entries : list entry) (d : disk) :
  entries <> [] ->
  keys_ascending entries = true ->
  exists f d' r,
    SSTableWriter.write blockSize path entries d = (Returned f, d')
    /\ SSTableReader.new path d' = Returned r
    /\ SSTableReader.stats r = f
    /\ table_wf r = true
    /\ minKey f = first_key entries /\ maxKey f = last_key entries
    /\ entryCount f = List.length entries
    /\ blockCount f = List.length (SSTableReader.index r).
Proof.
  intros Hne Hasc.
  destruct (write_returns blockSize path entries d Hne) as [Hw Hr].
  do 3 eexists. split; [exact Hw|]. split; [exact Hr|].
  split; [reflexivity|]. split; [now apply written_reader_wf|].
  cbn [written_reader SSTableReader.footer SSTableReader.index
       minKey maxKey entryCount blockCount].
  assert (Hk : map key (map SSTableWriter.convert entries) = map key entries)
    by (rewrite map_map; now apply map_ext).
  rewrite (first_key_by_keys _ _ Hk), (last_key_by_keys _ _ Hk), length_map.
  repeat split.
Qed.

Lemma written_table_layout_witness :
  exists f d' r,
    SSTableWriter.write 16 "level1_0.sst" sample_stream [] = (Returned f, d')
    /\ SSTableReader.new "level1_0.sst" d' = Returned r
    /\ SSTableReader.stats r = f
    /\ table_wf r = true
    /\ minKey f = first_key sample_stream /\ maxKey f = last_key sample_stream
    /\ entryCount f = List.length sample_stream
    /\ blockCount f = List.length (SSTableReader.index r).
Proof. apply written_table_layout; [discriminate|reflexivity]. Defined.



(** X14: [get] makes up no value. On every table, in order or not, a
    result of [get] other than [undefined] is the value of an entry that a
    block of the table holds under the key asked for, with the marker
    string turned into the tombstone. *)
Theorem get_returns_only_stored_values
        (r : SSTableReader.t) (k : string) (v : value) :
  SSTableReader.get r k = Some v -> v <> VUndefined ->
  exists b e, In b (SSTableReader.index r) /\ In e (data b)
              /\ key e = k /\ v = SSTableReader.decode (evalue e).
Proof. apply get_sound. Qed.

Lemma get_returns_only_stored_values_witness :
  exists b e, In b (SSTableReader.index gap_reader) /\ In e (data b)
              /\ key e = "c"
              /\ VJson (JNum 2) = SSTableReader.decode (evalue e).
Proof.
  apply (get_returns_only_stored_values gap_reader "c" (VJson (JNum 2)));
    [reflexivity|discriminate].
Defined.

(** X15: on a table laid out in order, [range(startKey, endKey)] returns
    exactly the entries of the full iteration whose key lies between the
    two bounds, both included, in the order of the iteration: the blocks
    skipped before the first candidate and after the stop hold none. *)
Theorem range_is_filter_of_iteration
        (r : SSTableReader.t) (lo hi : string) :
  table_wf r = true ->
  SSTableReader.range r lo hi
  = Some (filter (in_range lo hi) (SSTableReader.iterate r)).
Proof.
  intros Hwf. unfold table_wf in Hwf.
  apply andb_true_iff in Hwf as [Hwf _].
  apply andb_true_iff in Hwf as [Hblocks Hord].
  now apply range_is_filter.
Qed.

Lemma range_is_filter_of_iteration_witness :
  SSTableReader.range gap_reader "b" "f"
  = Some (filter (in_range "b" "f") (SSTableReader.iterate gap_reader)).
Proof. apply range_is_filter_of_iteration. reflexivity. Defined.

(* ===================================================================== *)
(** * Properties of the engine: writes that stay in the MemTable           *)
(* ===================================================================== *)

Section EngineWrites.

Import LSMTree.

Variable localeCompare : string -> string -> Z.

Lemma memtable_set_chain (k : string) (v : value) (m m' : MemTable.t)
      (flag : bool) :
  MemTable.set k v m = (Returned flag, m') ->
  MemTable.skipList m' = SkipList.set k v (MemTable.skipList m).
Proof.
  unfold MemTable.set.
  destruct (MemTable._estimateSize k v); [|discriminate].
  destruct (is_undefined (SkipList.get k (MemTable.skipList m))).
  - now inversion 1.
  - destruct (MemTable._estimateSize k
                (SkipList.get k (MemTable.skipList m))); [|discriminate].
    now inversion 1.
Qed.

Lemma get_same_tables (s s' : t) (k : string) :
  MemTable.get k (memtable s') = MemTable.get k (memtable s) ->
  levels s' = levels s -> maxLevels s' = maxLevels s ->
  get s' k = get s k.
Proof.
  unfold get, level_tables. now intros -> -> ->.
Qed.

(** A write that does not fill the MemTable. *)
Lemma write_in_memtable (k : string) (v : value) (s : t) (m' : MemTable.t) :
  MemTable.set k v (memtable s) = (Returned false, m') ->
  forall k',
    get (with_memtable m' s) k'
    = if String.eqb k' k
      then Some (if is_undefined v then VUndefined
                 else if is_symbol MemTable_TOMBSTONE v then VUndefined else v)
      else get s k'.
Proof.
  intros Hset k'. pose proof (memtable_set_chain _ _ _ _ _ Hset) as Hchain.
  destruct (String.eqb k' k) eqn:E.
  - apply String.eqb_eq in E. subst k'.
    unfold get. cbn [memtable with_memtable]. unfold MemTable.get.
    rewrite Hchain, get_set_any, String.eqb_refl.
    destruct v as [|sym|j]; simpl.
    + unfold MemTable.set in Hset. simpl in Hset. discriminate.
    + reflexivity.
    + reflexivity.
  - apply get_same_tables; try reflexivity.
    cbn [memtable with_memtable]. unfold MemTable.get.
    now rewrite Hchain, get_set_any, E.
Qed.

End EngineWrites.



(** X17: when [delete(k)] does not fill the MemTable it returns [true],
    and afterwards [get] returns [undefined] for [k], whatever the tables
    hold, and what it returned before for every other key; the log being
    one that a newline ends, it replays with [k] removed. *)
Theorem delete_then_get
        (localeCompare : string -> string -> Z) (s : LSMTree.t) (k : string) :
  fst (MemTable.delete k (LSMTree.memtable s)) = Returned false ->
  log_terminated (LSMTree.dataDir s) = true ->
  exists s',
    LSMTree.delete localeCompare k s = (Returned true, s')
    /\ (forall k', LSMTree.get s' k'
                   = if String.eqb k' k then Some VUndefined
                     else LSMTree.get s k')
    /\ LSMTree.levels s' = LSMTree.levels s
    /\ WriteAheadLog.recover (LSMTree.dataDir s')
       = map_delete k (WriteAheadLog.recover (LSMTree.dataDir s)).
Proof.
  intros Hflag Hterm.
  destruct (MemTable.delete k (LSMTree.memtable s)) as [r m'] eqn:Hdel.
  simpl in Hflag. subst r.
  eexists. split.
  - unfold LSMTree.delete, bind, LSMTree.on_dataDir, LSMTree.on_memtable, ret.
    cbn [LSMTree.dataDir LSMTree.with_dataDir LSMTree.memtable].
    rewrite Hdel. reflexivity.
  - split; [|split; [reflexivity|]].
    + intros k'.
      pose proof (write_in_memtable k (VSymbol MemTable_TOMBSTONE) s m' Hdel k')
        as H.
      simpl in H. rewrite <- H. now apply get_same_tables.
    + cbn [LSMTree.dataDir LSMTree.with_dataDir LSMTree.with_memtable].
      unfold WriteAheadLog.logDelete. now rewrite recover_append by exact Hterm.
Qed.

Lemma delete_then_get_witness :
  exists s',
    LSMTree.delete (fun _ _ => 0) "a"
                   (snd (LSMTree.new sample_directory LSMTree.no_options))
    = (Returned true, s')
    /\ (forall k', LSMTree.get s' k'
                   = if String.eqb k' "a" then Some VUndefined
                     else LSMTree.get
                            (snd (LSMTree.new sample_directory
                                              LSMTree.no_options)) k')
    /\ LSMTree.levels s'
       = LSMTree.levels (snd (LSMTree.new sample_directory LSMTree.no_options))
    /\ WriteAheadLog.recover (LSMTree.dataDir s')
       = map_delete "a"
           (WriteAheadLog.recover
              (LSMTree.dataDir
                 (snd (LSMTree.new sample_directory LSMTree.no_options)))).
Proof. apply delete_then_get; reflexivity. Defined.

(* ===================================================================== *)
(** * Properties of the engine: flush                                      *)
(* ===================================================================== *)

Section EngineFlush.

Import LSMTree.

Variable localeCompare : string -> string -> Z.

Lemma disk_lookup_write_other (name name' : string) (f : file) (d : disk) :
  name <> name' ->
  disk_lookup name (disk_write name' f d) = disk_lookup name d.
Proof.
  intros Hne. induction d as [|[n f'] d IH]; simpl.
  - destruct (String.eqb name' name) eqn:E; [|reflexivity].
    apply String.eqb_eq in E. congruence.
  - destruct (String.eqb n name') eqn:E; simpl.
    + apply String.eqb_eq in E. subst n.
      destruct (String.eqb name' name) eqn:E2; [|reflexivity].
      apply String.eqb_eq in E2. congruence.
    + now rewrite IH.
Qed.

Lemma table_name_not_log (level : nat) (seq : N) :
  WriteAheadLog.logPath <> table_name level seq.
Proof. unfold table_name. simpl. discriminate. Qed.





End EngineFlush.

Section DirectoryFacts.

Lemma disk_lookup_none (name : string) (d : disk) :
  ~ In name (readdirSync d) -> disk_lookup name d = None.
Proof.
  unfold readdirSync. induction d as [|[n f] d IH]; simpl; [reflexivity|].
  intros H. destruct (String.eqb n name) eqn:E.
  - apply String.eqb_eq in E. tauto.
  - apply IH. tauto.
Qed.

Lemma disk_write_names (name : string) (f : file) (d : disk) :
  forall x, In x (readdirSync (disk_write name f d))
            <-> x = name \/ In x (readdirSync d).
Proof.
  unfold readdirSync. intros x. induction d as [|[n f'] d IH]; simpl.
  - intuition.
  - destruct (String.eqb n name) eqn:E; simpl.
    + apply String.eqb_eq in E. subst. intuition.
    + rewrite IH. intuition.
Qed.

Lemma disk_write_nodup (name : string) (f : file) (d : disk) :
  NoDup (readdirSync d) -> NoDup (readdirSync (disk_write name f d)).
Proof.
  induction d as [|[n f'] d IH]; simpl; intros H.
  - constructor; [tauto|constructor].
  - inversion H as [|? ? Hnin Hnd]; subst.
    destruct (String.eqb n name) eqn:E; simpl.
    + apply String.eqb_eq in E. subst. now constructor.
    + constructor; [|now apply IH].
      fold (readdirSync (disk_write name f d)).
      rewrite disk_write_names. intros [->|Hin]; [|tauto].
      now rewrite String.eqb_refl in E.
Qed.


End DirectoryFacts.

(* ===================================================================== *)
(** * Assignment to an element of an array                                 *)
(* ===================================================================== *)

Section SetNth.

Lemma set_nth_nil {A} (n : nat) (a : A) : set_nth n a [] = [].
Proof. unfold set_nth. now destruct n. Qed.

Lemma set_nth_zero {A} (a x : A) (l : list A) : set_nth 0 a (x :: l) = a :: l.
Proof. reflexivity. Qed.

Lemma set_nth_succ {A} (n : nat) (a x : A) (l : list A) :
  set_nth (S n) a (x :: l) = x :: set_nth n a l.
Proof. reflexivity. Qed.

Lemma nth_set_nth_same {A} (n : nat) (a d : A) (l : list A) :
  nth n (set_nth n a l) d = a \/ nth n (set_nth n a l) d = d.
Proof.
  revert n. induction l as [|x l IH]; intros n.
  - rewrite set_nth_nil. right. now destruct n.
  - destruct n as [|n]; [now left|]. rewrite set_nth_succ. apply IH.
Qed.

Lemma nth_set_nth_inside {A} (n : nat) (a d : A) (l : list A) :
  (n < List.length l)%nat -> nth n (set_nth n a l) d = a.
Proof.
  revert n. induction l as [|x l IH]; intros n H; [simpl in H; lia|].
  destruct n as [|n]; [reflexivity|]. rewrite set_nth_succ. simpl.
  apply IH. simpl in H. lia.
Qed.

Lemma nth_set_nth_other {A} (n m : nat) (a d : A) (l : list A) :
  m <> n -> nth m (set_nth n a l) d = nth m l d.
Proof.
  revert n m. induction l as [|x l IH]; intros n m H.
  - now rewrite set_nth_nil.
  - destruct n as [|n].
    + destruct m as [|m]; [congruence|reflexivity].
    + rewrite set_nth_succ. destruct m as [|m]; [reflexivity|].
      simpl. apply IH. congruence.
Qed.

Lemma length_set_nth {A} (n : nat) (a : A) (l : list A) :
  List.length (set_nth n a l) = List.length l.
Proof.
  revert n. induction l as [|x l IH]; intros n.
  - now rewrite set_nth_nil.
  - destruct n as [|n]; [reflexivity|]. rewrite set_nth_succ. simpl.
    now rewrite IH.
Qed.

End SetNth.

(* ===================================================================== *)
(** * The directory and the open tables                                    *)
(* ===================================================================== *)

Section Consistency.

Import LSMTree.

Lemma disk_lookup_remove_other (name n : string) (d : disk) :
  name <> n -> disk_lookup name (disk_remove n d) = disk_lookup name d.
Proof.
  intros Hne. induction d as [|[n' f] d IH]; simpl; [reflexivity|].
  destruct (String.eqb n' n) eqn:E; simpl.
  - apply String.eqb_eq in E. subst n'.
    destruct (String.eqb n name) eqn:E2; [|reflexivity].
    apply String.eqb_eq in E2. congruence.
  - now rewrite IH.
Qed.

Lemma disk_remove_names (n : string) (d : disk) :
  forall x, In x (readdirSync (disk_remove n d)) -> In x (readdirSync d).
Proof.
  unfold readdirSync. intros x. induction d as [|[n' f] d IH]; simpl; [tauto|].
  destruct (String.eqb n' n); simpl; tauto.
Qed.

Lemma disk_remove_nodup (n : string) (d : disk) :
  NoDup (readdirSync d) -> NoDup (readdirSync (disk_remove n d)).
Proof.
  induction d as [|[n' f] d IH]; simpl; intros H; [constructor|].
  inversion H as [|? ? Hnin Hnd]; subst.
  destruct (String.eqb n' n); simpl; [assumption|].
  constructor; [|now apply IH].
  intros Hin. apply Hnin. now apply disk_remove_names in Hin.
Qed.

Lemma disk_lookup_in (name : string) (f : file) (d : disk) :
  disk_lookup name d = Some f -> In name (readdirSync d).
Proof.
  intros H. destruct (in_dec string_dec name (readdirSync d)) as [Hin|Hnin];
    [exact Hin|].
  apply disk_lookup_none in Hnin. congruence.
Qed.


Lemma new_log_nodup (d : disk) :
  NoDup (readdirSync d) -> NoDup (readdirSync (WriteAheadLog.new d)).
Proof.
  intros H. unfold WriteAheadLog.new.
  destruct (disk_lookup WriteAheadLog.logPath d); [exact H|].
  now apply disk_write_nodup.
Qed.

Lemma new_log_names (d : disk) :
  forall x, In x (readdirSync (WriteAheadLog.new d)) ->
            x = WriteAheadLog.logPath \/ In x (readdirSync d).
Proof.
  intros x. unfold WriteAheadLog.new.
  destruct (disk_lookup WriteAheadLog.logPath d); [tauto|].
  now rewrite disk_write_names.
Qed.

(** ** The tables of the levels, as one list *)

Lemma in_level_open {A} (ls : list (list A)) (m : nat) (r : A) :
  In r (nth m ls []) -> In r (List.concat ls).
Proof.
  revert m. induction ls as [|l ls IH]; intros m H.
  - now destruct m.
  - simpl. apply in_or_app. destruct m as [|m]; [now left|right; eauto].
Qed.

Lemma in_concat_set_nth {A} (n : nat) (new : list A) (ls : list (list A))
      (r : A) :
  In r (List.concat (set_nth n new ls)) ->
  In r new \/ exists m, m <> n /\ In r (nth m ls []).
Proof.
  revert n. induction ls as [|l ls IH]; intros n H.
  - rewrite set_nth_nil in H. destruct H.
  - destruct n as [|n].
    + rewrite set_nth_zero in H. simpl in H.
      apply in_app_or in H as [H|H]; [now left|].
      right. apply in_concat in H as [l' [Hl' Hr]].
      apply In_nth with (d := []) in Hl' as [i [Hi Hnth]].
      exists (S i). split; [discriminate|]. simpl. now rewrite Hnth.
    + rewrite set_nth_succ in H. simpl in H.
      apply in_app_or in H as [H|H].
      * right. exists 0%nat. split; [discriminate|exact H].
      * destruct (IH n H) as [Hnew|[m [Hm Hr]]]; [now left|].
        right. exists (S m). split; [congruence|exact Hr].
Qed.

Lemma levels_apart {A B} (f : A -> B) (ls : list (list A)) :
  NoDup (map f (List.concat ls)) ->
  forall m n r r',
    m <> n -> In r (nth m ls []) -> In r' (nth n ls []) -> f r <> f r'.
Proof.
  induction ls as [|l ls IH]; intros Hnd m n r r' Hmn Hr Hr'.
  - now destruct m.
  - simpl in Hnd. rewrite map_app in Hnd.
    pose proof (NoDup_app_remove_l _ _ Hnd) as Hls.
    assert (Hsplit : forall x y, In x l -> In y (List.concat ls) -> f x <> f y).
    { intros x y Hx Hy Heq.
      apply (in_map f) in Hx. apply (in_map f) in Hy.
      apply in_split in Hx as [l1 [l2 Hx]]. rewrite Hx in Hnd.
      rewrite <- app_assoc in Hnd. simpl in Hnd.
      apply NoDup_remove_2 in Hnd. apply Hnd.
      rewrite app_assoc. apply in_or_app. right. now rewrite Heq. }
    destruct m as [|m], n as [|n]; simpl in Hr, Hr'.
    + congruence.
    + apply Hsplit; [exact Hr|]. now apply in_level_open with n.
    + intros Heq. apply (Hsplit r' r); [exact Hr'| |congruence].
      now apply in_level_open with m.
    + apply (IH Hls m n); auto.
Qed.

Lemma nodup_concat_set_nth {A B} (f : A -> B) (n : nat) (new : list A)
      (ls : list (list A)) :
  NoDup (map f (List.concat ls)) ->
  NoDup (map f new) ->
  (forall x, In x new -> ~ In (f x) (map f (List.concat ls))) ->
  NoDup (map f (List.concat (set_nth n new ls))).
Proof.
  revert n. induction ls as [|l ls IH]; intros n Hnd Hnew Hfresh.
  - rewrite set_nth_nil. constructor.
  - simpl in Hnd. rewrite map_app in Hnd.
    pose proof (NoDup_app_remove_l _ _ Hnd) as Hls.
    pose proof (NoDup_app_remove_r _ _ Hnd) as Hl.
    destruct n as [|n].
    + rewrite set_nth_zero. simpl. rewrite map_app.
      apply NoDup_app; [exact Hnew|exact Hls|].
      intros y Hy Hy'. apply in_map_iff in Hy as [x [<- Hx]].
      apply (Hfresh x Hx). simpl. rewrite map_app. apply in_or_app. now right.
    + rewrite set_nth_succ. simpl. rewrite map_app.
      apply NoDup_app; [exact Hl| |].
      * apply IH; [exact Hls|exact Hnew|].
        intros x Hx Hin. apply (Hfresh x Hx). simpl. rewrite map_app.
        apply in_or_app. now right.
      * intros y Hy Hy'. apply in_map_iff in Hy' as [x [<- Hx]].
        apply in_concat_set_nth in Hx as [Hx|[m [_ Hx]]].
        -- apply (Hfresh x Hx). simpl. rewrite map_app. apply in_or_app.
           now left.
        -- apply in_level_open in Hx. apply (in_map f) in Hx.
           apply in_split in Hy as [l1 [l2 Hy]]. rewrite Hy in Hnd.
           rewrite <- app_assoc in Hnd. simpl in Hnd.
           apply NoDup_remove_2 in Hnd. apply Hnd.
           rewrite app_assoc. apply in_or_app. now right.
Qed.

(** A table pushed at the end of a level is one more open table. *)
Lemma concat_push {A} (n : nat) (l : list A) (r : A) (ls : list (list A)) :
  nth_error ls n = Some l ->
  Permutation (List.concat (set_nth n (l ++ [r]) ls)) (r :: List.concat ls).
Proof.
  revert n. induction ls as [|l0 ls IH]; intros n H.
  - now destruct n.
  - destruct n as [|n]; simpl in H.
    + inversion H; subst l0. rewrite set_nth_zero. simpl.
      rewrite <- app_assoc. simpl. symmetry. apply Permutation_middle.
    + rewrite set_nth_succ. simpl. rewrite (IH n H).
      symmetry. apply Permutation_middle.
Qed.

Lemma consistent_paths (s : t) (r : SSTableReader.t) :
  consistent s -> In r (open_tables s) ->
  In (SSTableReader.filePath r) (readdirSync (dataDir s)).
Proof.
  intros [_ [_ Hback]] Hr. destruct (Hback r Hr) as [Hfile _].
  now apply disk_lookup_in in Hfile.
Qed.

Lemma free_name_not_open (s : t) (name : string) :
  consistent s -> ~ In name (readdirSync (dataDir s)) ->
  ~ In name (map SSTableReader.filePath (open_tables s)).
Proof.
  intros Hc Hfree Hin. apply in_map_iff in Hin as [r [<- Hr]].
  apply Hfree. now apply consistent_paths.
Qed.


End Consistency.



(** X19: a flush of an empty MemTable throws "Cannot write empty SSTable";
    on an engine whose counter is below 2^53, the sequence number it had
    taken for the file is used up, and nothing else has changed. *)
Theorem flush_of_empty_memtable
        (localeCompare : string -> string -> Z) (s : LSMTree.t) :
  MemTable.entries (LSMTree.memtable s) = [] ->
  (LSMTree.sstableCounter s < safe_bound)%N ->
  LSMTree._flushMemtable localeCompare s
  = (Thrown "Cannot write empty SSTable",
     LSMTree.with_counter (LSMTree.sstableCounter s + 1)%N s).
Proof.
  intros H Hsafe.
  unfold LSMTree._flushMemtable, bind, LSMTree.next_counter, get_state,
    LSMTree.on_dataDir.
  cbn [LSMTree.memtable LSMTree.with_counter LSMTree.dataDir].
  rewrite H, (increment_exact _ Hsafe). reflexivity.
Qed.

Lemma flush_of_empty_memtable_witness :
  LSMTree._flushMemtable (fun _ _ => 0)
    (snd (LSMTree.new two_flushes LSMTree.no_options))
  = (Thrown "Cannot write empty SSTable",
     LSMTree.with_counter
       (LSMTree.sstableCounter
          (snd (LSMTree.new two_flushes LSMTree.no_options)) + 1)%N
       (snd (LSMTree.new two_flushes LSMTree.no_options))).
Proof. apply flush_of_empty_memtable; reflexivity. Defined.

(* ===================================================================== *)
(** * Properties of the engine: compaction of a level                      *)
(* ===================================================================== *)

Section EngineCompaction.

Import LSMTree.

Variable localeCompare : string -> string -> Z.

Lemma unlink_loop_frame (l : list SSTableReader.t) :
  forall s o s',
    for_each (fun r => on_dataDir (unlinkSync (SSTableReader.filePath r))) l s
    = (o, s') ->
    exists d', s' = with_dataDir d' s.
Proof.
  induction l as [|r l IH]; intros s o s' H; simpl in H.
  - inversion H; subst. exists (dataDir s'). now destruct s'.
  - unfold bind at 1, on_dataDir at 1 in H.
    destruct (unlinkSync (SSTableReader.filePath r) (dataDir s)) as [[[]|m] d1].
    + apply IH in H as [d' ->]. now exists d'.
    + inversion H; subst. now exists d1.
Qed.

(** The loop that unlinks the files of a list of tables, when it returns:
    the other files are as they were. *)
Lemma unlink_loop_result (l : list SSTableReader.t) :
  forall s s',
    for_each (fun r => on_dataDir (unlinkSync (SSTableReader.filePath r))) l s
    = (Returned tt, s') ->
    exists d',
      s' = with_dataDir d' s
      /\ (forall name,
             ~ In name (map SSTableReader.filePath l) ->
             disk_lookup name d' = disk_lookup name (dataDir s))
      /\ (NoDup (readdirSync (dataDir s)) -> NoDup (readdirSync d')).
Proof.
  induction l as [|r l IH]; intros s s' H; simpl in H.
  - inversion H; subst. exists (dataDir s').
    split; [now destruct s'|]. split; auto.
  - unfold bind at 1, on_dataDir at 1, unlinkSync at 1 in H.
    destruct (disk_lookup (SSTableReader.filePath r) (dataDir s));
      [|discriminate].
    apply IH in H as [d' [-> [Hlook Hnd]]]. exists d'.
    split; [reflexivity|]. cbn [dataDir with_dataDir] in *. split.
    + intros name Hname. rewrite Hlook by (simpl in Hname; tauto).
      apply disk_lookup_remove_other. simpl in Hname. intros ->. tauto.
    + intros H0. now apply Hnd, disk_remove_nodup.
Qed.

(** The state a compaction leaves when it returns. *)
Lemma compact_result (level : nat) (s s' : t) :
  Z.of_nat level < Z.of_nat (maxLevels s) - 1 ->
  _compactLevel localeCompare level s = (Returned tt, s') ->
  exists d' tables,
    s' = with_dataDir d'
           (with_levels (compacted_levels level tables s)
              (with_counter (increment (sstableCounter s)) s))
    /\ (merged_entries localeCompare level s = [] /\ tables = []
        \/ tables = [written_reader SSTableWriter.default_blockSize
                       (table_name (level + 1) (sstableCounter s))
                       (merged_entries localeCompare level s)])
    /\ (forall name,
           ~ In name (map SSTableReader.filePath
                          (level_tables s level ++ level_tables s (level + 1))) ->
           disk_lookup name d' = disk_lookup name (with_tables tables (dataDir s)))
    /\ (NoDup (readdirSync (dataDir s)) -> NoDup (readdirSync d')).
Proof.
  intros Hguard Hret.
  unfold _compactLevel, bind at 1, get_state in Hret.
  destruct (Z.of_nat (maxLevels s) - 1 <=? Z.of_nat level) eqn:E;
    [apply Z.leb_le in E; lia|].
  fold (merged_entries localeCompare level s) in Hret.
  unfold bind at 1, next_counter in Hret.
  unfold bind at 1 in Hret.
  destruct (merged_entries localeCompare level s) as [|e0 es] eqn:Ee.
  - unfold assign_level at 1 in Hret. unfold bind at 1, assign_level at 1 in Hret.
    unfold bind at 1 in Hret.
    match type of Hret with
    | context [for_each ?f ?l ?st] =>
        destruct (for_each f l st) as [[[]|m] s1] eqn:E1; [|discriminate]
    end.
    apply unlink_loop_result in E1 as [d1 [-> [Hl1 Hn1]]].
    apply unlink_loop_result in Hret as [d2 [-> [Hl2 Hn2]]].
    cbn [dataDir with_dataDir with_levels with_counter] in *.
    exists d2, []. split; [reflexivity|]. split; [left; now split|].
    split.
    + intros name Hname. rewrite map_app, in_app_iff in Hname.
      rewrite Hl2, Hl1 by tauto. reflexivity.
    + auto.
  - rewrite <- Ee in Hret.
    assert (Hne : merged_entries localeCompare level s <> [])
      by (rewrite Ee; discriminate).
    destruct (write_returns SSTableWriter.default_blockSize
                (table_name (level + 1) (sstableCounter s))
                (merged_entries localeCompare level s) (dataDir s) Hne)
      as [Hw Hr].
    unfold bind at 1, on_dataDir at 1 in Hret.
    cbn [dataDir with_counter] in Hret. rewrite Hw in Hret.
    unfold bind at 1, get_state in Hret. unfold bind at 1, lift in Hret.
    cbn [dataDir with_dataDir with_counter] in Hret. rewrite Hr in Hret.
    unfold assign_level at 1 in Hret. unfold bind at 1, assign_level at 1 in Hret.
    unfold bind at 1 in Hret.
    match type of Hret with
    | context [for_each ?f ?l ?st] =>
        destruct (for_each f l st) as [[[]|m] s1] eqn:E1; [|discriminate]
    end.
    apply unlink_loop_result in E1 as [d1 [-> [Hl1 Hn1]]].
    apply unlink_loop_result in Hret as [d2 [-> [Hl2 Hn2]]].
    cbn [dataDir with_dataDir with_levels with_counter] in *.
    exists d2, [written_reader SSTableWriter.default_blockSize
                  (table_name (level + 1) (sstableCounter s))
                  (merged_entries localeCompare level s)].
    split; [reflexivity|]. split; [right; now rewrite Ee|].
    split.
    + intros name Hname. rewrite map_app, in_app_iff in Hname.
      rewrite Hl2, Hl1 by tauto. reflexivity.
    + intros H0. now apply Hn2, Hn1, disk_write_nodup.
Qed.

(** A compaction that returns leaves a consistent engine when the name it
    took was free. *)
Lemma compact_consistent (level : nat) (s s' : t) :
  Z.of_nat level < Z.of_nat (maxLevels s) - 1 ->
  (level + 1 < List.length (levels s))%nat ->
  consistent s ->
  ~ In (table_name (level + 1) (sstableCounter s)) (readdirSync (dataDir s)) ->
  _compactLevel localeCompare level s = (Returned tt, s') ->
  consistent s'.
Proof.
  intros Hguard Hlen Hcons Hfree Hret.
  pose proof (free_name_not_open s _ Hcons Hfree) as Hnot.
  apply compact_result in Hret as [d' [tables [-> [Htables [Hlook Hnd]]]]];
    [|exact Hguard].
  destruct Hcons as [Hnames [Hpaths Hback]].
  assert (Hnew : forall r, In r tables ->
             SSTableReader.filePath r
             = table_name (level + 1) (sstableCounter s)
             /\ with_tables tables (dataDir s)
                = disk_write (SSTableReader.filePath r)
                             (TableFile (table_of r)) (dataDir s)).
  { intros r Hr. destruct Htables as [[_ ->]| ->]; [destruct Hr|].
    destruct Hr as [<-|[]]. split; reflexivity. }
  assert (Hold : forall r,
             In r (level_tables s level ++ level_tables s (level + 1)) ->
             In r (open_tables s)).
  { intros r Hr. apply in_app_or in Hr as [Hr|Hr];
      eapply in_level_open; exact Hr. }
  split; [|split].
  - cbn [dataDir with_dataDir]. auto.
  - unfold open_tables. cbn [levels with_dataDir with_levels].
    unfold compacted_levels.
    apply nodup_concat_set_nth; [|constructor|intros x []].
    apply nodup_concat_set_nth; [exact Hpaths| |].
    + destruct Htables as [[_ ->]| ->]; repeat constructor. intros [].
    + intros x Hx. destruct (Hnew x Hx) as [-> _]. exact Hnot.
  - intros r Hr. unfold open_tables in Hr.
    cbn [levels with_dataDir with_levels dataDir] in *.
    unfold compacted_levels in Hr.
    apply in_concat_set_nth in Hr as [[]|[m [Hm Hr]]].
    destruct (Nat.eq_dec m (level + 1)) as [->|Hm'].
    + rewrite nth_set_nth_inside in Hr by exact Hlen.
      destruct (Hnew r Hr) as [Hpath Hdir].
      split; [|rewrite Hpath; intros Heq; symmetry in Heq;
               now apply table_name_not_log in Heq].
      rewrite Hlook, Hdir; [apply disk_lookup_write|].
      rewrite Hpath. intros Hin. apply Hnot.
      apply in_map_iff in Hin as [r' [<- Hr']].
      apply in_map. now apply Hold.
    + rewrite nth_set_nth_other in Hr by exact Hm'.
      assert (Hopen : In r (open_tables s))
        by (eapply in_level_open; exact Hr).
      destruct (Hback r Hopen) as [Hfile Hlog]. split; [|exact Hlog].
      rewrite Hlook.
      * destruct Htables as [[_ ->]| ->]; [exact Hfile|].
        cbn [with_tables fold_right].
        rewrite disk_lookup_write_other; [exact Hfile|].
        intros Heq. apply Hnot. cbn [SSTableReader.filePath written_reader] in Heq.
        unfold written_reader in Heq. cbn [SSTableReader.filePath] in Heq.
        rewrite <- Heq. now apply in_map.
      * intros Hin. apply in_map_iff in Hin as [r' [Heq Hr']].
        apply in_app_or in Hr' as [Hr'|Hr'].
        -- apply (levels_apart SSTableReader.filePath (levels s) Hpaths
                    m level r r'); auto.
        -- apply (levels_apart SSTableReader.filePath (levels s) Hpaths
                    m (level + 1) r r'); auto.
Qed.

End EngineCompaction.

Section CompactionFacts.

Import LSMTree.

Variable localeCompare : string -> string -> Z.

Lemma decode_not_marker (v : value) :
  is_tombstone_string (SSTableReader.decode v) = false.
Proof.
  unfold SSTableReader.decode.
  destruct (is_tombstone_string v) eqn:E; [reflexivity|assumption].
Qed.

Lemma map_set_values (P : value -> Prop) (k : string) (v : value) (m : jsmap) :
  P v -> Forall (fun kv => P (snd kv)) m ->
  Forall (fun kv => P (snd kv)) (map_set k v m).
Proof.
  intros Hv. induction m as [|[k' v'] m IH]; intros H; simpl.
  - now constructor.
  - inversion H; subst. destruct (String.eqb k' k); constructor; auto.
Qed.

Lemma merge_newer_values (r : SSTableReader.t) (m : jsmap) :
  Forall (fun kv => not_marker (snd kv)) m ->
  Forall (fun kv => not_marker (snd kv)) (merge_newer m r).
Proof.
  unfold merge_newer, SSTableReader.iterate.
  generalize (SSTableReader.index r). intros idx. revert m.
  induction idx as [|b idx IH]; intros m Hm; [exact Hm|].
  simpl. rewrite fold_left_app. apply IH.
  generalize (SSTableReader._loadBlock b). intros es. revert m Hm.
  induction es as [|e es IHes]; intros m Hm; [exact Hm|].
  simpl. apply IHes. apply map_set_values; [apply decode_not_marker|exact Hm].
Qed.

Lemma merge_older_values (r : SSTableReader.t) (m : jsmap) :
  Forall (fun kv => not_marker (snd kv)) m ->
  Forall (fun kv => not_marker (snd kv)) (merge_older m r).
Proof.
  unfold merge_older, SSTableReader.iterate.
  generalize (SSTableReader.index r). intros idx. revert m.
  induction idx as [|b idx IH]; intros m Hm; [exact Hm|].
  simpl. rewrite fold_left_app. apply IH.
  generalize (SSTableReader._loadBlock b). intros es. revert m Hm.
  induction es as [|e es IHes]; intros m Hm; [exact Hm|].
  simpl. apply IHes. destruct (map_has (key e) m); [exact Hm|].
  apply map_set_values; [apply decode_not_marker|exact Hm].
Qed.

Lemma sort_insert_in {A} (cmp : A -> A -> Z) (a x : A) (l : list A) :
  In x (sort_insert cmp a l) <-> x = a \/ In x l.
Proof.
  induction l as [|b l IH]; simpl; [intuition|].
  destruct (cmp a b <=? 0); simpl; [intuition|]. rewrite IH. intuition.
Qed.

Lemma array_sort_in {A} (cmp : A -> A -> Z) (x : A) (l : list A) :
  In x (array_sort cmp l) <-> In x l.
Proof.
  unfold array_sort. induction l as [|a l IH]; simpl; [tauto|].
  rewrite sort_insert_in, IH. intuition.
Qed.

(** The entries handed to the writer carry no marker string, and no
    tombstone when the next level is the deepest. *)
Lemma merged_entries_values (level : nat) (s : t) (e : entry) :
  In e (merged_entries localeCompare level s) ->
  not_marker (evalue e)
  /\ (Z.of_nat level + 1 = Z.of_nat (maxLevels s) - 1 ->
      evalue e <> VSymbol TOMBSTONE).
Proof.
  unfold merged_entries. rewrite array_sort_in. intros Hin.
  apply in_map_iff in Hin as [kv [<- Hin]].
  apply filter_In in Hin as [Hin Hkeep]. simpl. split.
  - assert (Hall : forall tables m,
               Forall (fun kv => not_marker (snd kv)) m ->
               Forall (fun kv => not_marker (snd kv))
                      (fold_left merge_newer tables m)).
    { induction tables as [|r tables IH]; intros m Hm; [exact Hm|].
      simpl. apply IH. now apply merge_newer_values. }
    assert (Hall' : forall tables m,
               Forall (fun kv => not_marker (snd kv)) m ->
               Forall (fun kv => not_marker (snd kv))
                      (fold_left merge_older tables m)).
    { induction tables as [|r tables IH]; intros m Hm; [exact Hm|].
      simpl. apply IH. now apply merge_older_values. }
    specialize (Hall' (level_tables s (level + 1)) _
                      (Hall (level_tables s level) [] (Forall_nil _))).
    rewrite Forall_forall in Hall'. exact (Hall' kv Hin).
  - intros Hdeep. apply Z.eqb_eq in Hdeep. rewrite Hdeep in Hkeep.
    simpl in Hkeep. intros Heq. rewrite Heq in Hkeep. discriminate.
Qed.

Lemma compacted_tables (level : nat) (tables : list SSTableReader.t) (s : t)
      (r : SSTableReader.t) :
  In r (nth (level + 1) (compacted_levels level tables s) []) -> In r tables.
Proof.
  unfold compacted_levels.
  rewrite nth_set_nth_other by lia.
  destruct (nth_set_nth_same (level + 1) tables [] (levels s)) as [-> | ->];
    [tauto|intros []].
Qed.

End CompactionFacts.

(** X20: on a consistent engine whose counter is below 2^53 and gives a
    name that is free, a compaction of a level above the deepest one that
    returns has emptied the level, left at most one table in the next level,
    named after the counter, raised the counter by one, touched neither the
    MemTable nor any other level, and left a consistent engine. *)
Theorem compaction_shape
        (localeCompare : string -> string -> Z) (level : nat)
        (s s' : LSMTree.t) :
  Z.of_nat level < Z.of_nat (LSMTree.maxLevels s) - 1 ->
  (level + 1 < List.length (LSMTree.levels s))%nat ->
  consistent s ->
  (LSMTree.sstableCounter s < safe_bound)%N ->
  ~ In (table_name (level + 1) (LSMTree.sstableCounter s))
       (readdirSync (LSMTree.dataDir s)) ->
  LSMTree._compactLevel localeCompare level s = (Returned tt, s') ->
  LSMTree.level_tables s' level = []
  /\ (LSMTree.level_tables s' (level + 1) = []
      /\ merged_entries localeCompare level s = []
      \/ exists r,
           LSMTree.level_tables s' (level + 1) = [r]
           /\ SSTableReader.filePath r
              = table_name (level + 1) (LSMTree.sstableCounter s)
           /\ SSTableReader.iterate r
              = map (fun e => read_back (stored (SSTableWriter.convert e)))
                    (merged_entries localeCompare level s))
  /\ LSMTree.sstableCounter s' = (LSMTree.sstableCounter s + 1)%N
  /\ LSMTree.memtable s' = LSMTree.memtable s
  /\ List.length (LSMTree.levels s') = List.length (LSMTree.levels s)
  /\ (forall l, l <> level -> l <> (level + 1)%nat ->
                LSMTree.level_tables s' l = LSMTree.level_tables s l)
  /\ consistent s'.
Proof.
  intros Hguard Hlen Hcons Hsafe Hfree Hret.
  pose proof (compact_consistent localeCompare level s s'
                Hguard Hlen Hcons Hfree Hret) as Hcons'.
  apply compact_result in Hret as [d' [tables [-> [Htables _]]]];
    [|assumption].
  unfold LSMTree.level_tables.
  cbn [LSMTree.levels LSMTree.with_dataDir LSMTree.with_levels
       LSMTree.with_counter LSMTree.sstableCounter LSMTree.memtable].
  unfold compacted_levels.
  split.
  { apply nth_set_nth_inside. rewrite length_set_nth. lia. }
  split.
  { rewrite nth_set_nth_other by lia.
    rewrite nth_set_nth_inside by assumption.
    destruct Htables as [[Hm ->]| ->].
    - left. now split.
    - right. eexists. split; [reflexivity|]. split; [reflexivity|].
      unfold written_reader. apply iterate_written. }
  split; [now apply increment_exact|]. split; [reflexivity|].
  split; [now rewrite !length_set_nth|].
  split; [|exact Hcons'].
  intros l Hl Hl'. now rewrite !nth_set_nth_other by assumption.
Qed.

Lemma compaction_shape_witness :
  let s := snd (LSMTree.new two_flushes two_levels) in
  let s' := snd (LSMTree._compactLevel (fun _ _ => 0) 0 s) in
  LSMTree.level_tables s' 0 = []
  /\ (LSMTree.level_tables s' (0 + 1) = []
      /\ merged_entries (fun _ _ => 0) 0 s = []
      \/ exists r,
           LSMTree.level_tables s' (0 + 1) = [r]
           /\ SSTableReader.filePath r
              = table_name (0 + 1) (LSMTree.sstableCounter s)
           /\ SSTableReader.iterate r
              = map (fun e => read_back (stored (SSTableWriter.convert e)))
                    (merged_entries (fun _ _ => 0) 0 s))
  /\ LSMTree.sstableCounter s' = (LSMTree.sstableCounter s + 1)%N
  /\ LSMTree.memtable s' = LSMTree.memtable s
  /\ List.length (LSMTree.levels s') = List.length (LSMTree.levels s)
  /\ (forall l, l <> 0%nat -> l <> (0 + 1)%nat ->
                LSMTree.level_tables s' l = LSMTree.level_tables s l)
  /\ consistent s'.
Proof.
  intros s s'.
  apply (compaction_shape (fun _ _ => 0) 0 s s').
  - vm_compute. reflexivity.
  - vm_compute. lia.
  - consistent_by_computation.
  - reflexivity.
  - vm_compute. intuition discriminate.
  - vm_compute. reflexivity.
Defined.

(** X21: after a compaction into the deepest level that returns, the full
    iteration of the table of that level yields no entry whose value is the
    tombstone [Symbol.for('TOMBSTONE')]. *)
Theorem compaction_into_deepest_drops_tombstones
        (localeCompare : string -> string -> Z) (level : nat)
        (s s' : LSMTree.t) :
  Z.of_nat level + 1 = Z.of_nat (LSMTree.maxLevels s) - 1 ->
  LSMTree._compactLevel localeCompare level s = (Returned tt, s') ->
  forall r e,
    In r (LSMTree.level_tables s' (level + 1)) ->
    In e (SSTableReader.iterate r) ->
    evalue e <> VSymbol TOMBSTONE.
Proof.
  intros Hdeep Hret r e Hr He.
  apply compact_result in Hret as [d' [tables [-> [Htables _]]]]; [|lia].
  unfold LSMTree.level_tables in Hr.
  cbn [LSMTree.levels LSMTree.with_dataDir LSMTree.with_levels] in Hr.
  apply compacted_tables in Hr.
  destruct Htables as [[_ ->]| ->]; [destruct Hr|].
  destruct Hr as [<-|[]].
  unfold written_reader in He. rewrite iterate_written in He.
  apply in_map_iff in He as [e0 [<- Hin]].
  destruct (merged_entries_values localeCompare level s e0 Hin) as [Hnm Hnt].
  specialize (Hnt Hdeep). unfold not_marker in Hnm.
  unfold read_back, stored, SSTableWriter.convert. simpl.
  destruct (evalue e0) as [|[|]|j] eqn:Ev; simpl; try discriminate.
  - congruence.
  - unfold SSTableReader.decode. rewrite Hnm. discriminate.
Qed.

Lemma compaction_into_deepest_drops_tombstones_witness :
  let s := snd (LSMTree.new tombstone_directory two_levels) in
  let s' := snd (LSMTree._compactLevel (fun _ _ => 0) 0 s) in
  map SSTableReader.iterate (LSMTree.level_tables s 0)
  = [[mkEntry "a" (VJson (JNum 1)); mkEntry "b" (VSymbol TOMBSTONE)]]
  /\ forall r e,
       In r (LSMTree.level_tables s' (0 + 1)) ->
       In e (SSTableReader.iterate r) ->
       evalue e <> VSymbol TOMBSTONE.
Proof.
  intros s s'. split; [reflexivity|].
  apply (compaction_into_deepest_drops_tombstones (fun _ _ => 0) 0 s s').
  - vm_compute. reflexivity.
  - vm_compute. reflexivity.
Defined.

(* ===================================================================== *)
(** * Properties of the engine: the tables found on recovery               *)
(* ===================================================================== *)

Section RecoveredTables.

Import LSMTree.

(** One turn of the loop over the names: the directory is not touched, the
    list of levels keeps its length, the readers already there stay, and a
    name that is recognised gets a reader at the end of its level. *)
Lemma recover_file_tables (name : string) (s s' : t) :
  recover_file name s = (Returned tt, s') ->
  dataDir s' = dataDir s
  /\ List.length (levels s') = List.length (levels s)
  /\ (forall l r, In r (level_tables s l) -> In r (level_tables s' l))
  /\ (endsWith name ".sst" = true ->
      forall g1 g2, regex_match name = Some (g1, g2) ->
        (N.to_nat (parseInt g1) < List.length (levels s))%nat
        /\ exists r, SSTableReader.new name (dataDir s) = Returned r
                     /\ In r (level_tables s' (N.to_nat (parseInt g1)))).
Proof.
  unfold recover_file.
  destruct (endsWith name ".sst").
  2:{ intros H; inversion H; subst. repeat split; auto; intros; discriminate. }
  destruct (regex_match name) as [[g1 g2]|].
  2:{ intros H; inversion H; subst. repeat split; auto; intros; discriminate. }
  unfold bind, get_state, lift, push_reader, put_state, ret.
  destruct (SSTableReader.new name (dataDir s)) as [reader|m]; [|discriminate].
  destruct (nth_error (levels s) (N.to_nat (parseInt g1))) as [l|] eqn:El;
    [|discriminate].
  assert (Hin : (N.to_nat (parseInt g1) < List.length (levels s))%nat)
    by (apply nth_error_Some; congruence).
  assert (Hl : level_tables s (N.to_nat (parseInt g1)) = l)
    by (unfold level_tables; now apply nth_error_nth).
  assert (Hafter :
    forall s1, levels s1 = set_nth (N.to_nat (parseInt g1)) (l ++ [reader])
                                   (levels s) ->
               dataDir s1 = dataDir s ->
      dataDir s1 = dataDir s
      /\ List.length (levels s1) = List.length (levels s)
      /\ (forall l0 r, In r (level_tables s l0) -> In r (level_tables s1 l0))
      /\ (true = true ->
          forall h1 h2, Some (g1, g2) = Some (h1, h2) ->
            (N.to_nat (parseInt h1) < List.length (levels s))%nat
            /\ exists r, Returned reader = Returned r
                         /\ In r (level_tables s1 (N.to_nat (parseInt h1))))).
  { intros s1 Hlev Hdir. split; [assumption|]. split.
    - now rewrite Hlev, length_set_nth.
    - split.
      + intros l0 r Hr. unfold level_tables in *. rewrite Hlev.
        destruct (Nat.eq_dec l0 (N.to_nat (parseInt g1))) as [->|Hne].
        * rewrite nth_set_nth_inside by assumption.
          unfold level_tables in Hl. rewrite Hl in Hr.
          apply in_or_app. now left.
        * now rewrite nth_set_nth_other.
      + intros _ h1 h2 Hh. inversion Hh; subst h1 h2. split; [assumption|].
        exists reader. split; [reflexivity|].
        unfold level_tables. rewrite Hlev, nth_set_nth_inside by assumption.
        apply in_or_app. right. now left. }
  simpl. destruct (sstableCounter s <=? parseInt g2)%N;
    intros H; inversion H; subst; apply Hafter; reflexivity.
Qed.

Lemma recover_files_tables (names : list string) :
  forall s s',
    for_each recover_file names s = (Returned tt, s') ->
    dataDir s' = dataDir s
    /\ List.length (levels s') = List.length (levels s)
    /\ (forall l r, In r (level_tables s l) -> In r (level_tables s' l))
    /\ (forall name g1 g2,
          In name names -> endsWith name ".sst" = true ->
          regex_match name = Some (g1, g2) ->
          (N.to_nat (parseInt g1) < List.length (levels s))%nat
          /\ exists r, SSTableReader.new name (dataDir s) = Returned r
                       /\ In r (level_tables s' (N.to_nat (parseInt g1)))).
Proof.
  induction names as [|n names IH]; intros s s' H; simpl in H.
  - inversion H; subst. split; [reflexivity|]. split; [reflexivity|].
    split; [auto|]. intros ? ? ? [].
  - unfold bind in H.
    destruct (recover_file n s) as [[[]|m] s1] eqn:E1; [|discriminate].
    destruct (recover_file_tables _ _ _ E1) as [Hd1 [Hl1 [Hm1 Hn1]]].
    destruct (IH _ _ H) as [Hd2 [Hl2 [Hm2 Hn2]]].
    split; [congruence|]. split; [congruence|]. split; [auto|].
    intros name g1 g2 [<-|Hin] Hends Hmatch.
    + destruct (Hn1 Hends g1 g2 Hmatch) as [Hlt [r [Hr Hin]]].
      split; [assumption|]. exists r. auto.
    + destruct (Hn2 name g1 g2 Hin Hends Hmatch) as [Hlt [r [Hr Hinr]]].
      split; [lia|]. exists r. split; [congruence|assumption].
Qed.

Lemma replay_entries_frame (l : jsmap) :
  forall s s' r,
    for_each replay_entry l s = (r, s') ->
    levels s' = levels s /\ dataDir s' = dataDir s
    /\ maxLevels s' = maxLevels s.
Proof.
  induction l as [|kv l IH]; intros s s' r H; simpl in H.
  - inversion H. auto.
  - unfold bind in H.
    assert (Hstep : forall o s1, replay_entry kv s = (o, s1) ->
              levels s1 = levels s /\ dataDir s1 = dataDir s
              /\ maxLevels s1 = maxLevels s).
    { intros o s1 E1. unfold replay_entry, bind, on_memtable, ret in E1.
      destruct (snd kv);
        match type of E1 with
        | context [?c (memtable s)] => destruct (c (memtable s)) as [[?|?] ?]
        end; inversion E1; auto. }
    destruct (replay_entry kv s) as [[[]|m] s1] eqn:E1.
    + destruct (Hstep _ _ eq_refl) as [H1 [H2 H3]].
      apply IH in H as [H4 [H5 H6]]. repeat split; congruence.
    + inversion H; subst. now apply (Hstep (Thrown m)).
Qed.

(** What a constructor that returns has found. *)
Lemma new_tables (d : disk) (o : options) (s : t) :
  LSMTree.new d o = (Returned tt, s) ->
  dataDir s = WriteAheadLog.new d
  /\ List.length (levels s) = or_default_nat (opt_maxLevels o) 7
  /\ forall name g1 g2,
       In name (readdirSync d) -> endsWith name ".sst" = true ->
       regex_match name = Some (g1, g2) ->
       (N.to_nat (parseInt g1) < or_default_nat (opt_maxLevels o) 7)%nat
       /\ exists r, SSTableReader.new name (dataDir s) = Returned r
                    /\ In r (level_tables s (N.to_nat (parseInt g1))).
Proof.
  intros Hnew. unfold LSMTree.new, _recover, bind, get_state in Hnew.
  destruct (for_each recover_file (readdirSync (dataDir (initial d o)))
                     (initial d o)) as [[[]|m] s1] eqn:E1; [|discriminate].
  apply recover_files_tables in E1 as [Hd1 [Hl1 [_ Hn1]]].
  apply replay_entries_frame in Hnew as [Hl2 [Hd2 _]].
  assert (Hlen : List.length (levels (initial d o))
                 = or_default_nat (opt_maxLevels o) 7)
    by (simpl; apply repeat_length).
  split; [now rewrite Hd2, Hd1|]. split; [congruence|].
  intros name g1 g2 Hin Hends Hmatch.
  destruct (Hn1 name g1 g2) as [Hlt [r [Hr Hinr]]]; auto.
  { simpl. now apply readdirSync_new_log. }
  split; [lia|]. exists r. split.
  - rewrite Hd2, Hd1. exact Hr.
  - unfold level_tables in *. now rewrite Hl2.
Qed.

End RecoveredTables.

(** X22: when the constructor returns, every table file of the directory
    has a reader in the level its name gives, and that reader is the one
    that opens on the file. *)
Theorem recovery_opens_every_table (d : disk) (o : LSMTree.options)
        (s : LSMTree.t) :
  LSMTree.new d o = (Returned tt, s) ->
  forall name g1 g2,
    In name (readdirSync d) -> endsWith name ".sst" = true ->
    regex_match name = Some (g1, g2) ->
    exists r,
      In r (LSMTree.level_tables s (N.to_nat (parseInt g1)))
      /\ SSTableReader.filePath r = name
      /\ SSTableReader.new name (LSMTree.dataDir s) = Returned r.
Proof.
  intros Hnew name g1 g2 Hin Hends Hmatch.
  destruct (new_tables d o s Hnew) as [_ [_ Hall]].
  destruct (Hall name g1 g2 Hin Hends Hmatch) as [_ [r [Hr Hinr]]].
  exists r. split; [assumption|]. split; [|assumption].
  unfold SSTableReader.new in Hr.
  destruct (disk_lookup name (LSMTree.dataDir s)) as [[?|tb|? ?]|];
    try discriminate.
  now inversion Hr.
Qed.

Lemma recovery_opens_every_table_witness :
  fst (LSMTree.new sample_directory LSMTree.no_options) = Returned tt
  /\ forall name g1 g2,
    In name (readdirSync sample_directory) -> endsWith name ".sst" = true ->
    regex_match name = Some (g1, g2) ->
    exists r,
      In r (LSMTree.level_tables
              (snd (LSMTree.new sample_directory LSMTree.no_options))
              (N.to_nat (parseInt g1)))
      /\ SSTableReader.filePath r = name
      /\ SSTableReader.new name
           (LSMTree.dataDir
              (snd (LSMTree.new sample_directory LSMTree.no_options)))
         = Returned r.
Proof.
  split; [reflexivity|].
  apply (recovery_opens_every_table sample_directory LSMTree.no_options).
  vm_compute. reflexivity.
Defined.

(** X23: the constructor throws on a directory that holds a table file
    named for a level the engine does not have, [maxLevels] or beyond. *)
Theorem open_throws_on_level_beyond (d : disk) (o : LSMTree.options)
        (name g1 g2 : string) :
  In name (readdirSync d) -> endsWith name ".sst" = true ->
  regex_match name = Some (g1, g2) ->
  (LSMTree.or_default_nat (LSMTree.opt_maxLevels o) 7
   <= N.to_nat (parseInt g1))%nat ->
  exists msg, fst (LSMTree.new d o) = Thrown msg.
Proof.
  intros Hin Hends Hmatch Hlevel.
  destruct (LSMTree.new d o) as [[[]|msg] s] eqn:Hnew; [|now exists msg].
  destruct (new_tables d o s Hnew) as [_ [_ Hall]].
  destruct (Hall name g1 g2 Hin Hends Hmatch) as [Hlt _]. lia.
Qed.

Lemma open_throws_on_level_beyond_witness :
  exists msg, fst (LSMTree.new sample_directory
                               (LSMTree.mkOptions None None None (Some 1%nat)))
              = Thrown msg.
Proof.
  apply (open_throws_on_level_beyond sample_directory _ "level1_7.sst" "1" "7").
  - vm_compute. tauto.
  - reflexivity.
  - reflexivity.
  - vm_compute. lia.
Defined.

(* ===================================================================== *)
(** * Properties of the engine: range scans                                *)
(* ===================================================================== *)

Section EngineRange.

Import LSMTree.

Variable localeCompare : string -> string -> Z.





Lemma filter_keys_nodup (p : string * value -> bool) (m : jsmap) :
  NoDup (map fst m) -> NoDup (map fst (filter p m)).
Proof.
  induction m as [|kv m IH]; simpl; intros H; [constructor|].
  inversion H as [|? ? Hnin Hnd]; subst.
  destruct (p kv); simpl; [|auto].
  constructor; [|auto]. intros Hin. apply Hnin.
  apply in_map_iff in Hin as [x [Hx Hin]]. apply filter_In in Hin as [Hin _].
  apply in_map_iff. eauto.
Qed.

Lemma sort_insert_perm {A} (cmp : A -> A -> Z) (a : A) (l : list A) :
  Permutation (sort_insert cmp a l) (a :: l).
Proof.
  induction l as [|b l IH]; simpl; [reflexivity|].
  destruct (cmp a b <=? 0); [reflexivity|].
  rewrite IH. apply perm_swap.
Qed.

Lemma array_sort_perm {A} (cmp : A -> A -> Z) (l : list A) :
  Permutation (array_sort cmp l) l.
Proof.
  unfold array_sort. induction l as [|a l IH]; simpl; [reflexivity|].
  rewrite sort_insert_perm. now constructor.
Qed.


End EngineRange.



(* ===================================================================== *)
(** * Properties of the engine: values without JSON text                   *)
(* ===================================================================== *)

Section ValuesWithoutText.

Import LSMTree.

Lemma map_set_in (k : string) (v : value) (m : jsmap) :
  In (k, v) (map_set k v m).
Proof.
  induction m as [|[k' v'] m IH]; simpl; [now left|].
  destruct (String.eqb k' k); [now left|now right].
Qed.

Lemma replay_entry_throws (k : string) (s : t) :
  exists msg, replay_entry (k, VUndefined) s = (Thrown msg, s).
Proof.
  unfold replay_entry, bind, on_memtable. simpl.
  eexists. now destruct s.
Qed.

Lemma replay_entries_throw (k : string) (l : jsmap) :
  In (k, VUndefined) l ->
  forall s, exists msg s', for_each replay_entry l s = (Thrown msg, s').
Proof.
  induction l as [|kv l IH]; intros Hin s; [destruct Hin|].
  simpl. unfold bind.
  destruct Hin as [->|Hin].
  - destruct (replay_entry_throws k s) as [msg ->]. eauto.
  - destruct (replay_entry kv s) as [[[]|m] s1]; [apply IH; assumption|eauto].
Qed.

End ValuesWithoutText.

(** X25: [set(k, v)] with a value that [JSON.stringify] has no text for,
    [undefined] or [Symbol.for('TOMBSTONE')], throws after the record was
    appended to the log: the MemTable, the levels and the counter are as
    before and, the log being one that a newline ends, it holds a SET
    record without value, on which the constructor throws when it opens the
    directory left behind. *)
Theorem set_without_json_text
        (localeCompare : string -> string -> Z) (s : LSMTree.t)
        (k : string) (v : value) (o : LSMTree.options) :
  v = VUndefined \/ v = VSymbol TOMBSTONE ->
  log_terminated (LSMTree.dataDir s) = true ->
  exists msg s',
    LSMTree.set localeCompare k v s = (Thrown msg, s')
    /\ s' = LSMTree.with_dataDir
              (WriteAheadLog._appendEntry (LogRecord "SET" k VUndefined)
                                          (LSMTree.dataDir s)) s
    /\ exists msg', fst (LSMTree.new (LSMTree.dataDir s') o) = Thrown msg'.
Proof.
  intros Hv Hterm.
  assert (Hset : LSMTree.set localeCompare k v s
                 = (Thrown "TypeError: Cannot read properties of undefined (reading 'length')",
                    LSMTree.with_dataDir
                      (WriteAheadLog._appendEntry (LogRecord "SET" k VUndefined)
                                                  (LSMTree.dataDir s)) s)).
  { unfold LSMTree.set, bind, LSMTree.on_dataDir, LSMTree.on_memtable,
      WriteAheadLog.logSet, MemTable.set.
    destruct Hv as [-> | ->]; simpl; now destruct s. }
  do 2 eexists. split; [exact Hset|]. split; [reflexivity|].
  cbn [LSMTree.dataDir LSMTree.with_dataDir].
  set (d := WriteAheadLog._appendEntry (LogRecord "SET" k VUndefined)
                                       (LSMTree.dataDir s)).
  destruct (LSMTree.new d o) as [[[]|msg'] s1] eqn:Hnew; [|now exists msg'].
  exfalso. unfold LSMTree.new, LSMTree._recover, bind, get_state in Hnew.
  destruct (for_each LSMTree.recover_file
                     (readdirSync (LSMTree.dataDir (LSMTree.initial d o)))
                     (LSMTree.initial d o)) as [[[]|m] s2] eqn:E1;
    [|discriminate].
  apply recover_files_tables in E1 as [Hd _].
  rewrite Hd in Hnew. simpl in Hnew. rewrite recover_new in Hnew.
  unfold d in Hnew. rewrite recover_append in Hnew by exact Hterm.
  simpl in Hnew.
  destruct (replay_entries_throw k _
              (map_set_in k VUndefined
                 (WriteAheadLog.recover (LSMTree.dataDir s))) s2)
    as [msg [s3 Hthrow]].
  rewrite Hthrow in Hnew. discriminate.
Qed.

Lemma set_without_json_text_witness :
  exists msg s',
    LSMTree.set (fun _ _ => 0) "k" VUndefined sample_engine = (Thrown msg, s')
    /\ s' = LSMTree.with_dataDir
              (WriteAheadLog._appendEntry (LogRecord "SET" "k" VUndefined)
                                          (LSMTree.dataDir sample_engine))
              sample_engine
    /\ exists msg',
         fst (LSMTree.new (LSMTree.dataDir s') LSMTree.no_options)
         = Thrown msg'.
Proof. apply set_without_json_text; [now left|reflexivity]. Defined.

(** X26: the name that flush and compaction give a table from a level and
    a sequence number below 2^53 is recognised by recovery, which reads
    back from it the level and the sequence number the name was made
    from. *)
Theorem table_name_is_recognised (level : nat) (seq : N) :
  (N.of_nat level < safe_bound)%N ->
  (seq < safe_bound)%N ->
  endsWith (table_name level seq) ".sst" = true
  /\ exists g1 g2,
       regex_match (table_name level seq) = Some (g1, g2)
       /\ N.to_nat (parseInt g1) = level /\ parseInt g2 = seq.
Proof.
  intros Hlevel Hseq.
  destruct (regex_match_table_name level seq Hseq) as [Hends Hmatch].
  split; [exact Hends|]. do 2 eexists. split; [exact Hmatch|].
  rewrite !parseInt_decimal by assumption.
  split; [apply Nat2N.id|reflexivity].
Qed.

Lemma table_name_is_recognised_witness :
  endsWith (table_name 3 9007199254740991) ".sst" = true
  /\ exists g1 g2,
       regex_match (table_name 3 9007199254740991) = Some (g1, g2)
       /\ N.to_nat (parseInt g1) = 3%nat
       /\ parseInt g2 = 9007199254740991%N.
Proof. apply table_name_is_recognised; reflexivity. Defined.

(* ===================================================================== *)
(** * Properties of the engine: what a compaction keeps                    *)
(* ===================================================================== *)

Section CompactionMerge.

Import LSMTree.

Lemma merge_newer_stream (tables : list SSTableReader.t) :
  forall m, fold_left merge_newer tables m
            = fold_left set_entry (flat_map SSTableReader.iterate tables) m.
Proof.
  induction tables as [|r tables IH]; intros m; [reflexivity|].
  simpl. now rewrite fold_left_app, IH.
Qed.

Lemma merge_older_stream (tables : list SSTableReader.t) :
  forall m, fold_left merge_older tables m
            = fold_left add_entry (flat_map SSTableReader.iterate tables) m.
Proof.
  induction tables as [|r tables IH]; intros m; [reflexivity|].
  simpl. now rewrite fold_left_app, IH.
Qed.

Lemma map_get_absent (k : string) (m : jsmap) :
  map_has k m = false -> map_get k m = VUndefined.
Proof.
  induction m as [|[k0 v0] m IH]; simpl; [reflexivity|].
  destruct (String.eqb k0 k); [discriminate|exact IH].
Qed.

(** What the map holds for a key after the entries of a stream were set. *)
Lemma set_stream (k : string) (es : list entry) :
  forall m,
    map_has k (fold_left set_entry es m)
    = (if last_value k es is Some _ then true else false) || map_has k m
    /\ map_get k (fold_left set_entry es m)
       = match last_value k es with
         | Some v => v
         | None => map_get k m
         end.
Proof.
  induction es as [|e es IH]; intros m; [now split|].
  simpl. destruct (IH (set_entry m e)) as [Hhas Hget].
  rewrite Hhas, Hget. unfold set_entry.
  rewrite map_has_set, map_get_set, (String.eqb_sym k (key e)).
  destruct (last_value k es); [now split|].
  destruct (String.eqb (key e) k); now split.
Qed.

(** What the map holds for a key after the entries of a stream were added
    where the key was missing. *)
Lemma add_stream (k : string) (es : list entry) :
  forall m,
    map_has k (fold_left add_entry es m)
    = map_has k m || (if first_value k es is Some _ then true else false)
    /\ map_get k (fold_left add_entry es m)
       = if map_has k m then map_get k m
         else match first_value k es with
              | Some v => v
              | None => VUndefined
              end.
Proof.
  induction es as [|e es IH]; intros m.
  - simpl. rewrite orb_false_r. split; [reflexivity|].
    destruct (map_has k m) eqn:E; [reflexivity|now apply map_get_absent].
  - simpl. destruct (IH (add_entry m e)) as [Hhas Hget].
    rewrite Hhas, Hget. unfold add_entry.
    destruct (map_has (key e) m) eqn:Ee.
    + destruct (String.eqb (key e) k) eqn:Ek.
      * apply String.eqb_eq in Ek. subst k. rewrite Ee. now split.
      * now split.
    + rewrite map_has_set, map_get_set, (String.eqb_sym k (key e)).
      destruct (String.eqb (key e) k) eqn:Ek.
      * apply String.eqb_eq in Ek. subst k. rewrite Ee. now split.
      * now split.
Qed.

Lemma add_stream_nodup (es : list entry) :
  forall m, NoDup (map fst m) -> NoDup (map fst (fold_left add_entry es m)).
Proof.
  induction es as [|e es IH]; intros m H; [exact H|].
  simpl. apply IH. unfold add_entry.
  destruct (map_has (key e) m); [exact H|now apply map_set_nodup].
Qed.

Lemma set_stream_nodup (es : list entry) :
  forall m, NoDup (map fst m) -> NoDup (map fst (fold_left set_entry es m)).
Proof.
  induction es as [|e es IH]; intros m H; [exact H|].
  simpl. apply IH. now apply map_set_nodup.
Qed.

Lemma map_in_get (k : string) (v : value) (m : jsmap) :
  NoDup (map fst m) ->
  (In (k, v) m <-> map_has k m = true /\ map_get k m = v).
Proof.
  induction m as [|[k0 v0] m IH]; simpl; intros H.
  - intuition discriminate.
  - inversion H as [|? ? Hnin Hnd]; subst.
    destruct (String.eqb k0 k) eqn:E.
    + apply String.eqb_eq in E. subst k0. split.
      * intros [Heq|Hin]; [inversion Heq; auto|].
        exfalso. apply Hnin. apply in_map_iff. now exists (k, v).
      * intros [_ ->]. now left.
    + rewrite <- (IH Hnd). split; [|tauto].
      intros [Heq|Hin]; [|assumption].
      inversion Heq; subst. now rewrite String.eqb_refl in E.
Qed.

(** The map that the compaction builds from the two levels. *)
Lemma merged_map (level : nat) (s : t) (k : string) (v : value) :
  let m := fold_left merge_older (level_tables s (level + 1))
             (fold_left merge_newer (level_tables s level) []) in
  NoDup (map fst m)
  /\ (In (k, v) m <-> newest_value level s k = Some v).
Proof.
  intros m.
  assert (Hnd : NoDup (map fst m)).
  { unfold m. rewrite merge_older_stream, merge_newer_stream.
    apply add_stream_nodup, set_stream_nodup. constructor. }
  split; [exact Hnd|].
  rewrite (map_in_get k v m Hnd). unfold m, newest_value.
  rewrite merge_older_stream, merge_newer_stream.
  destruct (add_stream k (flat_map SSTableReader.iterate
                                   (level_tables s (level + 1)))
              (fold_left set_entry
                 (flat_map SSTableReader.iterate (level_tables s level)) []))
    as [Hhas Hget].
  destruct (set_stream k (flat_map SSTableReader.iterate
                                   (level_tables s level)) [])
    as [Hhas0 Hget0].
  rewrite Hhas, Hget, Hhas0, Hget0. simpl.
  destruct (last_value k _) as [v1|]; simpl.
  - split; [intros [_ ->]; reflexivity|intros H; inversion H; auto].
  - destruct (first_value k _) as [v2|]; simpl.
    + split; [intros [_ ->]; reflexivity|intros H; inversion H; auto].
    + split; [intros [H _]; discriminate|discriminate].
Qed.

End CompactionMerge.

(** The entries that a compaction hands to the writer. *)
Lemma merged_entries_newest
        (localeCompare : string -> string -> Z) (level : nat)
        (s : LSMTree.t) :
  NoDup (map key (merged_entries localeCompare level s))
  /\ forall e,
       In e (merged_entries localeCompare level s)
       <-> newest_value level s (key e) = Some (evalue e)
           /\ ((Z.of_nat level + 1 =? Z.of_nat (LSMTree.maxLevels s) - 1)
               && is_symbol TOMBSTONE (evalue e) = false).
Proof.
  unfold merged_entries.
  set (m := fold_left LSMTree.merge_older (LSMTree.level_tables s (level + 1))
              (fold_left LSMTree.merge_newer (LSMTree.level_tables s level) [])).
  split.
  - rewrite (Permutation_map key (array_sort_perm _ _)), map_map. simpl.
    change (fun x : string * value => fst x) with (@fst string value).
    apply filter_keys_nodup. apply (merged_map level s "" VUndefined).
  - intros [k v]. rewrite array_sort_in. simpl. split.
    + intros Hin. apply in_map_iff in Hin as [kv [Heq Hin]].
      apply filter_In in Hin as [Hin Hkeep].
      destruct kv as [k' v']. simpl in Heq. inversion Heq; subst k' v'.
      split.
      * now apply (merged_map level s k v).
      * simpl in Hkeep. now apply negb_true_iff in Hkeep.
    + intros [Hnew Hkeep]. apply in_map_iff. exists (k, v).
      split; [reflexivity|]. apply filter_In. split.
      * now apply (merged_map level s k v).
      * simpl. now apply negb_true_iff.
Qed.

(** X27: on a consistent engine whose counter gives a name that is free, a
    compaction of a level above the deepest one that returns leaves in the
    next level the stored form of one entry for every key that a table of
    the level or of the next level held, with the value of the newest table
    that held the key: the last such table of the level in the order of its
    list, else the first such table of the next level. When the next level
    is the deepest, the keys whose newest value is the tombstone
    [Symbol.for('TOMBSTONE')] are left out. No key is written twice, and
    the engine left is consistent: the file of the table is in the
    directory as its reader holds it. *)
Theorem compaction_keeps_newest
        (localeCompare : string -> string -> Z) (level : nat)
        (s s' : LSMTree.t) :
  Z.of_nat level < Z.of_nat (LSMTree.maxLevels s) - 1 ->
  (level + 1 < List.length (LSMTree.levels s))%nat ->
  consistent s ->
  ~ In (table_name (level + 1) (LSMTree.sstableCounter s))
       (readdirSync (LSMTree.dataDir s)) ->
  LSMTree._compactLevel localeCompare level s = (Returned tt, s') ->
  consistent s'
  /\ exists es,
    flat_map SSTableReader.iterate (LSMTree.level_tables s' (level + 1))
    = map (fun e => read_back (stored (SSTableWriter.convert e))) es
    /\ NoDup (map key es)
    /\ forall e,
         In e es
         <-> newest_value level s (key e) = Some (evalue e)
             /\ ((Z.of_nat level + 1 =? Z.of_nat (LSMTree.maxLevels s) - 1)
                 && is_symbol TOMBSTONE (evalue e) = false).
Proof.
  intros Hguard Hlen Hcons Hfree Hret.
  split; [exact (compact_consistent localeCompare level s s'
                   Hguard Hlen Hcons Hfree Hret)|].
  apply compact_result in Hret as [d' [tables [-> [Htables _]]]];
    [|assumption].
  exists (merged_entries localeCompare level s).
  split; [|apply merged_entries_newest].
  unfold LSMTree.level_tables.
  cbn [LSMTree.levels LSMTree.with_dataDir LSMTree.with_levels
       LSMTree.with_counter].
  unfold compacted_levels.
  rewrite nth_set_nth_other by lia.
  rewrite nth_set_nth_inside by assumption.
  destruct Htables as [[-> ->]| ->]; [reflexivity|].
  cbn [flat_map]. rewrite app_nil_r.
  unfold written_reader. apply iterate_written.
Qed.

Lemma compaction_keeps_newest_witness :
  let s := snd (LSMTree.new two_flushes two_levels) in
  let s' := snd (LSMTree._compactLevel (fun _ _ => 0) 0 s) in
  consistent s'
  /\ exists es,
    flat_map SSTableReader.iterate (LSMTree.level_tables s' (0 + 1))
    = map (fun e => read_back (stored (SSTableWriter.convert e))) es
    /\ NoDup (map key es)
    /\ forall e,
         In e es
         <-> newest_value 0 s (key e) = Some (evalue e)
             /\ ((Z.of_nat 0 + 1 =? Z.of_nat (LSMTree.maxLevels s) - 1)
                 && is_symbol TOMBSTONE (evalue e) = false).
Proof.
  intros s s'.
  apply (compaction_keeps_newest (fun _ _ => 0) 0 s s').
  - vm_compute. reflexivity.
  - vm_compute. lia.
  - consistent_by_computation.
  - vm_compute. intuition discriminate.
  - vm_compute. reflexivity.
Defined.

(* ===================================================================== *)
(** * Properties of the engine: the sequence counter                      *)
(* ===================================================================== *)

Section SequenceCounter.

Import LSMTree.

Variable localeCompare : string -> string -> Z.

Lemma advanced_refl (b : N) (s : t) : advanced b s s.
Proof. intros _. split; [apply N.le_refl|auto]. Qed.

Lemma advanced_trans (b : N) (s s1 s2 : t) :
  advanced b s s1 -> advanced b s1 s2 -> advanced b s s2.
Proof.
  intros H1 H2 Hsafe.
  destruct (H2 Hsafe) as [Hle2 Hn2].
  destruct H1 as [Hle1 Hn1]; [lia|].
  split; [lia|]. intros name Hin.
  destruct (Hn2 name Hin) as [Hin1|[->|[level [seq [-> [Hb Hs]]]]]]; auto.
  - destruct (Hn1 name Hin1) as [Hin0|[->|[level [seq [-> [Hb Hs]]]]]]; auto.
    right. right. exists level, seq. repeat split; [assumption|lia].
  - right. right. exists level, seq. auto.
Qed.

Lemma quiet_tame_at {A} (b : N) (m : method t A) : quiet m -> tame_at b m.
Proof.
  intros Hq s r s' Hm _ _. destruct (Hq s r s' Hm) as [Hc Hn].
  split; [lia|]. intros name Hin. destruct (Hn name Hin); auto.
Qed.

Lemma quiet_tame {A} (m : method t A) : quiet m -> tame m.
Proof.
  intros Hq s r s' Hm _. destruct (Hq s r s' Hm) as [Hc Hn].
  split; [lia|]. intros name Hin. destruct (Hn name Hin); auto.
Qed.

Lemma tame_tame_at {A} (b : N) (m : method t A) : tame m -> tame_at b m.
Proof.
  intros Ht s r s' Hm Hpre Hsafe.
  destruct (Ht s r s' Hm Hsafe) as [Hle Hn].
  split; [exact Hle|]. intros name Hin.
  destruct (Hn name Hin) as [H|[H|[level [seq [-> [Hb Hs]]]]]]; auto.
  right. right. exists level, seq. repeat split; [|exact Hs].
  assert (b < sstableCounter s)%N by (apply Hpre; lia). lia.
Qed.

Lemma tame_at_bind {A B} (b : N) (c : method t A) (k : A -> method t B) :
  tame_at b c -> (forall a, tame_at b (k a)) -> tame_at b (bind c k).
Proof.
  intros Hc Hk s r s' Hm Hpre. unfold bind in Hm.
  destruct (c s) as [[a|msg] s1] eqn:Ec.
  - pose proof (Hc s _ s1 Ec Hpre) as H1.
    apply (advanced_trans b s s1 s'); [exact H1|].
    apply (Hk a s1 r s' Hm). intros Hsafe1.
    destruct (H1 Hsafe1) as [Hle _].
    assert (b < sstableCounter s)%N by (apply Hpre; lia). lia.
  - inversion Hm; subst. now apply (Hc s _ s' Ec).
Qed.

Lemma tame_bind {A B} (c : method t A) (k : A -> method t B) :
  tame c -> (forall a, tame (k a)) -> tame (bind c k).
Proof.
  intros Hc Hk s r s' Hm. unfold bind in Hm.
  destruct (c s) as [[a|msg] s1] eqn:Ec.
  - pose proof (Hc s _ s1 Ec) as H1. pose proof (Hk a s1 r s' Hm) as H2.
    intros Hsafe. destruct (H2 Hsafe) as [Hle2 Hn2].
    destruct H1 as [Hle1 Hn1]; [lia|].
    split; [lia|]. intros name Hin.
    destruct (Hn2 name Hin) as [Hin1|[->|[level [seq [-> [Hb Hs]]]]]]; auto.
    + destruct (Hn1 name Hin1) as [Hin0|[->|[level [seq [-> [Hb Hs]]]]]];
        auto.
      right. right. exists level, seq. repeat split; [assumption|lia].
    + right. right. exists level, seq. repeat split; [lia|assumption].
  - inversion Hm; subst. now apply (Hc s _ s' Ec).
Qed.

Lemma quiet_bind {A B} (c : method t A) (k : A -> method t B) :
  quiet c -> (forall a, quiet (k a)) -> quiet (bind c k).
Proof.
  intros Hc Hk s r s' Hm. unfold bind in Hm.
  destruct (c s) as [[a|msg] s1] eqn:Ec.
  - destruct (Hc s _ s1 Ec) as [Hc1 Hn1].
    destruct (Hk a s1 r s' Hm) as [Hc2 Hn2].
    split; [congruence|]. intros name Hin.
    destruct (Hn2 name Hin) as [H|H]; auto.
  - inversion Hm; subst. now apply (Hc s _ s' Ec).
Qed.

Lemma quiet_ret {A} (a : A) : quiet (ret a : method t A).
Proof. intros s r s' H. inversion H; subst. auto. Qed.

Lemma quiet_get_state : quiet (get_state : method t t).
Proof. intros s r s' H. inversion H; subst. auto. Qed.

Lemma quiet_lift {A} (o : outcome A) : quiet (lift o).
Proof. intros s r s' H. inversion H; subst. auto. Qed.

Lemma quiet_on_memtable {A} (c : method MemTable.t A) : quiet (on_memtable c).
Proof.
  intros s r s' H. unfold on_memtable in H.
  destruct (c (memtable s)) as [o m]. inversion H; subst. auto.
Qed.

Lemma quiet_push_reader (level : nat) (reader : SSTableReader.t) :
  quiet (push_reader level reader).
Proof.
  intros s r s' H. unfold push_reader in H.
  destruct (nth_error (levels s) level); inversion H; subst; auto.
Qed.

Lemma quiet_assign_level (level : nat) (l : list SSTableReader.t) :
  quiet (assign_level level l).
Proof. intros s r s' H. inversion H; subst. auto. Qed.

Lemma quiet_unlink (name : string) : quiet (on_dataDir (unlinkSync name)).
Proof.
  intros s r s' H. unfold on_dataDir, unlinkSync in H.
  destruct (disk_lookup name (dataDir s)); inversion H; subst; simpl.
  - split; [reflexivity|]. intros x Hx. left. now apply disk_remove_names in Hx.
  - auto.
Qed.

Lemma quiet_new_log :
  quiet (on_dataDir (fun d => (Returned tt, WriteAheadLog.new d))).
Proof.
  intros s r s' H. unfold on_dataDir in H. inversion H; subst. simpl.
  split; [reflexivity|]. intros x Hx.
  apply new_log_names in Hx. tauto.
Qed.

Lemma append_names (line : wal_line) (d : disk) :
  forall x, In x (readdirSync (WriteAheadLog._appendEntry line d)) ->
            x = WriteAheadLog.logPath \/ In x (readdirSync d).
Proof.
  intros x. unfold WriteAheadLog._appendEntry.
  destruct (disk_lookup WriteAheadLog.logPath d) as [[ls|tb|ls tl]|];
    now rewrite disk_write_names.
Qed.

Lemma quiet_append (line : wal_line) :
  quiet (on_dataDir
           (fun d => (Returned tt, WriteAheadLog._appendEntry line d))).
Proof.
  intros s r s' H. unfold on_dataDir in H. inversion H; subst. simpl.
  split; [reflexivity|]. intros x Hx.
  apply append_names in Hx. tauto.
Qed.

Lemma quiet_for_each {A} (f : A -> method t unit) (l : list A) :
  (forall a, quiet (f a)) -> quiet (for_each f l).
Proof.
  intros Hf. induction l as [|a l IH]; simpl.
  - apply quiet_ret.
  - apply quiet_bind; [apply Hf|intros _; exact IH].
Qed.

(** The table that is written takes the name made from [b]. *)
Lemma tame_at_write (b : N) (level blockSize : nat) (es : list entry) :
  tame_at b (on_dataDir (SSTableWriter.write blockSize (table_name level b) es)).
Proof.
  intros s r s' H Hpre Hsafe. unfold on_dataDir, SSTableWriter.write in H.
  destruct (map SSTableWriter.convert es); inversion H; subst; simpl in *.
  - split; [lia|auto].
  - split; [lia|]. intros name Hin. apply disk_write_names in Hin as [->|Hin].
    + right. right. exists level, b. repeat split; [lia|auto].
    + now left.
Qed.

(** The MemTable is replaced: neither the counter nor the directory is
    touched. *)
Lemma tame_at_reset {A} (b : N) (f : t -> MemTable.t) (rest : method t A) :
  tame_at b rest ->
  tame_at b (bind get_state
               (fun s => bind (put_state (with_memtable (f s) s))
                              (fun _ => rest))).
Proof.
  intros Hrest s r s' H Hpre. unfold bind, get_state, put_state in H.
  intros Hsafe.
  destruct (Hrest (with_memtable (f s) s) r s' H Hpre Hsafe) as [Hle Hn].
  split; [exact Hle|exact Hn].
Qed.

(** A sequence number is taken, and what follows names its table from
    it. *)
Lemma tame_fresh {A} (body : N -> method t A) :
  (forall seq, tame_at seq (body seq)) -> tame (bind next_counter body).
Proof.
  intros Hbody s r s' H. unfold bind, next_counter in H.
  set (c := sstableCounter s) in *.
  assert (Hadv : advanced c (with_counter (increment c) s) s').
  { apply (Hbody c _ r s' H). cbn [sstableCounter with_counter].
    intros Hsafe. rewrite (increment_safe c Hsafe). lia. }
  intros Hsafe. destruct (Hadv Hsafe) as [Hle Hn].
  cbn [sstableCounter with_counter dataDir] in *.
  split; [|exact Hn].
  assert (Hinc : (increment c < safe_bound)%N) by lia.
  rewrite (increment_safe c Hinc) in Hle. lia.
Qed.

Lemma compact_tame (level : nat) : tame (_compactLevel localeCompare level).
Proof.
  intros s r s' H. unfold _compactLevel in H.
  unfold bind at 1, get_state at 1 in H.
  destruct (Z.of_nat (maxLevels s) - 1 <=? Z.of_nat level).
  - inversion H; subst. apply advanced_refl.
  - cbv zeta in H. revert H. apply tame_fresh. intros seq.
    apply tame_at_bind; [|intros _].
    { match goal with
      | |- tame_at _ (match ?es with _ => _ end) => destruct es
      end.
      - apply quiet_tame_at, quiet_assign_level.
      - apply tame_at_bind; [apply tame_at_write|intros _].
        apply quiet_tame_at.
        apply quiet_bind; [apply quiet_get_state|intros s1].
        apply quiet_bind; [apply quiet_lift|intros reader].
        apply quiet_assign_level. }
    apply quiet_tame_at.
    apply quiet_bind; [apply quiet_assign_level|intros _].
    apply quiet_bind; [|intros _];
      apply quiet_for_each; intros a; apply quiet_unlink.
Qed.

Lemma flush_tame : tame (_flushMemtable localeCompare).
Proof.
  unfold _flushMemtable. apply tame_fresh. intros seq. cbv zeta.
  apply tame_at_bind; [apply quiet_tame_at, quiet_get_state|intros s0].
  apply tame_at_bind; [apply tame_at_write|intros _].
  apply tame_at_bind; [apply quiet_tame_at, quiet_get_state|intros s1].
  apply tame_at_bind; [apply quiet_tame_at, quiet_lift|intros reader].
  apply tame_at_bind; [apply quiet_tame_at, quiet_push_reader|intros _].
  apply (tame_at_reset seq (fun s => MemTable.new (memtableMaxSize s))).
  apply tame_at_bind; [apply quiet_tame_at, quiet_unlink|intros _].
  apply tame_at_bind; [apply quiet_tame_at, quiet_new_log|intros _].
  apply tame_at_bind; [apply quiet_tame_at, quiet_get_state|intros s2].
  destruct (level0MaxFiles s2 <=? Z.of_nat (List.length (level_tables s2 0))).
  - apply tame_tame_at, compact_tame.
  - apply quiet_tame_at, quiet_ret.
Qed.

Lemma set_tame (k : string) (v : value) : tame (set localeCompare k v).
Proof.
  unfold set.
  apply tame_bind; [apply quiet_tame, quiet_append|intros _].
  apply tame_bind; [apply quiet_tame, quiet_on_memtable|intros flag].
  apply tame_bind; [|intros _; apply quiet_tame, quiet_ret].
  destruct flag; [apply flush_tame|apply quiet_tame, quiet_ret].
Qed.

Lemma delete_tame (k : string) : tame (delete localeCompare k).
Proof.
  unfold delete.
  apply tame_bind; [apply quiet_tame, quiet_append|intros _].
  apply tame_bind; [apply quiet_tame, quiet_on_memtable|intros flag].
  apply tame_bind; [|intros _; apply quiet_tame, quiet_ret].
  destruct flag; [apply flush_tame|apply quiet_tame, quiet_ret].
Qed.

Lemma call_advanced (s : t) (c : engine_call) :
  advanced (sstableCounter s) s (after_engine_call localeCompare s c).
Proof.
  destruct c as [k v|k| |level]; simpl.
  - destruct (set localeCompare k v s) as [r s'] eqn:E.
    exact (set_tame k v s r s' E).
  - destruct (delete localeCompare k s) as [r s'] eqn:E.
    exact (delete_tame k s r s' E).
  - destruct (_flushMemtable localeCompare s) as [r s'] eqn:E.
    exact (flush_tame s r s' E).
  - destruct (_compactLevel localeCompare level s) as [r s'] eqn:E.
    exact (compact_tame level s r s' E).
Qed.

Lemma calls_advanced (calls : list engine_call) :
  forall s,
    advanced (sstableCounter s) s
             (fold_left (after_engine_call localeCompare) calls s).
Proof.
  induction calls as [|c calls IH]; intros s; [apply advanced_refl|].
  simpl. intros Hsafe.
  pose proof (IH (after_engine_call localeCompare s c) Hsafe) as [Hle2 Hn2].
  destruct (call_advanced s c) as [Hle1 Hn1]; [lia|].
  split; [lia|]. intros name Hin.
  destruct (Hn2 name Hin) as [Hin1|[->|[level [seq [-> [Hb Hs]]]]]]; auto.
  - destruct (Hn1 name Hin1) as [Hin0|[->|[level [seq [-> [Hb Hs]]]]]]; auto.
    right. right. exists level, seq. repeat split; [assumption|lia].
  - right. right. exists level, seq. repeat split; [lia|assumption].
Qed.

(** Below 2^53 the name of a table tells its sequence number. *)
Lemma table_name_sequence (level level' : nat) (seq seq' : N) :
  (seq < safe_bound)%N -> (seq' < safe_bound)%N ->
  table_name level seq = table_name level' seq' -> seq = seq'.
Proof.
  intros H H' Heq.
  destruct (regex_match_table_name level seq H) as [_ Hm].
  destruct (regex_match_table_name level' seq' H') as [_ Hm'].
  rewrite Heq, Hm' in Hm. injection Hm as _ Hd.
  apply (f_equal digits_value) in Hd.
  now rewrite !digits_value_decimal in Hd.
Qed.

Lemma advanced_fresh (s s' : t) :
  advanced (sstableCounter s) s s' -> fresh_from s ->
  (sstableCounter s' < safe_bound)%N -> fresh_from s'.
Proof.
  intros Hadv Hfresh Hsafe level seq Hle Hseq Hin.
  destruct (Hadv Hsafe) as [Hmono Hnames].
  destruct (Hnames _ Hin) as [Hold|[Hlog|[l [q [Heq [Hb Hq]]]]]].
  - apply (Hfresh level seq); [lia|assumption|assumption].
  - symmetry in Hlog. now apply table_name_not_log in Hlog.
  - apply table_name_sequence in Heq; [lia|assumption|lia].
Qed.

(** ** The counter after recovery *)

Lemma recover_file_counter (name : string) (s s' : t) (r : outcome unit) :
  recover_file name s = (r, s') ->
  (endsWith name ".sst" = true ->
   forall g1 g2, regex_match name = Some (g1, g2) ->
                 (digits_value g2 < safe_bound)%N) ->
  (sstableCounter s <= sstableCounter s')%N
  /\ (r = Returned tt -> endsWith name ".sst" = true ->
      forall g1 g2, regex_match name = Some (g1, g2) ->
                    (digits_value g2 < sstableCounter s')%N).
Proof.
  unfold recover_file.
  destruct (endsWith name ".sst").
  2:{ intros H _; inversion H; subst. split; [lia|discriminate]. }
  destruct (regex_match name) as [[g1 g2]|].
  2:{ intros H _; inversion H; subst. split; [lia|discriminate]. }
  intros H Hsafe. specialize (Hsafe eq_refl g1 g2 eq_refl).
  rewrite (parseInt_safe g2 Hsafe) in H.
  rewrite (increment_exact _ Hsafe) in H.
  revert H.
  unfold bind, get_state, lift, push_reader, put_state, ret.
  destruct (SSTableReader.new name (dataDir s)) as [reader|m].
  2:{ intros H; inversion H; subst. split; [lia|discriminate]. }
  destruct (nth_error (levels s) (N.to_nat (parseInt g1))) as [l|].
  2:{ intros H; inversion H; subst. split; [lia|discriminate]. }
  simpl. destruct (sstableCounter s <=? digits_value g2)%N eqn:E;
    intros H; inversion H; subst; simpl.
  - apply N.leb_le in E. split; [lia|].
    intros _ _ h1 h2 Hg. inversion Hg; subst. lia.
  - apply N.leb_gt in E. split; [lia|].
    intros _ _ h1 h2 Hg. inversion Hg; subst. lia.
Qed.

Lemma recover_files_counter (names : list string) :
  forall s s',
    for_each recover_file names s = (Returned tt, s') ->
    (forall name g1 g2,
        In name names -> endsWith name ".sst" = true ->
        regex_match name = Some (g1, g2) ->
        (digits_value g2 < safe_bound)%N) ->
    (sstableCounter s <= sstableCounter s')%N
    /\ forall name g1 g2,
         In name names -> endsWith name ".sst" = true ->
         regex_match name = Some (g1, g2) ->
         (digits_value g2 < sstableCounter s')%N.
Proof.
  induction names as [|n names IH]; intros s s' H Hsafe; simpl in H.
  - inversion H; subst. split; [lia|]. intros ? ? ? [].
  - unfold bind in H.
    destruct (recover_file n s) as [[[]|m] s1] eqn:E1; [|discriminate].
    destruct (recover_file_counter _ _ _ _ E1) as [Hle Hn].
    { intros Hends g1 g2 Hm. apply (Hsafe n g1 g2); auto. now left. }
    destruct (IH _ _ H) as [Hle' Hnames].
    { intros name g1 g2 Hin. apply Hsafe. now right. }
    split; [lia|].
    intros name g1 g2 [<-|Hin] Hends Hmatch.
    + specialize (Hn eq_refl Hends g1 g2 Hmatch). lia.
    + eauto.
Qed.

Lemma sequence_numbers_safe_spec (d : disk) :
  sequence_numbers_safe d = true ->
  forall name g1 g2,
    In name (readdirSync d) -> endsWith name ".sst" = true ->
    regex_match name = Some (g1, g2) ->
    (digits_value g2 < safe_bound)%N.
Proof.
  unfold sequence_numbers_safe. rewrite forallb_forall.
  intros H name g1 g2 Hin Hends Hm. specialize (H name Hin).
  rewrite Hends, Hm in H. now apply N.ltb_lt.
Qed.

(** The counter of an engine that has opened a directory. *)
Lemma new_counter (d : disk) (o : options) (s : t) :
  LSMTree.new d o = (Returned tt, s) ->
  sequence_numbers_safe d = true ->
  (forall name g1 g2,
      In name (readdirSync d) -> endsWith name ".sst" = true ->
      regex_match name = Some (g1, g2) ->
      (digits_value g2 < sstableCounter s)%N)
  /\ fresh_from s.
Proof.
  intros Hnew Hsafe.
  pose proof (sequence_numbers_safe_spec d Hsafe) as Hsafe'.
  destruct (new_tables d o s Hnew) as [Hdir _].
  assert (Hnames : forall name, In name (readdirSync (WriteAheadLog.new d)) ->
             name = WriteAheadLog.logPath \/ In name (readdirSync d))
    by apply new_log_names.
  assert (Hseq : forall name g1 g2,
             In name (readdirSync d) -> endsWith name ".sst" = true ->
             regex_match name = Some (g1, g2) ->
             (digits_value g2 < sstableCounter s)%N).
  { unfold LSMTree.new, _recover, bind, get_state in Hnew.
    destruct (for_each recover_file (readdirSync (dataDir (initial d o)))
                       (initial d o)) as [[[]|m] s1] eqn:E1; [|discriminate].
    apply recover_files_counter in E1 as [_ Hall].
    - apply replay_entries_counter in Hnew. rewrite Hnew.
      intros name g1 g2 Hin. apply Hall. simpl.
      now apply readdirSync_new_log.
    - simpl. intros name g1 g2 Hin Hends Hm.
      destruct (Hnames name Hin) as [->|Hin']; [discriminate|].
      now apply (Hsafe' name g1 g2). }
  split; [exact Hseq|].
  intros level seq Hle Hlt Hin. rewrite Hdir in Hin.
  destruct (Hnames _ Hin) as [Hlog|Hin'].
  - symmetry in Hlog. now apply table_name_not_log in Hlog.
  - destruct (regex_match_table_name level seq Hlt) as [Hends Hmatch].
    specialize (Hseq _ _ _ Hin' Hends Hmatch).
    rewrite digits_value_decimal in Hseq. lia.
Qed.

End SequenceCounter.

(** C8, as stated, fails: the counter is a double. On a directory with the
    table file [level0_9007199254740993.sst], whose sequence number is
    2^53 + 1, the counter after opening is 2^53, below the sequence number
    of the name; and the counter stays there: two flushes in a row take the
    same name, and the second overwrites the file of the first, which leaves
    two table files for three open tables. *)
Lemma counter_sticks_at_large_sequence_number :
  let opened := LSMTree.new large_sequence_directory LSMTree.no_options in
  let calls := [EngineSet "k" (VJson (JNum 1)); EngineFlush;
                EngineSet "k" (VJson (JNum 2)); EngineFlush] in
  let s' := fold_left (after_engine_call (fun _ _ => 0)) calls (snd opened) in
  fst opened = Returned tt
  /\ readdirSync large_sequence_directory = ["level0_9007199254740993.sst"]
  /\ regex_match "level0_9007199254740993.sst"
     = Some ("0", "9007199254740993")
  /\ digits_value "9007199254740993" = 9007199254740993%N
  /\ LSMTree.sstableCounter (snd opened) = 9007199254740992%N
  /\ map SSTableReader.filePath (LSMTree.level_tables s' 0)
     = ["level0_9007199254740993.sst"; "level0_9007199254740992.sst";
        "level0_9007199254740992.sst"]
  /\ List.length (filter (fun name => endsWith name ".sst")
                         (readdirSync (LSMTree.dataDir s'))) = 2%nat
  /\ LSMTree.sstableCounter s' = 9007199254740992%N.
Proof. vm_compute. repeat split. Qed.

(** C8, amended: when the engine opens on a directory whose table file
    names carry sequence numbers below 2^53, its counter is greater than
    every one of them, and no name made from the counter or from a later
    value of it is the name of a file of the directory. This stays so
    after any calls of [set], [delete], flush and compaction that leave the
    counter below 2^53: the counter has not gone down, every name of the
    directory was there at opening, or is the log, or was made from a value
    the counter has passed since, and no name made from the counter or a
    later value is in the directory. *)
Theorem counter_above_every_sequence_number
        (localeCompare : string -> string -> Z)
        (d : disk) (o : LSMTree.options) (s : LSMTree.t)
        (calls : list engine_call) :
  LSMTree.new d o = (Returned tt, s) ->
  sequence_numbers_safe d = true ->
  (forall name g1 g2,
      In name (readdirSync d) -> endsWith name ".sst" = true ->
      regex_match name = Some (g1, g2) ->
      (digits_value g2 < LSMTree.sstableCounter s)%N)
  /\ fresh_from s
  /\ let s' := fold_left (after_engine_call localeCompare) calls s in
     (LSMTree.sstableCounter s' < safe_bound)%N ->
     (LSMTree.sstableCounter s <= LSMTree.sstableCounter s')%N
     /\ fresh_from s'
     /\ forall name,
          In name (readdirSync (LSMTree.dataDir s')) ->
          In name (readdirSync d)
          \/ name = WriteAheadLog.logPath
          \/ exists level seq,
               name = table_name level seq
               /\ (LSMTree.sstableCounter s <= seq)%N
               /\ (seq < LSMTree.sstableCounter s')%N.
Proof.
  intros Hnew Hsafe.
  destruct (new_counter d o s Hnew Hsafe) as [Hseq Hfresh].
  split; [exact Hseq|]. split; [exact Hfresh|].
  intros s' Hsafe'.
  pose proof (calls_advanced localeCompare calls s) as Hadv.
  fold s' in Hadv.
  destruct (Hadv Hsafe') as [Hle Hnames].
  split; [exact Hle|]. split; [now apply advanced_fresh with s|].
  intros name Hin.
  destruct (Hnames name Hin) as [Hold|[Hlog|Hmade]]; auto.
  destruct (new_tables d o s Hnew) as [Hdir _]. rewrite Hdir in Hold.
  apply new_log_names in Hold. tauto.
Qed.

Lemma counter_above_every_sequence_number_witness :
  let s := snd (LSMTree.new sample_directory LSMTree.no_options) in
  let calls := [EngineSet "k" (VJson (JNum 1)); EngineFlush;
                EngineDelete "a"; EngineFlush; EngineCompact 0] in
  (forall name g1 g2,
      In name (readdirSync sample_directory) -> endsWith name ".sst" = true ->
      regex_match name = Some (g1, g2) ->
      (digits_value g2 < LSMTree.sstableCounter s)%N)
  /\ fresh_from s
  /\ let s' := fold_left (after_engine_call (fun _ _ => 0)) calls s in
     (LSMTree.sstableCounter s' < safe_bound)%N ->
     (LSMTree.sstableCounter s <= LSMTree.sstableCounter s')%N
     /\ fresh_from s'
     /\ forall name,
          In name (readdirSync (LSMTree.dataDir s')) ->
          In name (readdirSync sample_directory)
          \/ name = WriteAheadLog.logPath
          \/ exists level seq,
               name = table_name level seq
               /\ (LSMTree.sstableCounter s <= seq)%N
               /\ (seq < LSMTree.sstableCounter s')%N.
Proof.
  intros s calls.
  apply (counter_above_every_sequence_number
           (fun _ _ => 0) sample_directory LSMTree.no_options s calls).
  - vm_compute. reflexivity.
  - vm_compute. reflexivity.
Defined.

(* ===================================================================== *)
(** * Properties of the engine: a log cut short                            *)
(* ===================================================================== *)

(** X28: on an engine whose log ends in a text that no newline ends, the
    leftover of a record cut short, [set(k, v)] that does not fill the
    MemTable returns and [get] then returns [v]; but the record went onto
    the line of the leftover, which does not parse: the log replays
    without the record, and without what the leftover stood for. *)
Theorem append_after_torn_tail
        (localeCompare : string -> string -> Z) (s : LSMTree.t)
        (k : string) (j : json) (lines : list wal_line) (tail : wal_line) :
  disk_lookup WriteAheadLog.logPath (LSMTree.dataDir s)
  = Some (TornLogFile lines tail) ->
  fst (MemTable.set k (VJson j) (LSMTree.memtable s)) = Returned false ->
  exists s',
    LSMTree.set localeCompare k (VJson j) s = (Returned (VJson j), s')
    /\ LSMTree.get s' k = Some (VJson j)
    /\ WriteAheadLog.recover (LSMTree.dataDir s)
       = WriteAheadLog.replay (lines ++ [tail])
    /\ disk_lookup WriteAheadLog.logPath (LSMTree.dataDir s')
       = Some (LogFile (lines ++ [Corrupt]))
    /\ WriteAheadLog.recover (LSMTree.dataDir s') = WriteAheadLog.replay lines.
Proof.
  intros Hlog Hflag.
  destruct (MemTable.set k (VJson j) (LSMTree.memtable s)) as [r m'] eqn:Hset.
  simpl in Hflag. subst r.
  eexists. split.
  - unfold LSMTree.set, bind, LSMTree.on_dataDir, LSMTree.on_memtable, ret.
    cbn [LSMTree.dataDir LSMTree.with_dataDir LSMTree.memtable].
    rewrite Hset. reflexivity.
  - split.
    { pose proof (write_in_memtable k (VJson j) s m' Hset k) as H.
      rewrite String.eqb_refl in H. simpl in H. rewrite <- H.
      now apply get_same_tables. }
    cbn [LSMTree.dataDir LSMTree.with_dataDir LSMTree.with_memtable].
    unfold WriteAheadLog.recover, WriteAheadLog.logSet,
      WriteAheadLog._appendEntry.
    rewrite Hlog, disk_lookup_write.
    split; [reflexivity|]. split; [reflexivity|].
    unfold WriteAheadLog.replay. now rewrite fold_left_app.
Qed.

Lemma append_after_torn_tail_witness :
  let s := snd (LSMTree.new torn_directory LSMTree.no_options) in
  exists s',
    LSMTree.set (fun _ _ => 0) "b" (VJson (JNum 2)) s
    = (Returned (VJson (JNum 2)), s')
    /\ LSMTree.get s' "b" = Some (VJson (JNum 2))
    /\ WriteAheadLog.recover (LSMTree.dataDir s)
       = WriteAheadLog.replay
           ([LogRecord "SET" "a" (VJson (JNum 1))] ++ [Corrupt])
    /\ disk_lookup WriteAheadLog.logPath (LSMTree.dataDir s')
       = Some (LogFile ([LogRecord "SET" "a" (VJson (JNum 1))] ++ [Corrupt]))
    /\ WriteAheadLog.recover (LSMTree.dataDir s')
       = WriteAheadLog.replay [LogRecord "SET" "a" (VJson (JNum 1))].
Proof.
  intros s.
  apply (append_after_torn_tail (fun _ _ => 0) s "b" (JNum 2)
           [LogRecord "SET" "a" (VJson (JNum 1))] Corrupt); reflexivity.
Defined.

(* ===================================================================== *)
(** * Properties of the engine: the tables of an engine just opened       *)
(* ===================================================================== *)

Section OpenedEngine.

Import LSMTree.

Lemma reader_of_file (name : string) (d : disk) (r : SSTableReader.t) :
  SSTableReader.new name d = Returned r ->
  SSTableReader.filePath r = name
  /\ disk_lookup name d = Some (TableFile (table_of r)).
Proof.
  unfold SSTableReader.new.
  destruct (disk_lookup name d) as [[ls|tb|ls tl]|]; try discriminate.
  intros H. inversion H; subst. split; [reflexivity|].
  now destruct tb.
Qed.

Lemma recover_file_opened (name : string) (seen : list string) (s s' : t) :
  ~ In name seen ->
  opened_from seen s ->
  recover_file name s = (Returned tt, s') ->
  dataDir s' = dataDir s /\ opened_from (name :: seen) s'.
Proof.
  intros Hnew [Hnd Hback] H.
  assert (Hsame : dataDir s = dataDir s /\ opened_from (name :: seen) s).
  { split; [reflexivity|]. split; [exact Hnd|].
    intros r Hr. destruct (Hback r Hr) as [H1 [H2 H3]].
    repeat split; auto. now right. }
  unfold recover_file in H.
  destruct (endsWith name ".sst") eqn:Hends;
    [|inversion H; subst; exact Hsame].
  destruct (regex_match name) as [[g1 g2]|];
    [|inversion H; subst; exact Hsame].
  unfold bind, get_state, lift, push_reader, put_state, ret in H.
  destruct (SSTableReader.new name (dataDir s)) as [reader|m] eqn:Hr;
    [|discriminate].
  destruct (nth_error (levels s) (N.to_nat (parseInt g1))) as [l|] eqn:El;
    [|discriminate].
  destruct (reader_of_file _ _ _ Hr) as [Hpath Hfile].
  assert (Hafter : forall s1,
             levels s1 = set_nth (N.to_nat (parseInt g1)) (l ++ [reader])
                                 (levels s) ->
             dataDir s1 = dataDir s ->
             dataDir s1 = dataDir s /\ opened_from (name :: seen) s1).
  { intros s1 Hlev Hdir. split; [exact Hdir|].
    assert (Hperm : Permutation (open_tables s1) (reader :: open_tables s)).
    { unfold open_tables. rewrite Hlev. now apply concat_push. }
    split.
    - apply (Permutation_NoDup (l := map SSTableReader.filePath
                                       (reader :: open_tables s))).
      + apply Permutation_map. now symmetry.
      + simpl. constructor; [|exact Hnd].
        rewrite Hpath. intros Hin. apply in_map_iff in Hin as [r [Heq Hin]].
        destruct (Hback r Hin) as [Hseen _]. rewrite Heq in Hseen. tauto.
    - intros r Hin. apply (Permutation_in _ Hperm) in Hin.
      rewrite Hdir. destruct Hin as [<-|Hin].
      + rewrite Hpath. repeat split; [now left|exact Hfile|exact Hends].
      + destruct (Hback r Hin) as [H1 [H2 H3]].
        repeat split; auto. now right. }
  simpl in H.
  destruct (sstableCounter s <=? parseInt g2)%N;
    inversion H; subst; apply Hafter; reflexivity.
Qed.

Lemma recover_files_opened (names : list string) :
  forall seen s s',
    NoDup names ->
    (forall x, In x names -> ~ In x seen) ->
    opened_from seen s ->
    for_each recover_file names s = (Returned tt, s') ->
    dataDir s' = dataDir s /\ exists seen', opened_from seen' s'.
Proof.
  induction names as [|n names IH]; intros seen s s' Hnd Hsep Hinv H;
    simpl in H.
  - inversion H; subst. split; [reflexivity|now exists seen].
  - unfold bind in H.
    destruct (recover_file n s) as [[[]|m] s1] eqn:E1; [|discriminate].
    inversion Hnd as [|? ? Hn Hnd']; subst.
    destruct (recover_file_opened n seen s s1) as [Hd1 Hinv1]; auto.
    { apply Hsep. now left. }
    destruct (IH (n :: seen) s1 s' Hnd') as [Hd2 Hex]; auto.
    { intros x Hx [<-|Hin]; [tauto|]. apply (Hsep x); [now right|exact Hin]. }
    split; [congruence|exact Hex].
Qed.

Lemma endsWith_log : endsWith WriteAheadLog.logPath ".sst" = false.
Proof. reflexivity. Qed.

End OpenedEngine.

(** X29: an engine that has opened a directory is consistent with it: every
    table it has open was opened on a file of its own, which the directory
    holds as the reader carries it. *)
Theorem opened_engine_is_consistent
        (d : disk) (o : LSMTree.options) (s : LSMTree.t) :
  NoDup (readdirSync d) ->
  LSMTree.new d o = (Returned tt, s) ->
  consistent s.
Proof.
  intros Hnd Hnew.
  destruct (new_tables d o s Hnew) as [Hdir _].
  unfold LSMTree.new, LSMTree._recover, bind, get_state in Hnew.
  destruct (for_each LSMTree.recover_file
                     (readdirSync (LSMTree.dataDir (LSMTree.initial d o)))
                     (LSMTree.initial d o)) as [[[]|m] s1] eqn:E1;
    [|discriminate].
  apply (recover_files_opened _ []) in E1 as [Hd1 [seen [Hpaths Hback]]].
  - apply replay_entries_frame in Hnew as [Hl2 [Hd2 _]].
    unfold consistent, open_tables in *. rewrite Hl2, Hd2.
    split; [rewrite Hd1; simpl; now apply new_log_nodup|].
    split; [exact Hpaths|].
    intros r Hr. destruct (Hback r Hr) as [_ [Hfile Hends]].
    split; [exact Hfile|].
    intros Heq. rewrite Heq, endsWith_log in Hends. discriminate.
  - simpl. now apply new_log_nodup.
  - intros x _ [].
  - split.
    + unfold open_tables. simpl.
      assert (E : forall n, List.concat (repeat (@nil SSTableReader.t) n) = [])
        by (induction n as [|n IH]; simpl; auto).
      rewrite E. constructor.
    + unfold open_tables. simpl.
      assert (E : forall n, List.concat (repeat (@nil SSTableReader.t) n) = [])
        by (induction n as [|n IH]; simpl; auto).
      rewrite E. intros r [].
Qed.

Lemma opened_engine_is_consistent_witness :
  consistent (snd (LSMTree.new sample_directory LSMTree.no_options)).
Proof.
  apply (opened_engine_is_consistent sample_directory LSMTree.no_options).
  - vm_compute. repeat (constructor; [simpl; intuition discriminate|]).
    constructor.
  - vm_compute. reflexivity.
Defined.
